(** * tw-cn-core: tokenizer, variant splitter, classifier and group ordering

    A shallow embedding of [packages/tw-cn-core/src/index.ts] and of the
    part of the JavaScript runtime it relies on (strings, [RegExp],
    [Array.prototype.sort], [Map]), and of the two visitors of the
    codemod [formatTailwindInDir], followed by the properties of
    [formatClasses], [tokenize], [categorize] and the visitors.

    Conventions of the embedding.
    - A JavaScript string is the list of its code units.  The embedding
      covers the code units below 256 (Latin-1), written with [ascii].
    - A call either returns, throws, or falls outside the modelled
      fragment of the runtime; see [outcome].
    - A [RegExp] keeps its source text; the [RegExp] constructor is the
      parser [compile] below, and matching is the backtracking matcher
      [exec]. *)

From Stdlib Require Import List Ascii String ZArith Lia Bool Arith.
From Stdlib Require Import Permutation Sorted.
Import ListNotations.

Open Scope string_scope.
Open Scope list_scope.
Open Scope nat_scope.

(** ** JavaScript strings *)

Abbreviation jsstring := (list ascii).

Coercion list_ascii_of_string : string >-> list.

Definition strs (l : list string) : list jsstring := map list_ascii_of_string l.

Fixpoint jsstring_eqb (a b : jsstring) : bool :=
  match a, b with
  | [], [] => true
  | x :: a', y :: b' => Ascii.eqb x y && jsstring_eqb a' b'
  | _, _ => false
  end.

(** The truthiness of a string: [if (cur)], [!prefix], [filter(Boolean)]. *)
Definition truthy (s : jsstring) : bool :=
  match s with [] => false | _ => true end.

(** [/\s/.test(ch)] and the characters removed by [String.prototype.trim]:
    TAB, LF, VT, FF, CR, SPACE and NBSP are the white space and line
    terminator code units below 256. *)
Definition isWhiteSpace (ch : ascii) : bool :=
  existsb (Ascii.eqb ch)
    ["009"%char; "010"%char; "011"%char; "012"%char; "013"%char;
     "032"%char; "160"%char].

(** Line terminators, which [.] does not match. *)
Definition isLineTerminator (ch : ascii) : bool :=
  Ascii.eqb ch "010"%char || Ascii.eqb ch "013"%char.

Fixpoint trimStart (s : jsstring) : jsstring :=
  match s with
  | ch :: s' => if isWhiteSpace ch then trimStart s' else s
  | [] => []
  end.

Definition trimEnd (s : jsstring) : jsstring := rev (trimStart (rev s)).

(** [String.prototype.trim] *)
Definition trim (s : jsstring) : jsstring := trimEnd (trimStart s).

(** [Array.prototype.join] on an array of strings. *)
Fixpoint join (sep : jsstring) (l : list jsstring) : jsstring :=
  match l with
  | [] => []
  | [s] => s
  | s :: l' => s ++ sep ++ join sep l'
  end.

(** [String.prototype.startsWith] *)
Fixpoint startsWith (s p : jsstring) : bool :=
  match p, s with
  | [], _ => true
  | x :: p', y :: s' => Ascii.eqb x y && startsWith s' p'
  | _ :: _, [] => false
  end.

(** [s.slice(n)] for [0 <= n]. *)
Definition sliceFrom (s : jsstring) (n : nat) : jsstring := skipn n s.

(** [s.slice(0, -1)] *)
Definition dropLast (s : jsstring) : jsstring := removelast s.

(** [Array.prototype.indexOf] on an array of strings; [-1] when absent. *)
Fixpoint indexOfFrom (i : Z) (l : list jsstring) (v : jsstring) : Z :=
  match l with
  | [] => (-1)%Z
  | x :: l' => if jsstring_eqb x v then i else indexOfFrom (i + 1)%Z l' v
  end.

Definition indexOf (l : list jsstring) (v : jsstring) : Z := indexOfFrom 0%Z l v.

(** ** Outcomes of a call *)

Inductive exn : Type := TypeError | SyntaxError.

(** [Ok a]: the call returns [a].  [Throws e]: the call throws.
    [NoFuel]: a loop did not finish within the step budget it was given.
    [Unmodelled]: the call reached a [RegExp] pattern that uses syntax
    outside the fragment [compile] covers. *)
Inductive outcome (A : Type) : Type :=
| Ok (a : A)
| Throws (e : exn)
| NoFuel
| Unmodelled.

Arguments Ok {A} a.
Arguments Throws {A} e.
Arguments NoFuel {A}.
Arguments Unmodelled {A}.

Definition bind {A B : Type} (m : outcome A) (f : A -> outcome B) : outcome B :=
  match m with
  | Ok a => f a
  | Throws e => Throws e
  | NoFuel => NoFuel
  | Unmodelled => Unmodelled
  end.

Notation "x <- m ;; k" := (bind m (fun x => k))
  (at level 61, m at next level, right associativity).

Fixpoint mapM {A B : Type} (f : A -> outcome B) (l : list A) : outcome (list B) :=
  match l with
  | [] => Ok []
  | a :: l' => b <- f a ;; bs <- mapM f l' ;; Ok (b :: bs)
  end.

Fixpoint foldM {A S : Type} (f : S -> A -> outcome S) (l : list A) (s : S) : outcome S :=
  match l with
  | [] => Ok s
  | a :: l' => s' <- f s a ;; foldM f l' s'
  end.

(** ** types.ts *)

Inductive GroupKey : Type :=
| layout | spacing | sizing | typography | colors
| borders | effects | interactivity | accessibility | misc.

Definition GroupKey_eqb (a b : GroupKey) : bool :=
  match a, b with
  | layout, layout | spacing, spacing | sizing, sizing
  | typography, typography | colors, colors | borders, borders
  | effects, effects | interactivity, interactivity
  | accessibility, accessibility | misc, misc => true
  | _, _ => false
  end.

(** An entry of [customUtilities].  A [RegExp] handed in by the caller is
    represented by what [pat.test] answers on each string (a pattern
    without the [g] and [y] flags, whose [test] has no state). *)
Inductive CustomUtility : Type :=
| CUString (s : jsstring)
| CURegExp (test : jsstring -> bool).

Record Tailwind : Type := {
  prefix : option jsstring;
  variants : option (list jsstring);
  customUtilities : option (list CustomUtility)
}.

Record FormatOptions : Type := {
  groupOrder : option (list GroupKey);
  splitPerGroup : option bool;
  strictTailwindOrder : option bool;
  tailwind : option Tailwind
}.

(** [opts = {}] *)
Definition noOptions : FormatOptions :=
  {| groupOrder := None; splitPerGroup := None;
     strictTailwindOrder := None; tailwind := None |}.

(** ** Defaults *)

Definition DEFAULT_ORDER : list GroupKey :=
  [layout; spacing; sizing; typography; colors;
   borders; effects; interactivity; accessibility; misc].

Definition DEFAULT_VARIANTS : list jsstring :=
  strs ["sm"; "md"; "lg"; "xl"; "2xl";
        "dark"; "light"; "portrait"; "landscape"; "motion-safe"; "motion-reduce";
        "hover"; "focus"; "focus-visible"; "focus-within"; "active"; "visited"; "disabled";
        "first"; "last"; "only"; "odd"; "even";
        "open"; "checked"; "required"; "invalid";
        "rtl"; "ltr";
        "group-hover"; "group-focus"; "peer-hover"; "peer-focus"].

(** ** RegExp: patterns *)

(** The patterns of the fragment.  A group, capturing or not, is its
    body: the program reads no capture but [m[0]].  [r+] is [RSeq r (RStar r)]. *)
Inductive regex : Type :=
| REmpty
| RChar (a : ascii)
| RAny
| RSet (negated : bool) (members : list ascii)
| RBol
| REol
| RSeq (r1 r2 : regex)
| RAlt (r1 r2 : regex)
| RStar (r : regex)
| ROpt (r : regex)
| RLook (negative : bool) (r : regex).

(** [Canonicalize] under the [i] flag (without [u]): the upper-case
    mapping of a code unit when that is again one code unit.  Below 256
    this moves [a-z] and U+00E0..U+00FE (but U+00F7) down by 32; U+00B5
    and U+00FF have their upper case above 255, where no other code unit
    below 256 is sent, and U+00DF has a two-unit upper case: the three
    stay in classes of their own. *)
Definition canonicalize (ch : ascii) : ascii :=
  let n := nat_of_ascii ch in
  if ((97 <=? n) && (n <=? 122))
     || ((224 <=? n) && (n <=? 254) && negb (n =? 247))
  then ascii_of_nat (n - 32) else ch.

Definition charMatches (ic : bool) (a ch : ascii) : bool :=
  if ic then Ascii.eqb (canonicalize a) (canonicalize ch) else Ascii.eqb a ch.

Definition setMatches (ic negated : bool) (members : list ascii) (ch : ascii) : bool :=
  xorb negated (existsb (fun a => charMatches ic a ch) members).

(** The backtracking matcher, in continuation style: [exec ic r i s k]
    matches [r] at index [i], where [s] is the input from [i] on, and
    hands the end index and the rest of the input to [k]; the first
    success in priority order (left alternative first, greedy
    repetition) is the answer.  An iteration of [*] or [?] that matches
    the empty string is rejected, as in [RepeatMatcher]. *)
Fixpoint exec (ic : bool) (r : regex) (i : nat) (s : jsstring)
    (k : nat -> jsstring -> option nat) {struct r} : option nat :=
  match r with
  | REmpty => k i s
  | RChar a =>
      match s with
      | ch :: s' => if charMatches ic a ch then k (S i) s' else None
      | [] => None
      end
  | RAny =>
      match s with
      | ch :: s' => if isLineTerminator ch then None else k (S i) s'
      | [] => None
      end
  | RSet negated members =>
      match s with
      | ch :: s' => if setMatches ic negated members ch then k (S i) s' else None
      | [] => None
      end
  | RBol => if i =? 0 then k i s else None
  | REol => match s with [] => k i s | _ :: _ => None end
  | RSeq r1 r2 => exec ic r1 i s (fun j s' => exec ic r2 j s' k)
  | RAlt r1 r2 =>
      match exec ic r1 i s k with
      | Some e => Some e
      | None => exec ic r2 i s k
      end
  | RStar r' =>
      (fix loop (fuel : nat) (i : nat) (s : jsstring) {struct fuel} : option nat :=
         match fuel with
         | O => k i s
         | S fuel' =>
             match exec ic r' i s
                     (fun j s' => if i <? j then loop fuel' j s' else None) with
             | Some e => Some e
             | None => k i s
             end
         end) (List.length s) i s
  | ROpt r' =>
      match exec ic r' i s (fun j s' => if i <? j then k j s' else None) with
      | Some e => Some e
      | None => k i s
      end
  | RLook negative r' =>
      match exec ic r' i s (fun j _ => Some j) with
      | Some _ => if negative then None else k i s
      | None => if negative then k i s else None
      end
  end.

(** [RegExpBuiltinExec] without [g] and [y]: the first index, from 0 up
    to the length of the input, at which the pattern matches; the answer
    is the pair of the start and end index. *)
Fixpoint searchFrom (ic : bool) (r : regex) (i : nat) (s : jsstring) : option (nat * nat) :=
  match exec ic r i s (fun j _ => Some j) with
  | Some j => Some (i, j)
  | None =>
      match s with
      | [] => None
      | _ :: s' => searchFrom ic r (S i) s'
      end
  end.

(** ** RegExp: the constructor *)

Inductive qtag : Type := QAtom | QQuantified | QAssertion.

Inductive gkind : Type := GCapture | GNonCapture | GLookahead (negative : bool).

(** One nesting level of the pattern being read: the alternatives that
    are complete and the terms of the current one, latest first. *)
Record level : Type := { alts : list regex; terms : list (regex * qtag) }.

Inductive perror : Type := PSyntaxError | PUnsupported.

Inductive pmode : Type :=
| PNormal
| PEscape
| POpen
| POpenQ
| PClassStart
| PClass (negated : bool) (members : list ascii)
| PClassEscape (negated : bool) (members : list ascii)
| PFail (e : perror).

Record pstate : Type := {
  mode : pmode;
  top : level;
  stack : list (gkind * level)
}.

Fixpoint seqOf (l : list regex) : regex :=
  match l with
  | [] => REmpty
  | [r] => r
  | r :: l' => RSeq r (seqOf l')
  end.

Fixpoint altOf (l : list regex) : regex :=
  match l with
  | [] => REmpty
  | [r] => r
  | r :: l' => RAlt r (altOf l')
  end.

Definition closeLevel (lv : level) : regex :=
  altOf (rev (seqOf (rev (map fst (terms lv))) :: alts lv)).

Definition pfail (e : perror) (st : pstate) : pstate :=
  {| mode := PFail e; top := top st; stack := stack st |}.

Definition pushTerm (r : regex) (q : qtag) (st : pstate) : pstate :=
  {| mode := PNormal;
     top := {| alts := alts (top st); terms := (r, q) :: terms (top st) |};
     stack := stack st |}.

Definition openGroup (g : gkind) (st : pstate) : pstate :=
  {| mode := PNormal;
     top := {| alts := []; terms := [] |};
     stack := (g, top st) :: stack st |}.

Definition closeGroup (st : pstate) : pstate :=
  match stack st with
  | [] => pfail PSyntaxError st
  | (g, outer) :: rest =>
      let body := closeLevel (top st) in
      let r := match g with
               | GCapture | GNonCapture => body
               | GLookahead negative => RLook negative body
               end in
      {| mode := PNormal;
         top := {| alts := alts outer; terms := (r, QAtom) :: terms outer |};
         stack := rest |}
  end.

Definition nextAlternative (st : pstate) : pstate :=
  {| mode := PNormal;
     top := {| alts := seqOf (rev (map fst (terms (top st)))) :: alts (top st);
               terms := [] |};
     stack := stack st |}.

Definition quantify (f : regex -> regex) (st : pstate) : pstate :=
  match terms (top st) with
  | (r, QAtom) :: ts =>
      {| mode := PNormal;
         top := {| alts := alts (top st); terms := (f r, QQuantified) :: ts |};
         stack := stack st |}
  | _ => pfail PSyntaxError st
  end.

Definition setMode (m : pmode) (st : pstate) : pstate :=
  {| mode := m; top := top st; stack := stack st |}.

Definition isAlnum (ch : ascii) : bool :=
  let n := nat_of_ascii ch in
  ((48 <=? n) && (n <=? 57)) || ((65 <=? n) && (n <=? 90)) || ((97 <=? n) && (n <=? 122)).

(** A character read outside a class and outside an escape. *)
Definition stepNormal (st : pstate) (ch : ascii) : pstate :=
  if Ascii.eqb ch "\" then setMode PEscape st
  else if Ascii.eqb ch "(" then setMode POpen st
  else if Ascii.eqb ch ")" then closeGroup st
  else if Ascii.eqb ch "|" then nextAlternative st
  else if Ascii.eqb ch "[" then setMode PClassStart st
  else if Ascii.eqb ch "^" then pushTerm RBol QAssertion st
  else if Ascii.eqb ch "$" then pushTerm REol QAssertion st
  else if Ascii.eqb ch "." then pushTerm RAny QAtom st
  else if Ascii.eqb ch "*" then quantify RStar st
  else if Ascii.eqb ch "+" then quantify (fun r => RSeq r (RStar r)) st
  else if Ascii.eqb ch "?" then
    match terms (top st) with
    | (_, QQuantified) :: _ => pfail PUnsupported st
    | _ => quantify ROpt st
    end
  else if Ascii.eqb ch "{" then pfail PUnsupported st
  else pushTerm (RChar ch) QAtom st.

(** A character read inside [[...]]. *)
Definition stepClass (negated : bool) (members : list ascii) (st : pstate) (ch : ascii) : pstate :=
  if Ascii.eqb ch "]" then pushTerm (RSet negated (rev members)) QAtom st
  else if Ascii.eqb ch "\" then setMode (PClassEscape negated members) st
  else if Ascii.eqb ch "-" then pfail PUnsupported st
  else setMode (PClass negated (ch :: members)) st.

(** The fragment: literals, [.], [^], [$], [|], groups [(...)], [(?:...)],
    lookaheads [(?=...)], [(?!...)], the greedy quantifiers [*], [+], [?],
    classes of single characters, and [\] before a character that is
    neither a letter nor a digit (an identity escape).  [\] before a
    letter or digit, [{], [(?<], a lazy quantifier and [-] inside a class
    are outside it. *)
Definition pstep (st : pstate) (ch : ascii) : pstate :=
  match mode st with
  | PFail _ => st
  | PNormal => stepNormal st ch
  | PEscape =>
      if isAlnum ch then pfail PUnsupported st else pushTerm (RChar ch) QAtom st
  | POpen =>
      if Ascii.eqb ch "?" then setMode POpenQ st
      else stepNormal (openGroup GCapture st) ch
  | POpenQ =>
      if Ascii.eqb ch ":" then openGroup GNonCapture st
      else if Ascii.eqb ch "=" then openGroup (GLookahead false) st
      else if Ascii.eqb ch "!" then openGroup (GLookahead true) st
      else if Ascii.eqb ch "<" then pfail PUnsupported st
      else pfail PSyntaxError st
  | PClassStart =>
      if Ascii.eqb ch "^" then setMode (PClass true []) st
      else stepClass false [] st ch
  | PClass negated members => stepClass negated members st ch
  | PClassEscape negated members =>
      if isAlnum ch then pfail PUnsupported st
      else setMode (PClass negated (ch :: members)) st
  end.

Definition pinit : pstate :=
  {| mode := PNormal; top := {| alts := []; terms := [] |}; stack := [] |}.

Definition pfinish (st : pstate) : perror + regex :=
  match mode st with
  | PFail e => inl e
  | PNormal =>
      match stack st with
      | [] => inr (closeLevel (top st))
      | _ :: _ => inl PSyntaxError
      end
  | _ => inl PSyntaxError
  end.

Definition compile (src : jsstring) : perror + regex :=
  pfinish (fold_left pstep src pinit).

Record RegExp : Type := {
  source : jsstring;
  ignoreCase : bool;
  program : regex
}.

(** [new RegExp(src, flags)], where [flags] is [""] or ["i"]. *)
Definition newRegExp (src : jsstring) (ic : bool) : outcome RegExp :=
  match compile src with
  | inr r => Ok {| source := src; ignoreCase := ic; program := r |}
  | inl PSyntaxError => Throws SyntaxError
  | inl PUnsupported => Unmodelled
  end.

(** A regular expression literal [/src/] of the program text. *)
Definition literal (src : jsstring) : RegExp :=
  {| source := src;
     ignoreCase := false;
     program := match compile src with
                | inr r => r
                | inl _ => RSet false []
                end |}.

(** [re.test(s)] *)
Definition test (re : RegExp) (s : jsstring) : bool :=
  match searchFrom (ignoreCase re) (program re) 0 s with
  | Some _ => true
  | None => false
  end.

(** [s.match(re)]: [None] is [null], [Some] carries [m[0]]. *)
Definition String_match (s : jsstring) (re : RegExp) : option jsstring :=
  match searchFrom (ignoreCase re) (program re) 0 s with
  | Some (i, j) => Some (firstn (j - i) (skipn i s))
  | None => None
  end.

(** ** Utils *)

(** [s.replace(/[.*+?^${}()|[\]\\]/g, "\\$&")]: a backslash goes in front
    of each of the fourteen characters of the class. *)
Definition isRegexSpecial (ch : ascii) : bool :=
  existsb (Ascii.eqb ch)
    ["."%char; "*"%char; "+"%char; "?"%char; "^"%char; "$"%char; "{"%char;
     "}"%char; "("%char; ")"%char; "|"%char; "["%char; "]"%char; "\"%char].

Fixpoint escapeRegex (s : jsstring) : jsstring :=
  match s with
  | [] => []
  | ch :: s' =>
      if isRegexSpecial ch then "\"%char :: ch :: escapeRegex s'
      else ch :: escapeRegex s'
  end.

Definition makeVariantRegex (variants : option (list jsstring)) : outcome RegExp :=
  let baseList :=
    match variants with
    | Some (v :: vs) => v :: vs
    | _ => DEFAULT_VARIANTS
    end in
  let arb : jsstring := "\[[^\]]+\]" in
  let list := join "|" (map escapeRegex baseList) in
  let union := arb ++ "|(?:" ++ list ++ ")" in
  newRegExp ("^(?:" ++ union ++ "):") true.

(** The state of the loop of [splitTokens]. *)
Record SplitState : Type := {
  out : list jsstring;
  cur : jsstring;
  depth : nat
}.

(** One turn of the [for] loop, on the character [ch = input[i]]. *)
Definition splitStep (st : SplitState) (ch : ascii) : SplitState :=
  let depth1 := if Ascii.eqb ch "[" then S (depth st) else depth st in
  let depth2 := if Ascii.eqb ch "]" && (0 <? depth1) then depth1 - 1 else depth1 in
  if isWhiteSpace ch && (depth2 =? 0) then
    {| out := if truthy (cur st) then out st ++ [cur st] else out st;
       cur := [];
       depth := depth2 |}
  else
    {| out := out st; cur := cur st ++ [ch]; depth := depth2 |}.

Definition splitInit : SplitState := {| out := []; cur := []; depth := 0 |}.

Definition splitTokens (input : jsstring) : list jsstring :=
  let st := fold_left splitStep input splitInit in
  let out := if truthy (cur st) then out st ++ [cur st] else out st in
  filter truthy out.

Record Stripped : Type := {
  s_variant : jsstring;
  s_base : jsstring;
  s_variants : list jsstring
}.

(** The [while] loop of [stripVariantsWith]; [fuel] bounds the number of
    turns.  [m] is never [null] after a successful [test]; were it so,
    [m[0]] would throw. *)
Fixpoint stripLoop (fuel : nat) (partsRe : RegExp) (v rest : jsstring)
    (vs : list jsstring) : outcome Stripped :=
  if test partsRe rest then
    match fuel with
    | O => NoFuel
    | S fuel' =>
        match String_match rest partsRe with
        | None => Throws TypeError
        | Some raw =>
            let label := dropLast raw in
            stripLoop fuel' partsRe (v ++ raw)
              (sliceFrom rest (List.length raw)) (vs ++ [label])
        end
    end
  else Ok {| s_variant := v; s_base := rest; s_variants := vs |}.

(** A turn that strips nothing leaves [rest] as it is and the loop never
    ends; a turn that strips something shortens [rest].  So the loop ends
    iff it ends within [length token] turns. *)
Definition stripVariantsWith (partsRe : RegExp) (token : jsstring) : outcome Stripped :=
  stripLoop (List.length token) partsRe [] token [].

(** [GetSubstitution] for a match without captures: [$$], [$&], [$`] and
    [$'] are replaced, any other [$] stays. *)
Fixpoint getSubstitution (matched before after template : jsstring) : jsstring :=
  match template with
  | [] => []
  | ch :: rest =>
      if Ascii.eqb ch "$" then
        match rest with
        | ch2 :: rest2 =>
            if Ascii.eqb ch2 "$" then "$"%char :: getSubstitution matched before after rest2
            else if Ascii.eqb ch2 "&" then matched ++ getSubstitution matched before after rest2
            else if Ascii.eqb ch2 "`" then before ++ getSubstitution matched before after rest2
            else if Ascii.eqb ch2 "'" then after ++ getSubstitution matched before after rest2
            else ch :: getSubstitution matched before after rest
        | [] => [ch]
        end
      else ch :: getSubstitution matched before after rest
  end.

(** [src.replace(/^\^/, replacement)] *)
Definition replaceLeadingCaret (src replacement : jsstring) : jsstring :=
  match src with
  | ch :: after =>
      if Ascii.eqb ch "^" then getSubstitution [ch] [] after replacement ++ after
      else src
  | [] => src
  end.

Definition withPrefix (prefix : option jsstring) (re : RegExp) : outcome RegExp :=
  let prefix := match prefix with Some p => p | None => [] end in
  if negb (truthy prefix) then Ok re
  else
    let px := escapeRegex prefix in
    let src := replaceLeadingCaret (source re) ("^" ++ px) in
    newRegExp src (ignoreCase re).

(** ** Classification *)

(** [tw?.prefix] and the like. *)
Definition tw_prefix (tw : option Tailwind) : option jsstring :=
  match tw with Some t => prefix t | None => None end.

Definition tw_variants (tw : option Tailwind) : option (list jsstring) :=
  match tw with Some t => variants t | None => None end.

Definition tw_customUtilities (tw : option Tailwind) : option (list CustomUtility) :=
  match tw with Some t => customUtilities t | None => None end.

Definition customMatches (base : jsstring) (pat : CustomUtility) : bool :=
  match pat with
  | CUString s => startsWith base s
  | CURegExp t => t base
  end.

(** The nine [if (re(/.../).test(base)) return ...] of [classifyWithConfig],
    top to bottom. *)
Definition RULES : list (RegExp * GroupKey) :=
  [ (literal "^(container|block|inline|flex|grid|table|flow-|contents|col-|row-|justify-|items-|content-|place-|order-|gap-)", layout);
    (literal "^(p[trblxy]?-.+|m[trblxy]?-.+|space-[xy]-)", spacing);
    (literal "^(w-|h-|min-w-|max-w-|min-h-|max-h-|aspect-)", sizing);
    (literal "^(font-|text-(?:xs|sm|base|lg|xl|\[)|leading-|tracking-|list-|truncate|line-clamp-)", typography);
    (literal "^(bg-|text-(?!xs|sm|base|lg|xl)|from-|via-|to-|decoration-|underline|ring-|shadow-|opacity-)", colors);
    (literal "^(border|rounded|divide-|outline)", borders);
    (literal "^(shadow-|blur|backdrop-|transform|scale-|rotate-|translate-|skew-)", effects);
    (literal "^(cursor-|select-|pointer-events-|accent-|appearance-|scroll-|transition|duration-|ease-|animate-)", interactivity);
    (literal "^(sr-only|not-sr-only|aria-|data-)", accessibility) ].

(** The rules in order: each pattern is rebuilt with the prefix, then
    tested; the first that matches decides, and [misc] is the fallback. *)
Fixpoint firstRule (prefix : option jsstring) (base : jsstring)
    (rules : list (RegExp * GroupKey)) : outcome GroupKey :=
  match rules with
  | [] => Ok misc
  | (r, g) :: rules' =>
      r' <- withPrefix prefix r ;;
      if test r' base then Ok g else firstRule prefix base rules'
  end.

Definition classifyWithConfig (base : jsstring) (tw : option Tailwind) : outcome GroupKey :=
  let custom :=
    match tw_customUtilities tw with
    | Some pats => existsb (customMatches base) pats
    | None => false
    end in
  if custom then Ok misc
  else firstRule (tw_prefix tw) base RULES.

Definition ORDER_HINTS : list RegExp :=
  [ literal "^container$";
    literal "^(block|inline.*|contents)$";
    literal "^(flex|grid|table)$";
    literal "^col-.*|row-.*$";
    literal "^gap-.*$";
    literal "^justify-.*|items-.*|content-.*|place-.*|order-.*$";
    literal "^p.*";
    literal "^m.*";
    literal "^space-.*";
    literal "^(w-|h-|min-|max-|aspect-)";
    literal "^(font-|text-(xs|sm|base|lg|xl|\[)|leading-|tracking-|list-|truncate|line-clamp-)";
    literal "^(bg-|text-(?!xs|sm|base|lg|xl)|from-|via-|to-|decoration-|underline|ring-|shadow-|opacity-)";
    literal "^(border|rounded|divide-|outline)";
    literal "^(transform|scale-|rotate-|translate-|skew-|blur|backdrop-)";
    literal "^(cursor-|select-|pointer-events-|accent-|appearance-|scroll-|transition|duration-|ease-|animate-)";
    literal "^(sr-only|not-sr-only|aria-|data-)" ].

Fixpoint baseScoreFrom (i : Z) (hints : list RegExp) (base : jsstring) : Z :=
  match hints with
  | [] => (Z.of_nat (List.length ORDER_HINTS) + 1)%Z
  | h :: hints' => if test h base then i else baseScoreFrom (i + 1)%Z hints' base
  end.

Definition baseScore (base : jsstring) : Z := baseScoreFrom 0%Z ORDER_HINTS base.

Fixpoint firstListed (variants order : list jsstring) : Z :=
  match variants with
  | [] => 9999%Z
  | v :: variants' =>
      let idx := indexOf order v in
      if negb (idx =? -1)%Z then idx else firstListed variants' order
  end.

Definition variantPriorityScore (variants : list jsstring)
    (order : option (list jsstring)) : Z :=
  match order with
  | None => 9999%Z
  | Some order =>
      if (List.length order =? 0) || (List.length variants =? 0) then 9999%Z
      else firstListed variants order
  end.

(** ** Runtime containers *)

(** A [Map<GroupKey, V>], and an object with [GroupKey] property names:
    the entries in insertion order, each key once. *)
Abbreviation JsMap V := (list (GroupKey * V)).

Fixpoint Map_get {V : Type} (m : JsMap V) (k : GroupKey) : option V :=
  match m with
  | [] => None
  | (k', v) :: m' => if GroupKey_eqb k' k then Some v else Map_get m' k
  end.

Definition Map_has {V : Type} (m : JsMap V) (k : GroupKey) : bool :=
  match Map_get m k with Some _ => true | None => false end.

Fixpoint Map_set {V : Type} (m : JsMap V) (k : GroupKey) (v : V) : JsMap V :=
  match m with
  | [] => [(k, v)]
  | (k', v') :: m' =>
      if GroupKey_eqb k' k then (k, v) :: m' else (k', v') :: Map_set m' k v
  end.

(** [Array.prototype.sort(cmp)]: the sort is stable, and for a comparator
    that is a consistent total preorder the result is the one stable
    sorted arrangement; insertion from the right produces it. *)
Fixpoint insertSorted {A : Type} (cmp : A -> A -> Z) (x : A) (l : list A) : list A :=
  match l with
  | [] => [x]
  | y :: l' =>
      if (cmp x y <=? 0)%Z then x :: y :: l' else y :: insertSorted cmp x l'
  end.

Fixpoint sort {A : Type} (cmp : A -> A -> Z) (l : list A) : list A :=
  match l with
  | [] => []
  | x :: l' => insertSorted cmp x (sort cmp l')
  end.

(** ** Public API *)

Record Parsed : Type := {
  p_token : jsstring;
  p_base : jsstring;
  p_variants : list jsstring;
  p_group : GroupKey;
  p_idx : Z;
  p_sBase : Z;
  p_sVar : Z
}.

Inductive Formatted : Type :=
| Flat (s : jsstring)
| Chunks (l : list jsstring).

(** The callback of [tokens.map((t, i) => ...)]. *)
Definition parseToken (variantRe : RegExp) (tw : option Tailwind)
    (t : jsstring) (i : Z) : outcome Parsed :=
  sv <- stripVariantsWith variantRe t ;;
  g <- classifyWithConfig (s_base sv) tw ;;
  Ok {| p_token := t;
        p_base := s_base sv;
        p_variants := s_variants sv;
        p_group := g;
        p_idx := i;
        p_sBase := baseScore (s_base sv);
        p_sVar := variantPriorityScore (s_variants sv) (tw_variants tw) |}.

Fixpoint parseTokens (variantRe : RegExp) (tw : option Tailwind)
    (i : Z) (tokens : list jsstring) : outcome (list Parsed) :=
  match tokens with
  | [] => Ok []
  | t :: tokens' =>
      p <- parseToken variantRe tw t i ;;
      ps <- parseTokens variantRe tw (i + 1)%Z tokens' ;;
      Ok (p :: ps)
  end.

(** [for (const k of order) buckets.set(k, []);
     if (!buckets.has("misc")) buckets.set("misc", []);] *)
Definition initBuckets (order : list GroupKey) : JsMap (list jsstring) :=
  let buckets := fold_left (fun b k => Map_set b k []) order [] in
  if negb (Map_has buckets misc) then Map_set buckets misc [] else buckets.

(** [buckets.get(item.group)!.push(item.token)]: [push] on [undefined] throws. *)
Definition distribute (buckets : JsMap (list jsstring)) (item : Parsed)
    : outcome (JsMap (list jsstring)) :=
  match Map_get buckets (p_group item) with
  | Some arr => Ok (Map_set buckets (p_group item) (arr ++ [p_token item]))
  | None => Throws TypeError
  end.

(** [a.sVar - b.sVar || a.sBase - b.sBase || a.idx - b.idx] *)
Definition compareParsed (a b : Parsed) : Z :=
  let d1 := (p_sVar a - p_sVar b)%Z in
  if negb (d1 =? 0)%Z then d1
  else
    let d2 := (p_sBase a - p_sBase b)%Z in
    if negb (d2 =? 0)%Z then d2 else (p_idx a - p_idx b)%Z.

(** [parsed.find((p) => p.token === t)!]; reading a field of [undefined] throws. *)
Definition findParsed (parsed : list Parsed) (t : jsstring) : outcome Parsed :=
  match find (fun p => jsstring_eqb (p_token p) t) parsed with
  | Some p => Ok p
  | None => Throws TypeError
  end.

(** The body of [for (const [k, arr] of buckets)]. *)
Definition sortBucket (parsed : list Parsed) (buckets : JsMap (list jsstring))
    (entry : GroupKey * list jsstring) : outcome (JsMap (list jsstring)) :=
  let (k, arr) := entry in
  items <- mapM (findParsed parsed) arr ;;
  Ok (Map_set buckets k (map p_token (sort compareParsed items))).

(** The buckets after the sort loop. *)
Definition sortedBuckets (input : jsstring) (opts : FormatOptions)
    : outcome (JsMap (list jsstring)) :=
  let order := match groupOrder opts with Some o => o | None => DEFAULT_ORDER end in
  let tw := tailwind opts in
  variantRe <- makeVariantRegex (tw_variants tw) ;;
  let tokens := splitTokens input in
  let buckets := initBuckets order in
  parsed <- parseTokens variantRe tw 0%Z tokens ;;
  buckets <- foldM distribute parsed buckets ;;
  foldM (sortBucket parsed) buckets buckets.

(** [order.flatMap((k) => buckets.get(k)!)]; an [undefined] would be kept
    as one element, which [join] prints as the empty string. *)
Definition flatBuckets (order : list GroupKey) (buckets : JsMap (list jsstring))
    : list jsstring :=
  flat_map (fun k => match Map_get buckets k with
                     | Some g => g
                     | None => [[]]
                     end) order.

(** [order.map((k) => buckets.get(k)!).filter((g) => g.length)]; [.length]
    of [undefined] throws. *)
Definition chunkBuckets (order : list GroupKey) (buckets : JsMap (list jsstring))
    : outcome (list (list jsstring)) :=
  gs <- mapM (fun k => match Map_get buckets k with
                       | Some g => Ok g
                       | None => Throws TypeError
                       end) order ;;
  Ok (filter (fun g => negb (List.length g =? 0)) gs).

Definition formatClasses (input : jsstring) (opts : FormatOptions) : outcome Formatted :=
  let order := match groupOrder opts with Some o => o | None => DEFAULT_ORDER end in
  buckets <- sortedBuckets input opts ;;
  match splitPerGroup opts with
  | Some true =>
      gs <- chunkBuckets order buckets ;;
      Ok (Chunks (map (join " ") gs))
  | _ => Ok (Flat (trim (join " " (flatBuckets order buckets))))
  end.

Definition tokenize (input : jsstring) : list jsstring := splitTokens input.

(** The loop of [categorize]: [map[g].push(t)] on the record [map], which
    has all ten keys. *)
Fixpoint categorizeLoop (variantRe : RegExp) (tw : option Tailwind)
    (tokens : list jsstring) (map : GroupKey -> list jsstring)
    : outcome (GroupKey -> list jsstring) :=
  match tokens with
  | [] => Ok map
  | t :: tokens' =>
      sv <- stripVariantsWith variantRe t ;;
      g <- classifyWithConfig (s_base sv) tw ;;
      categorizeLoop variantRe tw tokens'
        (fun k => if GroupKey_eqb k g then map k ++ [t] else map k)
  end.

Definition categorize (input : jsstring) (opts : FormatOptions)
    : outcome (JsMap (list jsstring)) :=
  let order := match groupOrder opts with Some o => o | None => DEFAULT_ORDER end in
  let map : GroupKey -> list jsstring := fun _ => [] in
  variantRe <- makeVariantRegex (tw_variants (tailwind opts)) ;;
  map <- categorizeLoop variantRe (tailwind opts) (splitTokens input) map ;;
  let ordered := fold_left (fun o k => Map_set o k (map k)) order [] in
  Ok (if negb (Map_has ordered misc) then Map_set ordered misc (map misc) else ordered).

(** * Vocabulary of the properties *)

(** [order] of [formatClasses] and [categorize]: [opts.groupOrder ?? DEFAULT_ORDER]. *)
Definition effectiveOrder (opts : FormatOptions) : list GroupKey :=
  match groupOrder opts with Some o => o | None => DEFAULT_ORDER end.

(** The group a token is put in: the variant split followed by the
    classification of the base, as the callback of [tokens.map] in
    [formatClasses] and the loop of [categorize] compute it. *)
Definition tokenGroup (tw : option Tailwind) (t : jsstring) : outcome GroupKey :=
  variantRe <- makeVariantRegex (tw_variants tw) ;;
  sv <- stripVariantsWith variantRe t ;;
  classifyWithConfig (s_base sv) tw.

(** The variant splitter as both entry points run it on a token. *)
Definition splitVariants (tw : option Tailwind) (t : jsstring) : outcome Stripped :=
  variantRe <- makeVariantRegex (tw_variants tw) ;;
  stripVariantsWith variantRe t.

(** The tokens of the parsed items that are classified into [k], in input order. *)
Definition members (k : GroupKey) (ps : list Parsed) : list jsstring :=
  map p_token (filter (fun p => GroupKey_eqb (p_group p) k) ps).

(** Options that set [groupOrder] only. *)
Definition withOrder (order : list GroupKey) : FormatOptions :=
  {| groupOrder := Some order; splitPerGroup := None;
     strictTailwindOrder := None; tailwind := None |}.

(** Options that set [tailwind] only. *)
Definition withTailwind (tw : Tailwind) : FormatOptions :=
  {| groupOrder := None; splitPerGroup := None;
     strictTailwindOrder := None; tailwind := Some tw |}.

(** The call comes to an end: it returns or throws. *)
Definition finishes {A : Type} (o : outcome A) : Prop := o <> NoFuel.

(** [t] is classified into [k]. *)
Definition inGroup (tw : option Tailwind) (k : GroupKey) (t : jsstring) : bool :=
  match tokenGroup tw t with
  | Ok g => GroupKey_eqb g k
  | _ => false
  end.

(** ** Tokenizer *)

(** The loop of [splitTokens] run over [s] from the state [st]. *)
Definition scan (st : SplitState) (s : jsstring) : SplitState := fold_left splitStep s st.

(** What [splitTokens] returns once the loop has ended in [st]. *)
Definition finish (st : SplitState) : list jsstring :=
  filter truthy (if truthy (cur st) then out st ++ [cur st] else out st).

(** The bracket depth after [ch]: up on an opening bracket, down on a
    closing one, never below zero. *)
Definition nextDepth (d : nat) (ch : ascii) : nat :=
  if Ascii.eqb ch "[" then S d
  else if Ascii.eqb ch "]" then d - 1 else d.

(** [balancedFrom d s]: read with [d] brackets open, every closing bracket
    of [s] closes an open one and none is left open at the end. *)
Fixpoint balancedFrom (d : nat) (s : jsstring) : bool :=
  match s with
  | [] => d =? 0
  | ch :: s' =>
      if Ascii.eqb ch "[" then balancedFrom (S d) s'
      else if Ascii.eqb ch "]" then
        match d with O => false | S d' => balancedFrom d' s' end
      else balancedFrom d s'
  end.

(** The inside of a bracketed segment [[ ... ]]. *)
Definition balanced (s : jsstring) : bool := balancedFrom 0 s.

(** Every opening bracket of the input has its closing bracket: the
    depth the tokenizer keeps is back to zero at the end. *)
Definition bracketsClosed (input : jsstring) : bool :=
  depth (scan splitInit input) =? 0.

(** [solid d t = Some d']: read from depth [d], [t] has no white space
    at depth zero, and leaves the depth at [d']. *)
Fixpoint solid (d : nat) (t : jsstring) : option nat :=
  match t with
  | [] => Some d
  | ch :: t' =>
      let d' := nextDepth d ch in
      if isWhiteSpace ch && (d' =? 0) then None else solid d' t'
  end.

(** A token that stands on its own: not empty, no separator inside, and
    every bracket it opens closed again. *)
Definition wellFormedToken (t : jsstring) : Prop := t <> [] /\ solid 0 t = Some 0.

(** ** The variant pattern *)

(** [baseList] of [makeVariantRegex]. *)
Definition baseListOf (variants : option (list jsstring)) : list jsstring :=
  match variants with
  | Some (v :: vs) => v :: vs
  | _ => DEFAULT_VARIANTS
  end.

(** The text handed to [new RegExp] by [makeVariantRegex]. *)
Definition variantSource (baseList : list jsstring) : jsstring :=
  "^(?:" ++ ("\[[^\]]+\]" ++ "|(?:" ++ join "|" (map escapeRegex baseList) ++ ")") ++ "):".

(** The pattern of the literal text [v]. *)
Definition litR (v : jsstring) : regex := seqOf (map RChar v).

(** The pattern of [\[[^\]]+\]]. *)
Definition arbR : regex :=
  RSeq (RChar "[")
    (RSeq (RSeq (RSet true ["]"%char]) (RStar (RSet true ["]"%char]))) (RChar "]")).

(** What [variantSource baseList] compiles to. *)
Definition variantProgram (baseList : list jsstring) : regex :=
  RSeq RBol (RSeq (RAlt arbR (altOf (map litR baseList))) (RChar ":")).

Definition variantRegExp (variants : option (list jsstring)) : RegExp :=
  {| source := variantSource (baseListOf variants);
     ignoreCase := true;
     program := variantProgram (baseListOf variants) |}.

(** A parser state between two terms. *)
Definition pnormal (a : list regex) (ts : list (regex * qtag))
    (stk : list (gkind * level)) : pstate :=
  {| mode := PNormal; top := {| alts := a; terms := ts |}; stack := stk |}.

Definition atomOf (c : ascii) : regex * qtag := (RChar c, QAtom).

(** The continuation [k] succeeds with [res] at a position of [s] at or
    after [i]. *)
Definition advances (s : jsstring) (i : nat)
    (k : nat -> jsstring -> option nat) (res : nat) : Prop :=
  exists pre s', s = pre ++ s' /\ k (i + List.length pre) s' = Some res.

(** ** Order inside a bucket *)

(** [cmp] does not put [y] before [x]. *)
Definition cmpLe {A : Type} (cmp : A -> A -> Z) (x y : A) : Prop := (cmp x y <= 0)%Z.

(** Index of the first occurrence of [t] in [l]. *)
Fixpoint firstIndex (l : list jsstring) (t : jsstring) : nat :=
  match l with
  | [] => 0
  | x :: l' => if jsstring_eqb x t then 0 else S (firstIndex l' t)
  end.

(** What [stripVariantsWith] returns for [t] under the variants of [tw]. *)
Definition strippedOf (tw : option Tailwind) (t : jsstring) : Stripped :=
  match stripVariantsWith (variantRegExp (tw_variants tw)) t with
  | Ok sv => sv
  | _ => {| s_variant := []; s_base := t; s_variants := [] |}
  end.

(** [sVar] and [sBase] of the parsed item of [t]. *)
Definition variantScoreOf (tw : option Tailwind) (t : jsstring) : Z :=
  variantPriorityScore (s_variants (strippedOf tw t)) (tw_variants tw).

Definition baseScoreOf (tw : option Tailwind) (t : jsstring) : Z :=
  baseScore (s_base (strippedOf tw t)).

(** The comparator of the sort, on the three numbers it reads. *)
Definition compareKeys (a b : Z * Z * Z) : Z :=
  let '(a1, a2, a3) := a in
  let '(b1, b2, b3) := b in
  if negb (a1 - b1 =? 0)%Z then (a1 - b1)%Z
  else if negb (a2 - b2 =? 0)%Z then (a2 - b2)%Z else (a3 - b3)%Z.

Definition parsedKey (p : Parsed) : Z * Z * Z := (p_sVar p, p_sBase p, p_idx p).

(** The key under which [formatClasses] sorts the token [t] of the token
    list [tokens]: the index is that of the first occurrence of [t]. *)
Definition tokenKey (tw : option Tailwind) (tokens : list jsstring) (t : jsstring) : Z * Z * Z :=
  (variantScoreOf tw t, baseScoreOf tw t, Z.of_nat (firstIndex tokens t)).

Definition compareTokens (tw : option Tailwind) (tokens : list jsstring)
    (t t' : jsstring) : Z :=
  compareKeys (tokenKey tw tokens t) (tokenKey tw tokens t').

(** [parsed.find((p) => p.token === t)!] for a token that has an item. *)
Definition itemOf (ps : list Parsed) (t : jsstring) : Parsed :=
  match find (fun p => jsstring_eqb (p_token p) t) ps with
  | Some p => p
  | None => {| p_token := t; p_base := t; p_variants := []; p_group := misc;
               p_idx := 0%Z; p_sBase := 0%Z; p_sVar := 0%Z |}
  end.

(** The bucket of [k] for the token list [T], after the sort. *)
Definition bucketOf (tw : option Tailwind) (T : list jsstring) (k : GroupKey)
    : list jsstring :=
  sort (compareTokens tw T) (filter (inGroup tw k) T).

(** ** Vocabulary of the further properties *)

(** [opts] with [splitPerGroup] set to [b]. *)
Definition withSplit (b : option bool) (opts : FormatOptions) : FormatOptions :=
  {| groupOrder := groupOrder opts; splitPerGroup := b;
     strictTailwindOrder := strictTailwindOrder opts; tailwind := tailwind opts |}.

(** ** Literal text under the matcher *)

(** [s] starts with the text [lit], read with or without the [i] flag. *)
Fixpoint matchesLit (ic : bool) (lit s : jsstring) : bool :=
  match lit, s with
  | [], _ => true
  | a :: lit', ch :: s' => charMatches ic a ch && matchesLit ic lit' s'
  | _ :: _, [] => false
  end.

(** [a] and [b] are the same text up to the case of their letters. *)
Fixpoint equalsIgnoreCase (a b : jsstring) : bool :=
  match a, b with
  | [], [] => true
  | x :: a', y :: b' => charMatches true x y && equalsIgnoreCase a' b'
  | _, _ => false
  end.

(** An arbitrary variant [[...]]: a bracket pair around a non-empty body
    that has no closing bracket. *)
Definition isArbitraryVariant (label : jsstring) : Prop :=
  exists body, label = "["%char :: body ++ ["]"%char] /\ body <> [] /\ ~ In "]"%char body.

(** The text of a variant chain: every label followed by a colon. *)
Definition chainOf (labels : list jsstring) : jsstring :=
  List.concat (map (fun l => l ++ [":"%char]) labels).

(** ** The pattern of a rule under a prefix *)

(** The pattern has no [^]. *)
Fixpoint bolFree (r : regex) : bool :=
  match r with
  | RBol => false
  | RSeq r1 r2 | RAlt r1 r2 => bolFree r1 && bolFree r2
  | RStar r' | ROpt r' | RLook _ r' => bolFree r'
  | _ => true
  end.

(** The parser state [st] with the terms [extra] read before everything
    else at the outermost level. *)
Definition underTerms (extra : list (regex * qtag)) (lv : level) : level :=
  {| alts := alts lv; terms := terms lv ++ extra |}.

Fixpoint underStack (extra : list (regex * qtag)) (stk : list (gkind * level))
    : list (gkind * level) :=
  match stk with
  | [] => []
  | [(g, lv)] => [(g, underTerms extra lv)]
  | x :: stk' => x :: underStack extra stk'
  end.

Definition under (extra : list (regex * qtag)) (st : pstate) : pstate :=
  match stack st with
  | [] => {| mode := mode st; top := underTerms extra (top st); stack := [] |}
  | _ :: _ => {| mode := mode st; top := top st; stack := underStack extra (stack st) |}
  end.

(** Reading [ch] in [st] does not look at the earlier terms of the
    outermost level: outside every group, [ch] is no [|] and no quantifier. *)
Definition outerSafe (st : pstate) (ch : ascii) : bool :=
  match stack st, mode st with
  | [], PNormal =>
      negb (existsb (Ascii.eqb ch) ["|"%char; "*"%char; "+"%char; "?"%char])
  | _, _ => true
  end.

Fixpoint safeRun (st : pstate) (src : jsstring) : bool :=
  match src with
  | [] => true
  | ch :: src' => outerSafe st ch && safeRun (pstep st ch) src'
  end.

(** The text of the nine rules of [classifyWithConfig]. *)
Definition RULE_SOURCES : list (jsstring * GroupKey) :=
  map (fun rg => (source (fst rg), snd rg)) RULES.

(** The pattern [^G] of a rule, as [G]; [None] for a text of another shape. *)
Definition ruleBody (src : jsstring) : option regex :=
  match src with
  | ch :: rest =>
      if Ascii.eqb ch "^" && safeRun pinit rest then
        match fold_left pstep rest pinit with
        | {| mode := PNormal;
             top := {| alts := []; terms := [(G, QAtom)] |};
             stack := [] |} => if bolFree G then Some G else None
        | _ => None
        end
      else None
  | [] => None
  end.

(** The rules as [classifyWithConfig] reads them without a prefix: the
    first pattern [^G] whose [G] matches at the start decides. *)
Fixpoint firstBody (base : jsstring) (bodies : list (option regex * GroupKey)) : GroupKey :=
  match bodies with
  | [] => misc
  | (Some G, g) :: bodies' =>
      match exec false G 0 base (fun j _ => Some j) with
      | Some _ => g
      | None => firstBody base bodies'
      end
  | (None, _) :: bodies' => firstBody base bodies'
  end.

Definition RULE_BODIES : list (option regex * GroupKey) :=
  map (fun sg => (ruleBody (fst sg), snd sg)) RULE_SOURCES.

(** The alternatives of the rules that are plain text, each with the
    group of its rule; [shadow-] stands in the rule of [colors], which is
    read before the rule of [effects]. *)
Definition LITERAL_PREFIXES : list (jsstring * GroupKey) :=
  map (fun lg => (list_ascii_of_string (fst lg), snd lg))
    [ ("container", layout); ("block", layout); ("inline", layout); ("flex", layout);
      ("grid", layout); ("table", layout); ("flow-", layout); ("contents", layout);
      ("col-", layout); ("row-", layout); ("justify-", layout); ("items-", layout);
      ("content-", layout); ("place-", layout); ("order-", layout); ("gap-", layout);
      ("space-x-", spacing); ("space-y-", spacing);
      ("w-", sizing); ("h-", sizing); ("min-w-", sizing); ("max-w-", sizing);
      ("min-h-", sizing); ("max-h-", sizing); ("aspect-", sizing);
      ("font-", typography); ("text-xs", typography); ("text-sm", typography);
      ("text-base", typography); ("text-lg", typography); ("text-xl", typography);
      ("text-[", typography); ("leading-", typography); ("tracking-", typography);
      ("list-", typography); ("truncate", typography); ("line-clamp-", typography);
      ("bg-", colors); ("from-", colors); ("via-", colors); ("to-", colors);
      ("decoration-", colors); ("underline", colors); ("ring-", colors);
      ("shadow-", colors); ("opacity-", colors);
      ("border", borders); ("rounded", borders); ("divide-", borders); ("outline", borders);
      ("blur", effects); ("backdrop-", effects); ("transform", effects); ("scale-", effects);
      ("rotate-", effects); ("translate-", effects); ("skew-", effects);
      ("cursor-", interactivity); ("select-", interactivity);
      ("pointer-events-", interactivity); ("accent-", interactivity);
      ("appearance-", interactivity); ("scroll-", interactivity);
      ("transition", interactivity); ("duration-", interactivity);
      ("ease-", interactivity); ("animate-", interactivity);
      ("sr-only", accessibility); ("not-sr-only", accessibility);
      ("aria-", accessibility); ("data-", accessibility) ].

(** * cli.ts: the handlers of the codemod *)

(** The nodes the handlers tell apart.  A template literal carries the
    cooked text of its quasis ([None] where there is none) and its
    expressions; [OtherNode] is any node that is neither. *)
#[warnings="-register-all"] Inductive Node : Type :=
| StringLiteral (value : jsstring)
| TemplateLiteral (quasis : list (option jsstring)) (expressions : list Node)
| OtherNode (id : nat).

(** The callee of a call: an identifier, a member expression (with the
    name of its property when that is an identifier), or anything else. *)
Inductive Callee : Type :=
| CalleeIdentifier (name : jsstring)
| CalleeMember (property : option jsstring)
| CalleeOther.

(** An expression in a JSX expression container: a call, or a node as above. *)
Inductive Expression : Type :=
| ExprNode (node : Node)
| ExprCall (callee : Callee) (arguments : list Node).

(** The value of a JSX attribute: a string literal, an expression
    container, or anything else (an element, nothing). *)
Inductive JSXValue : Type :=
| JSXString (value : jsstring)
| JSXExpressionContainer (expression : Expression)
| JSXOtherValue.

(** [["cn", "clsx", "cx", "classnames", "classNames"]], the list of
    [isCnCall] and the [candidates] of the [JSXAttribute] visitor. *)
Definition HELPERS : list jsstring := strs ["cn"; "clsx"; "cx"; "classnames"; "classNames"].

(** [Array.prototype.includes] on an array of strings. *)
Definition includes (l : list jsstring) (v : jsstring) : bool := existsb (jsstring_eqb v) l.

Definition isCnCall (callee : Callee) : bool :=
  match callee with
  | CalleeIdentifier name => includes HELPERS name
  | CalleeMember (Some name) => includes HELPERS name
  | _ => false
  end.

(** [q.value.cooked || ""] *)
Definition cookedOrEmpty (q : option jsstring) : jsstring :=
  match q with
  | Some c => if truthy c then c else []
  | None => []
  end.

(** [null] is [None]. *)
Definition getStaticStringArg (node : Node) : option jsstring :=
  match node with
  | StringLiteral value => Some value
  | TemplateLiteral quasis expressions =>
      if List.length expressions =? 0 then Some (join [] (map cookedOrEmpty quasis))
      else None
  | OtherNode _ => None
  end.

(** [getStaticStringArg(a) !== null] *)
Definition isStatic (node : Node) : bool :=
  match getStaticStringArg node with Some _ => true | None => false end.

(** [args.map((a, i) => getStaticStringArg(a) !== null ? i : -1)], from index [i]. *)
Fixpoint staticIndexOrMinusOne (i : Z) (args : list Node) : list Z :=
  match args with
  | [] => []
  | a :: args' => (if isStatic a then i else (-1)%Z) :: staticIndexOrMinusOne (i + 1)%Z args'
  end.

Definition stringLiteralIndices (args : list Node) : list Z :=
  filter (fun i => (0 <=? i)%Z) (staticIndexOrMinusOne 0%Z args).

(** [args[i]]; [undefined] is [None]. *)
Definition argAt (args : list Node) (i : Z) : option Node :=
  if (i <? 0)%Z then None else nth_error args (Z.to_nat i).

(** [getStaticStringArg(args[i])] *)
Definition staticAt (args : list Node) (i : Z) : option jsstring :=
  match argAt args i with
  | Some a => getStaticStringArg a
  | None => None
  end.

(** An element of an array that is joined: [null] prints as the empty string. *)
Definition joined (s : option jsstring) : jsstring :=
  match s with Some s => s | None => [] end.

(** [a === b] for a string [a] and a [b] that is a string or [null]. *)
Definition strictEq (a : jsstring) (b : option jsstring) : bool :=
  match b with Some b => jsstring_eqb a b | None => false end.

(** [formatClasses(input, { splitPerGroup: true })], whose result is an
    array; a string in its place has no [map]. *)
Definition formatGroups (input : jsstring) : outcome (list jsstring) :=
  r <- formatClasses input (withSplit (Some true) noOptions) ;;
  match r with
  | Chunks groups => Ok groups
  | Flat _ => Throws TypeError
  end.

(** [formatClasses(raw)], whose result is a string. *)
Definition formatFlat (raw : jsstring) : outcome jsstring :=
  r <- formatClasses raw noOptions ;;
  match r with
  | Flat pretty => Ok pretty
  | Chunks _ => Throws TypeError
  end.

(** The three loops that fill [newArgs]: the arguments before the first
    static one, the grouped nodes, and the arguments after it that are
    not static. *)
Definition regroup (args : list Node) (firstIndex : Z) (groups : list jsstring) : list Node :=
  firstn (Z.to_nat firstIndex) args
  ++ map StringLiteral groups
  ++ filter (fun a => negb (isStatic a)) (skipn (Z.to_nat firstIndex + 1) args).

(** What a handler leaves: the part of the tree it was given, as it is
    afterwards, and whether it set [mutated]. *)
Record Handled (A : Type) : Type := { after : A; mutated : bool }.

Arguments after {A} _.
Arguments mutated {A} _.

Definition untouched {A : Type} (a : A) : Handled A := {| after := a; mutated := false |}.

(** The [CallExpression] visitor, on the callee and the arguments of the
    call.  The messages of the debug mode are left out. *)
Definition onCallExpression (USE_CN : bool) (callee : Callee) (args : list Node)
    : outcome (Handled (list Node)) :=
  if negb (isCnCall callee) then Ok (untouched args)
  else if USE_CN then
    let indices := stringLiteralIndices args in
    if 0 <? List.length indices then
      let combined := join " " (map (fun i => joined (staticAt args i)) indices) in
      groups <- formatGroups combined ;;
      if 0 <? List.length groups then
        let firstIndex := hd 0%Z indices in
        let newArgs := regroup args firstIndex groups in
        let originalSingle := List.length indices =? 1 in
        let originalCombinedValue := staticAt args firstIndex in
        let originalCombinedEqualsSingle :=
          originalSingle && (List.length groups =? 1)
          && strictEq (hd [] groups) originalCombinedValue in
        if negb originalCombinedEqualsSingle || (1 <? List.length groups) || negb originalSingle
        then Ok {| after := newArgs; mutated := true |}
        else Ok (untouched args)
      else Ok (untouched args)
    else Ok (untouched args)
  else
    match args with
    | [a] =>
        match getStaticStringArg a with
        | Some raw =>
            pretty <- formatFlat raw ;;
            if negb (jsstring_eqb pretty raw)
            then Ok {| after := [StringLiteral pretty]; mutated := true |}
            else Ok (untouched args)
        | None => Ok (untouched args)
        end
    | _ => Ok (untouched args)
    end.

(** [node.name.name === "className" || node.name.name === "class"]; the
    name of a namespaced attribute is no string. *)
Definition isClassAttr (name : option jsstring) : bool :=
  match name with
  | Some n => jsstring_eqb n "className" || jsstring_eqb n "class"
  | None => false
  end.

Definition getLiteralString (value : JSXValue) : option jsstring :=
  match value with
  | JSXString v => Some v
  | JSXExpressionContainer (ExprNode (StringLiteral v)) => Some v
  | _ => None
  end.

Definition setLiteralString (value : JSXValue) (v : jsstring) : JSXValue :=
  match value with
  | JSXString _ => JSXString v
  | JSXExpressionContainer (ExprNode (StringLiteral _)) =>
      JSXExpressionContainer (ExprNode (StringLiteral v))
  | _ => value
  end.

(** What the [JSXAttribute] visitor reads beside the attribute:
    [path.scope.hasBinding], and whether the program already imports
    from ["classnames"]. *)
Record Surroundings : Type := {
  hasBinding : jsstring -> bool;
  alreadyHasClassNames : bool
}.

(** What the [JSXAttribute] visitor leaves: the value of the attribute,
    whether [mutated] was set, and whether
    [import classNames from "classnames"] was put in front of the program. *)
Record AttributeHandled : Type := {
  valueAfter : JSXValue;
  attrMutated : bool;
  importInserted : bool
}.

Definition attributeUntouched (value : JSXValue) : AttributeHandled :=
  {| valueAfter := value; attrMutated := false; importInserted := false |}.

(** The end of the [JSXAttribute] visitor: [formatClasses(raw)], and the
    literal is set when the result differs. *)
Definition sortAttribute (value : JSXValue) (raw : jsstring) (inserted : bool)
    : outcome AttributeHandled :=
  pretty <- formatFlat raw ;;
  if negb (jsstring_eqb pretty raw)
  then Ok {| valueAfter := setLiteralString value pretty;
             attrMutated := true; importInserted := inserted |}
  else Ok {| valueAfter := value; attrMutated := false; importInserted := inserted |}.

(** The [JSXAttribute] visitor, on the name and the value of the
    attribute.  The messages of the debug mode are left out. *)
Definition onJSXAttribute (USE_CN : bool) (env : Surroundings)
    (name : option jsstring) (value : JSXValue) : outcome AttributeHandled :=
  if negb (isClassAttr name) then Ok (attributeUntouched value)
  else
    match getLiteralString value with
    | None => Ok (attributeUntouched value)
    | Some raw =>
        if negb (truthy raw) then Ok (attributeUntouched value)
        else if USE_CN then
          let found := find (hasBinding env) HELPERS in
          groups <- formatGroups raw ;;
          let missing := match found with Some _ => false | None => 0 <? List.length groups end in
          let inserted := missing && negb (alreadyHasClassNames env) in
          let helper : option jsstring :=
            if missing then Some ("classNames" : jsstring) else found in
          match helper with
          | Some h =>
              if 0 <? List.length groups then
                Ok {| valueAfter :=
                        JSXExpressionContainer
                          (ExprCall (CalleeIdentifier h) (map StringLiteral groups));
                      attrMutated := true; importInserted := inserted |}
              else sortAttribute value raw inserted
          | None => sortAttribute value raw inserted
          end
        else sortAttribute value raw false
    end.

(** The texts of the static arguments, and the arguments that are not static. *)
Definition staticValues (args : list Node) : list jsstring :=
  flat_map (fun a => match getStaticStringArg a with Some s => [s] | None => [] end) args.

Definition dynamicArgs (args : list Node) : list Node :=
  filter (fun a => negb (isStatic a)) args.

(** The arguments in front of the first static one. *)
Fixpoint dynamicPrefix (args : list Node) : list Node :=
  match args with
  | [] => []
  | a :: args' => if isStatic a then [] else a :: dynamicPrefix args'
  end.

(** * Properties *)

(** ** Scenarios of the test suite *)

Example scenario1 :
  formatClasses "text-red-500 p-4 flex md:hover:bg-blue-500 rounded-lg items-center" noOptions
  = Ok (Flat "flex items-center p-4 text-red-500 md:hover:bg-blue-500 rounded-lg").
Proof. vm_compute. reflexivity. Qed.

Example scenario2 :
  formatClasses "bg-[color:var(--x)] p-2" noOptions = Ok (Flat "p-2 bg-[color:var(--x)]").
Proof. vm_compute. reflexivity. Qed.

Example scenario3 :
  formatClasses "flex p-2 text-red-500 rounded"
    {| groupOrder := None; splitPerGroup := Some true;
       strictTailwindOrder := None; tailwind := None |}
  = Ok (Chunks (strs ["flex"; "p-2"; "text-red-500"; "rounded"])).
Proof. vm_compute. reflexivity. Qed.

Example scenario4 :
  formatClasses "tw-flex tw-p-4 tw-text-red-500"
    {| groupOrder := None; splitPerGroup := None; strictTailwindOrder := None;
       tailwind := Some {| prefix := Some ("tw-" : jsstring); variants := None;
                           customUtilities := None |} |}
  = Ok (Flat "tw-flex tw-p-4 tw-text-red-500").
Proof. vm_compute. reflexivity. Qed.

Example scenario5 :
  formatClasses "hover:bg-blue-500 sm:bg-red-500"
    {| groupOrder := None; splitPerGroup := None; strictTailwindOrder := None;
       tailwind := Some {| prefix := None;
                           variants := Some (strs ["sm"; "md"; "lg"; "hover"]);
                           customUtilities := None |} |}
  = Ok (Flat "sm:bg-red-500 hover:bg-blue-500").
Proof. vm_compute. reflexivity. Qed.

Example scenario6 :
  tokenize "bg-[var(--c)] text-sm" = strs ["bg-[var(--c)]"; "text-sm"].
Proof. vm_compute. reflexivity. Qed.

Example test_variant_chain :
  formatClasses "hover:text-white sm:p-2 md:p-4" noOptions
  = Ok (Flat "sm:p-2 md:p-4 hover:text-white").
Proof. vm_compute. reflexivity. Qed.

Example test_categorize :
  categorize "flex p-2 text-red-500" noOptions
  = Ok [ (layout, strs ["flex"]); (spacing, strs ["p-2"]); (sizing, []);
         (typography, []); (colors, strs ["text-red-500"]); (borders, []);
         (effects, []); (interactivity, []); (accessibility, []); (misc, []) ].
Proof. vm_compute. reflexivity. Qed.

(** ** Tokenizer *)

Lemma nextDepth_spec d ch :
  (if Ascii.eqb ch "]" && (0 <? (if Ascii.eqb ch "[" then S d else d))
   then (if Ascii.eqb ch "[" then S d else d) - 1
   else (if Ascii.eqb ch "[" then S d else d))
  = nextDepth d ch.
Proof.
  unfold nextDepth.
  destruct (Ascii.eqb ch "[") eqn:E1.
  - apply Ascii.eqb_eq in E1; subst ch. reflexivity.
  - destruct (Ascii.eqb ch "]") eqn:E2; [|reflexivity].
    destruct d as [|d]; reflexivity.
Qed.

Lemma splitStep_cases st ch :
  splitStep st ch =
  if isWhiteSpace ch && (nextDepth (depth st) ch =? 0) then
    {| out := if truthy (cur st) then out st ++ [cur st] else out st;
       cur := []; depth := nextDepth (depth st) ch |}
  else {| out := out st; cur := cur st ++ [ch]; depth := nextDepth (depth st) ch |}.
Proof.
  unfold splitStep. cbv zeta. rewrite (nextDepth_spec (depth st) ch). reflexivity.
Qed.

Lemma splitStep_depth st ch : depth (splitStep st ch) = nextDepth (depth st) ch.
Proof.
  rewrite splitStep_cases.
  now destruct (isWhiteSpace ch && (nextDepth (depth st) ch =? 0)).
Qed.

Lemma scan_app st a b : scan st (a ++ b) = scan (scan st a) b.
Proof. unfold scan. apply fold_left_app. Qed.

Lemma scan_solid t : forall st d',
  solid (depth st) t = Some d' ->
  scan st t = {| out := out st; cur := cur st ++ t; depth := d' |}.
Proof.
  induction t as [|ch t IH]; intros st d' H; simpl in *.
  - injection H as <-. rewrite app_nil_r. now destruct st.
  - destruct (isWhiteSpace ch && (nextDepth (depth st) ch =? 0)) eqn:E; [discriminate|].
    unfold scan in *. simpl. rewrite splitStep_cases, E.
    rewrite (IH _ d'); simpl; [|exact H].
    now rewrite <- app_assoc.
Qed.

Lemma solid_app a : forall b d d1,
  solid d a = Some d1 -> solid d (a ++ b) = solid d1 b.
Proof.
  induction a as [|ch a IH]; intros b d d1 H; simpl in *.
  - now injection H as <-.
  - destruct (isWhiteSpace ch && (nextDepth d ch =? 0)); [discriminate|].
    now apply IH.
Qed.

Lemma scan_invariant s : forall st,
  Forall wellFormedToken (out st) ->
  solid 0 (cur st) = Some (depth st) ->
  Forall wellFormedToken (out (scan st s)) /\
  solid 0 (cur (scan st s)) = Some (depth (scan st s)).
Proof.
  induction s as [|ch s IH]; intros st Ho Hc; [now split|].
  unfold scan in *. simpl. apply IH; rewrite splitStep_cases;
  destruct (isWhiteSpace ch && (nextDepth (depth st) ch =? 0)) eqn:E; simpl; auto.
  - apply andb_true_iff in E as [Hw Hd]. apply Nat.eqb_eq in Hd.
    assert (Hsame : nextDepth (depth st) ch = depth st).
    { unfold nextDepth. destruct (Ascii.eqb ch "[") eqn:E1.
      - apply Ascii.eqb_eq in E1; subst. discriminate.
      - destruct (Ascii.eqb ch "]") eqn:E2; [|reflexivity].
        apply Ascii.eqb_eq in E2; subst. discriminate. }
    destruct (cur st) as [|c0 cs] eqn:Ec; simpl; [assumption|].
    apply Forall_app; split; [assumption|].
    constructor; [|constructor]. split; [discriminate|].
    rewrite Hc. f_equal. lia.
  - apply andb_true_iff in E as [Hw Hd]. apply Nat.eqb_eq in Hd. now rewrite Hd.
  - rewrite (solid_app _ _ _ _ Hc). simpl. now rewrite E.
Qed.

Lemma splitTokens_wellFormed input :
  bracketsClosed input = true -> Forall wellFormedToken (splitTokens input).
Proof.
  unfold bracketsClosed, splitTokens. intros Hd. apply Nat.eqb_eq in Hd.
  fold (scan splitInit input).
  destruct (scan_invariant input splitInit) as [Ho Hc]; [constructor|reflexivity|].
  rewrite Hd in Hc.
  apply Forall_forall. intros t Ht. apply filter_In in Ht as [Ht _].
  destruct (cur (scan splitInit input)) as [|c0 cs] eqn:Ec; simpl in Ht.
  - rewrite Forall_forall in Ho. now apply Ho.
  - apply in_app_or in Ht as [Ht|[<-|[]]].
    + rewrite Forall_forall in Ho. now apply Ho.
    + split; [discriminate|assumption].
Qed.

Lemma filter_truthy_id ts : Forall wellFormedToken ts -> filter truthy ts = ts.
Proof.
  induction 1 as [|t ts [Hne _] _ IH]; [reflexivity|].
  simpl. destruct t; [contradiction|]. simpl. now rewrite IH.
Qed.

Lemma scan_join ts : forall st,
  Forall wellFormedToken ts -> ts <> [] ->
  depth st = 0 -> cur st = [] ->
  scan st (join " " ts) =
  {| out := out st ++ removelast ts; cur := last ts []; depth := 0 |}.
Proof.
  induction ts as [|t ts IH]; intros st Hwf Hne Hd Hc; [contradiction|].
  inversion Hwf as [|? ? [Htne Hts] Hwf']; subst.
  destruct ts as [|t2 ts].
  - simpl. rewrite (scan_solid t st 0); [|now rewrite Hd].
    now rewrite Hc, app_nil_r.
  - change (join " " (t :: t2 :: ts)) with (t ++ " "%char :: join " " (t2 :: ts)).
    rewrite scan_app, (scan_solid t st 0); [|now rewrite Hd].
    change (scan ?s (?c :: ?r)) with (scan (splitStep s c) r).
    rewrite splitStep_cases. simpl depth. simpl cur. simpl out. rewrite Hc.
    change (isWhiteSpace " " && (nextDepth 0 " " =? 0)) with true. cbv iota.
    simpl app at 1.
    destruct t as [|c0 t]; [contradiction|]. simpl truthy. cbv iota.
    rewrite IH; [|assumption|discriminate|reflexivity|reflexivity].
    simpl out. rewrite <- app_assoc. reflexivity.
Qed.

Lemma retokenize ts :
  Forall wellFormedToken ts -> splitTokens (join " " ts) = ts.
Proof.
  intros Hwf. destruct ts as [|t ts]; [reflexivity|].
  unfold splitTokens. fold (scan splitInit (join " " (t :: ts))).
  rewrite scan_join; [|assumption|discriminate|reflexivity|reflexivity].
  cbn [out cur depth splitInit].
  assert (Hlast : wellFormedToken (last (t :: ts) [])).
  { rewrite Forall_forall in Hwf. apply Hwf.
    destruct (exists_last (l := t :: ts)) as [l' [a E]]; [discriminate|].
    rewrite E, last_last. apply in_or_app. right. now left. }
  assert (Ht : truthy (last (t :: ts) []) = true).
  { destruct (last (t :: ts) []); [now destruct Hlast|reflexivity]. }
  rewrite Ht. change ([] ++ removelast (t :: ts)) with (removelast (t :: ts)).
  rewrite <- app_removelast_last; [|discriminate].
  now apply filter_truthy_id.
Qed.

Lemma wellFormed_head t : wellFormedToken t ->
  exists ch t', t = ch :: t' /\ isWhiteSpace ch = false.
Proof.
  intros [Hne Hs]. destruct t as [|ch t']; [contradiction|].
  exists ch, t'. split; [reflexivity|].
  simpl in Hs. destruct (isWhiteSpace ch) eqn:Hw; [|reflexivity].
  assert (nextDepth 0 ch = 0).
  { unfold nextDepth. destruct (Ascii.eqb ch "[") eqn:E1.
    - apply Ascii.eqb_eq in E1; subst; discriminate.
    - now destruct (Ascii.eqb ch "]"). }
  rewrite H in Hs. discriminate.
Qed.

Lemma solid_prefix a : forall b n m,
  solid n (a ++ b) = Some m -> exists d, solid n a = Some d.
Proof.
  induction a as [|c a IH]; intros b n m H; cbn [solid app] in *; [eauto|].
  destruct (isWhiteSpace c && (nextDepth n c =? 0)); [discriminate|].
  eapply IH; eassumption.
Qed.

Lemma wellFormed_last t : wellFormedToken t ->
  exists t' ch, t = t' ++ [ch] /\ isWhiteSpace ch = false.
Proof.
  intros [Hne Hs].
  destruct (exists_last Hne) as [t' [ch E]]. subst t.
  exists t', ch. split; [reflexivity|].
  destruct (solid_prefix _ _ _ _ Hs) as [d Hd].
  rewrite (solid_app _ _ _ _ Hd) in Hs. cbn [solid] in Hs.
  destruct (isWhiteSpace ch) eqn:Hw; [|reflexivity].
  cbn [andb] in Hs. destruct (nextDepth d ch =? 0) eqn:E; [discriminate|].
  injection Hs as Hs. rewrite Hs in E. discriminate.
Qed.

Lemma trimStart_id ch s : isWhiteSpace ch = false -> trimStart (ch :: s) = ch :: s.
Proof. intros H. simpl. now rewrite H. Qed.

Lemma trim_id s :
  (forall ch s', s = ch :: s' -> isWhiteSpace ch = false) ->
  (forall s' ch, s = s' ++ [ch] -> isWhiteSpace ch = false) ->
  trim s = s.
Proof.
  intros Hh Hl. unfold trim, trimEnd.
  destruct s as [|ch s']; [reflexivity|].
  rewrite trimStart_id by (now apply (Hh ch s')).
  destruct (exists_last (l := ch :: s')) as [l' [a E]]; [discriminate|].
  rewrite E, rev_app_distr. cbn [rev app].
  rewrite trimStart_id by (now apply (Hl l' a)).
  change (a :: rev l') with (rev [a] ++ rev l').
  now rewrite <- rev_app_distr, rev_involutive.
Qed.

Lemma join_head sep t ts : exists r, join sep (t :: ts) = t ++ r.
Proof.
  destruct ts; simpl; [exists []; now rewrite app_nil_r|eauto].
Qed.

Lemma join_last sep ts : ts <> [] -> exists r, join sep ts = r ++ last ts [].
Proof.
  induction ts as [|t ts IH]; intros Hne; [contradiction|].
  destruct ts as [|t2 ts]; [exists []; reflexivity|].
  destruct IH as [r Hr]; [discriminate|].
  exists (t ++ sep ++ r).
  change (join sep (t :: t2 :: ts)) with (t ++ sep ++ join sep (t2 :: ts)).
  rewrite Hr. change (last (t :: t2 :: ts) []) with (last (t2 :: ts) []).
  now rewrite <- !app_assoc.
Qed.

Lemma trim_join ts :
  Forall wellFormedToken ts -> trim (join " " ts) = join " " ts.
Proof.
  intros Hwf. destruct ts as [|t ts]; [reflexivity|].
  apply trim_id.
  - intros ch s' E.
    destruct (join_head " " t ts) as [r Hr]. rewrite Hr in E.
    inversion Hwf as [|? ? Ht _]; subst.
    destruct (wellFormed_head _ Ht) as [c [t' [-> Hc]]].
    simpl in E. now injection E as <- _.
  - intros s' ch E.
    destruct (join_last " " (t :: ts)) as [r Hr]; [discriminate|]. rewrite Hr in E.
    assert (Hlast : wellFormedToken (last (t :: ts) [])).
    { rewrite Forall_forall in Hwf. apply Hwf.
      destruct (exists_last (l := t :: ts)) as [l' [a E']]; [discriminate|].
      rewrite E', last_last. apply in_or_app. right. now left. }
    destruct (wellFormed_last _ Hlast) as [t' [c [Et Hc]]].
    rewrite Et, app_assoc in E. apply app_inj_tail in E as [_ <-]. exact Hc.
Qed.

Lemma splitTokens_scan input : splitTokens input = finish (scan splitInit input).
Proof. reflexivity. Qed.

Lemma scan_depth s : forall st, depth (scan st s) = fold_left nextDepth s (depth st).
Proof.
  induction s as [|ch s IH]; intros st; [reflexivity|].
  unfold scan in *. simpl. now rewrite IH, splitStep_depth.
Qed.

Lemma nextDepth_other d ch :
  Ascii.eqb ch "[" = false -> Ascii.eqb ch "]" = false -> nextDepth d ch = d.
Proof. intros H1 H2. unfold nextDepth. now rewrite H1, H2. Qed.

Lemma find_close rest : forall e D,
  fold_left nextDepth rest (S D + e) <= D ->
  exists body post, rest = body ++ "]"%char :: post /\ balancedFrom e body = true.
Proof.
  induction rest as [|ch rest IH]; intros e D H; simpl in H; [lia|].
  unfold nextDepth in H.
  destruct (Ascii.eqb ch "[") eqn:E1.
  - destruct (IH (S e) D) as [body [post [-> Hb]]].
    { now replace (S D + S e) with (S (S D + e)) by lia. }
    exists (ch :: body), post. split; [reflexivity|].
    simpl. now rewrite E1.
  - destruct (Ascii.eqb ch "]") eqn:E2.
    + apply Ascii.eqb_eq in E2. subst ch.
      destruct e as [|e].
      * exists [], rest. now split.
      * destruct (IH e D) as [body [post [-> Hb]]].
        { now replace (S D + e) with (S D + S e - 1) by lia. }
        exists ("]"%char :: body), post. now split.
    + destruct (IH e D H) as [body [post [-> Hb]]].
      exists (ch :: body), post. split; [reflexivity|].
      simpl. now rewrite E1, E2.
Qed.

Lemma scan_balanced body : forall e D st,
  balancedFrom e body = true -> depth st = S D + e ->
  scan st body = {| out := out st; cur := cur st ++ body; depth := S D |}.
Proof.
  induction body as [|ch body IH]; intros e D st Hb Hd; simpl in Hb.
  - apply Nat.eqb_eq in Hb. subst e. rewrite app_nil_r.
    destruct st; simpl in *. now rewrite Hd, Nat.add_0_r.
  - change (scan st (ch :: body)) with (scan (splitStep st ch) body).
    rewrite splitStep_cases.
    destruct (Ascii.eqb ch "[") eqn:E1; [|destruct (Ascii.eqb ch "]") eqn:E2].
    + assert (Hn : nextDepth (depth st) ch = S D + S e).
      { unfold nextDepth. rewrite E1. lia. }
      rewrite Hn. replace (S D + S e =? 0) with false by (symmetry; apply Nat.eqb_neq; lia).
      rewrite andb_false_r.
      rewrite (IH (S e) D); [|assumption|reflexivity].
      cbn [out cur]. now rewrite <- app_assoc.
    + destruct e as [|e]; [discriminate|].
      assert (Hn : nextDepth (depth st) ch = S D + e).
      { unfold nextDepth. rewrite E1, E2. lia. }
      rewrite Hn. replace (S D + e =? 0) with false by (symmetry; apply Nat.eqb_neq; lia).
      rewrite andb_false_r.
      rewrite (IH e D); [|assumption|reflexivity].
      cbn [out cur]. now rewrite <- app_assoc.
    + rewrite (nextDepth_other _ _ E1 E2), Hd.
      replace (S D + e =? 0) with false by (symmetry; apply Nat.eqb_neq; lia).
      rewrite andb_false_r.
      rewrite (IH e D); [|assumption|reflexivity].
      cbn [out cur]. now rewrite <- app_assoc.
Qed.

(** A bracketed segment goes into the pending token as one piece. *)
Lemma scan_segment body st :
  balanced body = true ->
  scan st ("["%char :: body ++ ["]"%char]) =
  {| out := out st; cur := cur st ++ "["%char :: body ++ ["]"%char]; depth := depth st |}.
Proof.
  intros Hb.
  change (scan st ("["%char :: body ++ ["]"%char]))
    with (scan (splitStep st "[") (body ++ ["]"%char])).
  rewrite scan_app, splitStep_cases.
  change (isWhiteSpace "[") with false. cbn [andb].
  rewrite (scan_balanced body 0 (depth st)); [|exact Hb|cbn [depth]; unfold nextDepth; simpl; lia].
  cbn [out cur].
  change (scan ?s ["]"%char]) with (splitStep s "]").
  rewrite splitStep_cases. change (isWhiteSpace "]") with false. cbn [andb out cur depth].
  unfold nextDepth. simpl Ascii.eqb. cbv iota.
  rewrite Nat.sub_succ, Nat.sub_0_r. now rewrite <- !app_assoc.
Qed.

Lemma finish_grows post : forall st,
  exists more, finish (scan st post) = filter truthy (out st) ++ more.
Proof.
  induction post as [|ch post IH]; intros st.
  - unfold finish, scan. simpl. destruct (truthy (cur st)).
    + rewrite filter_app. eauto.
    + exists []. now rewrite app_nil_r.
  - change (scan st (ch :: post)) with (scan (splitStep st ch) post).
    destruct (IH (splitStep st ch)) as [more Hm]. rewrite Hm.
    rewrite splitStep_cases.
    destruct (isWhiteSpace ch && (nextDepth (depth st) ch =? 0)); cbn [out]; [|eauto].
    destruct (truthy (cur st)); [|eauto].
    rewrite filter_app, <- app_assoc. eauto.
Qed.

Lemma finish_extends post : forall st,
  truthy (cur st) = true ->
  exists y later, finish (scan st post) = filter truthy (out st) ++ (cur st ++ y) :: later.
Proof.
  induction post as [|ch post IH]; intros st Hc.
  - exists [], []. unfold finish, scan. simpl. rewrite Hc, filter_app. simpl.
    now rewrite Hc, app_nil_r.
  - change (scan st (ch :: post)) with (scan (splitStep st ch) post).
    rewrite splitStep_cases.
    destruct (isWhiteSpace ch && (nextDepth (depth st) ch =? 0)).
    + match goal with |- context [scan ?s post] => destruct (finish_grows post s) as [more Hm] end.
      rewrite Hm. cbn [out]. rewrite Hc, filter_app. simpl. rewrite Hc.
      exists [], more. now rewrite <- app_assoc, app_nil_r.
    + match goal with |- context [scan ?s post] => destruct (IH s) as [y [later Hy]] end.
      { cbn [cur]. now destruct (cur st). }
      rewrite Hy. cbn [out cur]. exists (ch :: y), later.
      now rewrite <- app_assoc.
Qed.

(** C6, bracket atomicity.  In an input whose opening brackets are all
    closed, take any opening bracket: what follows it splits into a
    balanced [body], the matching closing bracket and a rest, and
    [tokenize] returns the tokens completed before that bracket followed
    by one token that carries the whole segment [[body]], white space
    included, after the characters pending before it.  No token ends
    between the two brackets. *)
Theorem bracket_atomicity (input : jsstring) :
  bracketsClosed input = true ->
  forall pre rest, input = pre ++ "["%char :: rest ->
  exists body post y later,
    rest = body ++ "]"%char :: post /\
    balanced body = true /\
    tokenize input =
      out (scan splitInit pre)
      ++ (cur (scan splitInit pre) ++ "["%char :: body ++ "]"%char :: y) :: later.
Proof.
  intros Hclosed pre rest ->.
  unfold bracketsClosed in Hclosed. apply Nat.eqb_eq in Hclosed.
  rewrite scan_app, scan_depth in Hclosed.
  set (st := scan splitInit pre) in *.
  simpl fold_left in Hclosed.
  destruct (find_close rest 0 (depth st)) as [body [post [-> Hb]]].
  { unfold nextDepth in Hclosed at 2. simpl in Hclosed. rewrite Nat.add_0_r. lia. }
  exists body, post.
  unfold tokenize. rewrite splitTokens_scan.
  replace (pre ++ "["%char :: body ++ "]"%char :: post)
    with (pre ++ ("["%char :: body ++ ["]"%char]) ++ post)
    by (simpl; now rewrite <- app_assoc).
  rewrite !scan_app. fold st. rewrite (scan_segment body st Hb).
  match goal with |- context [scan ?s post] => destruct (finish_extends post s) as [y [later Hy]] end.
  { cbn [cur]. now destruct (cur st). }
  exists y, later. split; [reflexivity|]. split; [exact Hb|].
  rewrite Hy. cbn [out cur].
  destruct (scan_invariant pre splitInit) as [Ho _]; [constructor|reflexivity|].
  fold st in Ho. rewrite (filter_truthy_id _ Ho).
  f_equal. f_equal. rewrite <- app_assoc. simpl. now rewrite <- app_assoc.
Qed.

(** ** The matcher hands its continuation a later position *)

Lemma advances_here s i k res : k i s = Some res -> advances s i k res.
Proof. intros H. exists [], s. split; [reflexivity|]. simpl. now rewrite Nat.add_0_r. Qed.

Lemma advances_char ch s i k res : k (S i) s = Some res -> advances (ch :: s) i k res.
Proof. intros H. exists [ch], s. split; [reflexivity|]. simpl. now rewrite Nat.add_1_r. Qed.

Lemma advances_trans s i k res (k' : nat -> jsstring -> option nat) :
  advances s i k' res ->
  (forall j s', k' j s' = Some res -> advances s' j k res) ->
  advances s i k res.
Proof.
  intros [pre [s' [-> H]]] Hk.
  destruct (Hk _ _ H) as [pre2 [s2 [-> H2]]].
  exists (pre ++ pre2), s2. split; [now rewrite app_assoc|].
  now rewrite length_app, Nat.add_assoc.
Qed.

Lemma exec_advances (ic : bool) (r : regex) : forall i s k res,
  exec ic r i s k = Some res -> advances s i k res.
Proof.
  induction r as [ | a | | neg ms | | | r1 IH1 r2 IH2 | r1 IH1 r2 IH2 | r IH | r IH | neg r IH];
    intros i s k res H; cbn [exec] in H.
  - now apply advances_here.
  - destruct s as [|ch s]; [discriminate|].
    destruct (charMatches ic a ch); [|discriminate]. now apply advances_char.
  - destruct s as [|ch s]; [discriminate|].
    destruct (isLineTerminator ch); [discriminate|]. now apply advances_char.
  - destruct s as [|ch s]; [discriminate|].
    destruct (setMatches ic neg ms ch); [|discriminate]. now apply advances_char.
  - destruct (i =? 0); [|discriminate]. now apply advances_here.
  - destruct s; [|discriminate]. now apply advances_here.
  - apply IH1 in H. eapply advances_trans; [exact H|]. intros j s'. apply IH2.
  - destruct (exec ic r1 i s k) eqn:E1.
    + injection H as <-. now apply IH1.
    + now apply IH2.
  - revert H. generalize (List.length s) as fuel. intros fuel. revert i s.
    induction fuel as [|fuel IHf]; intros i s H.
    + now apply advances_here.
    + match type of H with
      | match ?e with _ => _ end = _ => destruct e eqn:E
      end.
      * injection H as <-. apply IH in E.
        eapply advances_trans; [exact E|]. intros j s' Hj. cbv beta in Hj.
        destruct (i <? j); [|discriminate]. now apply IHf.
      * now apply advances_here.
  - match type of H with
    | match ?e with _ => _ end = _ => destruct e eqn:E
    end.
    + injection H as <-. apply IH in E.
      eapply advances_trans; [exact E|]. intros j s' Hj. cbv beta in Hj.
      destruct (i <? j); [|discriminate]. now apply advances_here.
    + now apply advances_here.
  - destruct (exec ic r i s (fun j _ => Some j)); destruct neg; try discriminate;
      now apply advances_here.
Qed.

(** ** The pattern of [makeVariantRegex] *)

Lemma pstep_plain a ts stk c :
  isRegexSpecial c = false -> pstep (pnormal a ts stk) c = pnormal a (atomOf c :: ts) stk.
Proof.
  intros H. unfold isRegexSpecial in H. cbn [existsb] in H.
  repeat match type of H with
         | (_ || _) = false => apply orb_false_elim in H as [? H]
         end.
  unfold pstep, pnormal. cbn [mode]. unfold stepNormal.
  repeat match goal with
         | E : Ascii.eqb c ?x = false |- context [Ascii.eqb c ?x] => rewrite E
         end.
  reflexivity.
Qed.

Lemma special_not_alnum c : isRegexSpecial c = true -> isAlnum c = false.
Proof.
  intros H. unfold isRegexSpecial in H. cbn [existsb] in H.
  repeat match type of H with
         | (_ || _) = true => apply orb_true_iff in H as [H|H]
         end;
  try discriminate; apply Ascii.eqb_eq in H; subst c; reflexivity.
Qed.

Lemma pstep_escaped a ts stk c :
  isRegexSpecial c = true ->
  pstep (pstep (pnormal a ts stk) "\") c = pnormal a (atomOf c :: ts) stk.
Proof.
  intros H. change (pstep (pnormal a ts stk) "\")
    with {| mode := PEscape; top := {| alts := a; terms := ts |}; stack := stk |}.
  unfold pstep. cbn [mode]. now rewrite (special_not_alnum c H).
Qed.

Lemma fold_escape v : forall a ts stk,
  fold_left pstep (escapeRegex v) (pnormal a ts stk)
  = pnormal a (rev (map atomOf v) ++ ts) stk.
Proof.
  induction v as [|c v IH]; intros a ts stk; [reflexivity|].
  cbn [escapeRegex]. destruct (isRegexSpecial c) eqn:E.
  - cbn [fold_left]. rewrite (pstep_escaped _ _ _ _ E), IH.
    cbn [map rev]. now rewrite <- app_assoc.
  - cbn [fold_left]. rewrite (pstep_plain _ _ _ _ E), IH.
    cbn [map rev]. now rewrite <- app_assoc.
Qed.

Lemma fst_atoms v : map fst (rev (map atomOf v)) = rev (map RChar v).
Proof.
  rewrite map_rev, map_map. reflexivity.
Qed.

Lemma fold_join l : forall v a stk,
  fold_left pstep (join "|" (map escapeRegex (v :: l))) (pnormal a [] stk)
  = pnormal (rev (map litR (removelast (v :: l))) ++ a)
            (rev (map atomOf (last (v :: l) []))) stk.
Proof.
  induction l as [|v2 l IH]; intros v a stk.
  - cbn [map join removelast last rev app]. rewrite fold_escape. now rewrite app_nil_r.
  - change (join "|" (map escapeRegex (v :: v2 :: l)))
      with (escapeRegex v ++ "|"%char :: join "|" (map escapeRegex (v2 :: l))).
    rewrite fold_left_app, fold_escape, app_nil_r. cbn [fold_left].
    change (pstep (pnormal a (rev (map atomOf v)) stk) "|")
      with (pnormal (seqOf (rev (map fst (rev (map atomOf v)))) :: a) [] stk).
    rewrite fst_atoms, rev_involutive. fold (litR v).
    rewrite IH.
    change (removelast (v :: v2 :: l)) with (v :: removelast (v2 :: l)).
    change (last (v :: v2 :: l) []) with (last (v2 :: l) []).
    cbn [map rev]. now rewrite <- app_assoc.
Qed.

Lemma pstep_close a ts outer stk :
  pstep (pnormal a ts ((GNonCapture, outer) :: stk)) ")"
  = pnormal (alts outer)
      ((closeLevel {| alts := a; terms := ts |}, QAtom) :: terms outer) stk.
Proof. reflexivity. Qed.

Lemma closeLevel_atoms a w :
  closeLevel {| alts := a; terms := rev (map atomOf w) |} = altOf (rev (litR w :: a)).
Proof.
  unfold closeLevel. cbn [alts terms]. now rewrite fst_atoms, rev_involutive.
Qed.

Lemma compile_variantSource v l :
  compile (variantSource (v :: l)) = inr (variantProgram (v :: l)).
Proof.
  unfold compile, variantSource. rewrite <- !app_assoc.
  change ("^(?:" ++ "\[[^\]]+\]" ++ "|(?:" ++ join "|" (map escapeRegex (v :: l)) ++ ")" ++ "):")
    with (("^(?:\[[^\]]+\]|(?:" : jsstring) ++ join "|" (map escapeRegex (v :: l)) ++ ")):").
  rewrite !fold_left_app.
  change (fold_left pstep ("^(?:\[[^\]]+\]|(?:" : jsstring) pinit)
    with (pnormal [] [] [(GNonCapture, {| alts := [arbR]; terms := [] |});
                         (GNonCapture, {| alts := []; terms := [(RBol, QAssertion)] |})]).
  rewrite fold_join, app_nil_r.
  cbn [fold_left list_ascii_of_string].
  rewrite !pstep_close, closeLevel_atoms. cbn [alts terms].
  rewrite (pstep_plain _ _ _ ":"%char eq_refl).
  unfold pfinish. cbn [mode stack pnormal].
  cbn [rev app]. rewrite rev_involutive.
  change [litR (last (v :: l) [])] with (map litR [last (v :: l) []]).
  rewrite <- map_app, <- app_removelast_last by discriminate.
  reflexivity.
Qed.

Lemma makeVariantRegex_ok variants :
  makeVariantRegex variants = Ok (variantRegExp variants).
Proof.
  unfold makeVariantRegex, variantRegExp. fold (baseListOf variants).
  cbv zeta. fold (variantSource (baseListOf variants)).
  unfold newRegExp.
  assert (H : exists v l, baseListOf variants = v :: l).
  { destruct variants as [[|v l]|]; simpl; eauto;
      unfold DEFAULT_VARIANTS, strs; cbn [map]; eauto. }
  destruct H as [v [l E]]. rewrite E. now rewrite compile_variantSource.
Qed.

Lemma colon_canonical ch : charMatches true ":" ch = true -> ch = ":"%char.
Proof.
  destruct ch as [[] [] [] [] [] [] [] []]; intros H;
    solve [reflexivity | discriminate H].
Qed.

Lemma searchFrom_anchored ic r s : forall i,
  i <> 0 -> searchFrom ic (RSeq RBol r) i s = None.
Proof.
  induction s as [|ch s IH]; intros i Hi; cbn [searchFrom exec];
    destruct i as [|i]; try contradiction; cbn [Nat.eqb]; [reflexivity|].
  now apply IH.
Qed.

Lemma exec_anchored_seq ic r1 r2 s k :
  exec ic (RSeq RBol (RSeq r1 r2)) 0 s k
  = exec ic r1 0 s (fun j s' => exec ic r2 j s' k).
Proof. reflexivity. Qed.

Lemma variant_exec_shape L s j :
  exec true (variantProgram L) 0 s (fun j _ => Some j) = Some j ->
  exists label rest, s = label ++ ":"%char :: rest /\ j = S (List.length label).
Proof.
  unfold variantProgram. rewrite exec_anchored_seq. intros H.
  apply exec_advances in H. destruct H as [pre [s' [-> H]]].
  cbn [exec] in H.
  destruct s' as [|ch s'']; [discriminate|].
  destruct (charMatches true ":" ch) eqn:E; [|discriminate].
  apply colon_canonical in E. subst ch. injection H as <-.
  exists pre, s''. now split.
Qed.

(** A match of the variant pattern is a leading segment that ends in [:]. *)
Lemma variant_match_shape variants rest raw :
  String_match rest (variantRegExp variants) = Some raw ->
  exists label rest', rest = label ++ ":"%char :: rest' /\ raw = label ++ [":"%char].
Proof.
  unfold String_match, variantRegExp. cbn [ignoreCase program].
  destruct rest as [|ch rest0].
  - cbn [searchFrom].
    destruct (exec true _ 0 [] _) as [j|] eqn:E; [|discriminate].
    apply variant_exec_shape in E. destruct E as [label [r' [E _]]].
    now destruct label.
  - cbn [searchFrom].
    destruct (exec true _ 0 (ch :: rest0) _) as [j|] eqn:E.
    + intros H. injection H as <-.
      apply variant_exec_shape in E. destruct E as [label [r' [E ->]]].
      exists label, r'. split; [exact E|].
      rewrite E, Nat.sub_0_r. cbn [skipn].
      replace (S (List.length label)) with (List.length (label ++ [":"%char]))
        by (rewrite length_app; simpl; lia).
      replace (label ++ ":"%char :: r') with ((label ++ [":"%char]) ++ r')
        by (now rewrite <- app_assoc).
      now rewrite firstn_app, Nat.sub_diag, firstn_all, firstn_O, app_nil_r.
    + unfold variantProgram. rewrite searchFrom_anchored by discriminate. discriminate.
Qed.

Lemma variant_test_match variants rest :
  test (variantRegExp variants) rest = true ->
  exists raw, String_match rest (variantRegExp variants) = Some raw.
Proof.
  unfold test, String_match.
  destruct (searchFrom _ _ 0 rest) as [[i j]|]; [eauto|discriminate].
Qed.

Lemma stripLoop_terminates variants : forall fuel rest v vs,
  List.length rest <= fuel ->
  exists r, stripLoop fuel (variantRegExp variants) v rest vs = Ok r.
Proof.
  induction fuel as [|fuel IH]; intros rest v vs Hlen; cbn [stripLoop];
    destruct (test (variantRegExp variants) rest) eqn:Et; eauto;
    destruct (variant_test_match _ _ Et) as [raw Hm];
    destruct (variant_match_shape _ _ _ Hm) as [label [rest' [-> ->]]].
  - rewrite length_app in Hlen. simpl in Hlen. lia.
  - rewrite Hm. apply IH.
    unfold sliceFrom.
    replace (label ++ ":"%char :: rest') with ((label ++ [":"%char]) ++ rest')
      by (now rewrite <- app_assoc).
    rewrite skipn_app, skipn_all, Nat.sub_diag. cbn [skipn app].
    rewrite !length_app in Hlen. simpl in Hlen. lia.
Qed.

Lemma stripLoop_more_fuel re : forall fuel fuel' v rest vs r,
  stripLoop fuel re v rest vs = Ok r -> fuel <= fuel' ->
  stripLoop fuel' re v rest vs = Ok r.
Proof.
  induction fuel as [|fuel IH]; intros fuel' v rest vs r H Hle.
  - cbn [stripLoop] in H. destruct fuel'; cbn [stripLoop];
      destruct (test re rest); try discriminate; assumption.
  - destruct fuel' as [|fuel']; [lia|]. cbn [stripLoop] in *.
    destruct (test re rest); [|assumption].
    destruct (String_match rest re); [|discriminate].
    apply IH with (fuel' := fuel') in H; [assumption|lia].
Qed.

(** ** Containers *)

Lemma GroupKey_eqb_eq a b : GroupKey_eqb a b = true <-> a = b.
Proof. destruct a, b; simpl; split; intros H; try reflexivity; discriminate H. Qed.

Lemma GroupKey_eqb_refl a : GroupKey_eqb a a = true.
Proof. now apply GroupKey_eqb_eq. Qed.

Lemma GroupKey_eqb_neq a b : GroupKey_eqb a b = false <-> a <> b.
Proof.
  split.
  - intros H E. apply GroupKey_eqb_eq in E. congruence.
  - intros H. destruct (GroupKey_eqb a b) eqn:E; [|reflexivity].
    apply GroupKey_eqb_eq in E. contradiction.
Qed.

Lemma GroupKey_eqb_sym a b : GroupKey_eqb a b = GroupKey_eqb b a.
Proof. now destruct a, b. Qed.

Lemma jsstring_eqb_eq a : forall b, jsstring_eqb a b = true <-> a = b.
Proof.
  induction a as [|x a IH]; intros [|y b]; simpl; split; intros H;
    try reflexivity; try discriminate H.
  - apply andb_true_iff in H as [H1 H2]. apply Ascii.eqb_eq in H1. apply IH in H2.
    now subst.
  - injection H as -> ->. rewrite Ascii.eqb_refl. now apply IH.
Qed.

Section Maps.
Context {V : Type}.
Implicit Types (m : JsMap V) (k : GroupKey) (v : V).

Lemma Map_get_set m k v k' :
  Map_get (Map_set m k v) k' = if GroupKey_eqb k k' then Some v else Map_get m k'.
Proof.
  induction m as [|[k0 v0] m IH]; simpl.
  - reflexivity.
  - destruct (GroupKey_eqb k0 k) eqn:E; simpl.
    + apply GroupKey_eqb_eq in E. subst k0. now destruct (GroupKey_eqb k k').
    + destruct (GroupKey_eqb k0 k') eqn:E'.
      * apply GroupKey_eqb_eq in E'. subst k0.
        rewrite GroupKey_eqb_sym in E. now rewrite E.
      * exact IH.
Qed.

Lemma Map_get_set_same m k v : Map_get (Map_set m k v) k = Some v.
Proof. now rewrite Map_get_set, GroupKey_eqb_refl. Qed.

Lemma Map_get_set_other m k v k' :
  k <> k' -> Map_get (Map_set m k v) k' = Map_get m k'.
Proof. intros H. rewrite Map_get_set. apply GroupKey_eqb_neq in H. now rewrite H. Qed.

Lemma Map_get_In m k v : Map_get m k = Some v -> In (k, v) m.
Proof.
  induction m as [|[k0 v0] m IH]; simpl; [discriminate|].
  destruct (GroupKey_eqb k0 k) eqn:E.
  - apply GroupKey_eqb_eq in E. subst. intros H. injection H as ->. now left.
  - intros H. right. now apply IH.
Qed.

Lemma Map_get_None m k : Map_get m k = None -> ~ In k (map fst m).
Proof.
  induction m as [|[k0 v0] m IH]; simpl; [tauto|].
  destruct (GroupKey_eqb k0 k) eqn:E; [discriminate|].
  intros H [H1|H1]; [|now apply IH].
  apply GroupKey_eqb_neq in E. contradiction.
Qed.

Lemma Map_set_keys m k v :
  map fst (Map_set m k v) = if Map_has m k then map fst m else map fst m ++ [k].
Proof.
  unfold Map_has. induction m as [|[k0 v0] m IH]; simpl; [reflexivity|].
  destruct (GroupKey_eqb k0 k) eqn:E; simpl.
  - apply GroupKey_eqb_eq in E. now subst.
  - rewrite IH. now destruct (Map_get m k).
Qed.

Lemma Map_set_NoDup m k v : NoDup (map fst m) -> NoDup (map fst (Map_set m k v)).
Proof.
  intros H. rewrite Map_set_keys. unfold Map_has.
  destruct (Map_get m k) eqn:E; [assumption|].
  apply Map_get_None in E.
  apply NoDup_rev in H. rewrite <- (rev_involutive (map fst m ++ [k])).
  apply NoDup_rev. rewrite rev_app_distr. simpl. constructor; [|assumption].
  now rewrite <- in_rev.
Qed.

Lemma Map_get_first m k v : NoDup (map fst m) -> In (k, v) m -> Map_get m k = Some v.
Proof.
  induction m as [|[k0 v0] m IH]; simpl; [tauto|].
  intros Hnd [H|H].
  - injection H as -> ->. now rewrite GroupKey_eqb_refl.
  - inversion Hnd as [|? ? Hnot Hnd']; subst.
    destruct (GroupKey_eqb k0 k) eqn:E.
    + apply GroupKey_eqb_eq in E. subst k0. exfalso. apply Hnot.
      now apply (in_map fst) in H.
    + now apply IH.
Qed.
End Maps.

(** ** The outcome monad *)

Lemma bind_Ok {A B} (m : outcome A) (f : A -> outcome B) b :
  bind m f = Ok b -> exists a, m = Ok a /\ f a = Ok b.
Proof. destruct m; simpl; intros H; try discriminate; eauto. Qed.

Lemma mapM_Ok {A B} (f : A -> outcome B) l : forall bs,
  mapM f l = Ok bs -> Forall2 (fun a b => f a = Ok b) l bs.
Proof.
  induction l as [|a l IH]; intros bs H; simpl in H.
  - injection H as <-. constructor.
  - apply bind_Ok in H as [b [Hb H]]. apply bind_Ok in H as [bs' [Hbs H]].
    injection H as <-. constructor; auto.
Qed.

Lemma mapM_total {A B} (f : A -> outcome B) l :
  (forall a, In a l -> exists b, f a = Ok b) -> exists bs, mapM f l = Ok bs.
Proof.
  induction l as [|a l IH]; intros H; simpl; [eauto|].
  destruct (H a) as [b Hb]; [now left|]. rewrite Hb. simpl.
  destruct IH as [bs Hbs]; [intros; apply H; now right|]. rewrite Hbs. simpl. eauto.
Qed.

(** ** Sorting *)

Lemma insertSorted_perm {A} (cmp : A -> A -> Z) x l :
  Permutation (insertSorted cmp x l) (x :: l).
Proof.
  induction l as [|y l IH]; simpl; [reflexivity|].
  destruct (cmp x y <=? 0)%Z; [reflexivity|].
  rewrite IH. apply perm_swap.
Qed.

Lemma sort_perm {A} (cmp : A -> A -> Z) l : Permutation (sort cmp l) l.
Proof.
  induction l as [|x l IH]; simpl; [reflexivity|].
  rewrite insertSorted_perm. now constructor.
Qed.

(** ** The buckets of [formatClasses] *)

Lemma fold_set_get order : forall (b : JsMap (list jsstring)) k,
  Map_get (fold_left (fun b k => Map_set b k []) order b) k
  = if existsb (GroupKey_eqb k) order then Some [] else Map_get b k.
Proof.
  induction order as [|k0 order IH]; intros b k; simpl; [reflexivity|].
  rewrite IH, Map_get_set, (GroupKey_eqb_sym k k0).
  destruct (existsb (GroupKey_eqb k) order); [now rewrite orb_true_r|].
  now rewrite orb_false_r.
Qed.

Lemma fold_set_NoDup order : forall (b : JsMap (list jsstring)),
  NoDup (map fst b) -> NoDup (map fst (fold_left (fun b k => Map_set b k []) order b)).
Proof.
  induction order as [|k0 order IH]; intros b H; simpl; [assumption|].
  apply IH. now apply Map_set_NoDup.
Qed.

Lemma initBuckets_get order k :
  Map_get (initBuckets order) k
  = if existsb (GroupKey_eqb k) order || GroupKey_eqb k misc then Some [] else None.
Proof.
  unfold initBuckets, Map_has.
  destruct (Map_get (fold_left _ order []) misc) eqn:E; cbn [negb].
  - rewrite fold_set_get in *. cbn [Map_get] in *.
    destruct (existsb (GroupKey_eqb misc) order) eqn:Em; [|discriminate].
    destruct (GroupKey_eqb k misc) eqn:Ek.
    + apply GroupKey_eqb_eq in Ek. subst k. rewrite Em. reflexivity.
    + now rewrite orb_false_r.
  - rewrite Map_get_set, fold_set_get. cbn [Map_get]. rewrite (GroupKey_eqb_sym misc k).
    destruct (GroupKey_eqb k misc); [now rewrite orb_true_r|].
    now rewrite orb_false_r.
Qed.

Lemma initBuckets_NoDup order : NoDup (map fst (initBuckets order)).
Proof.
  unfold initBuckets.
  assert (H : NoDup (map fst (fold_left (fun b k => Map_set b k [])
                                order ([] : JsMap (list jsstring))))).
  { apply fold_set_NoDup. constructor. }
  destruct (negb _); [now apply Map_set_NoDup|assumption].
Qed.

Lemma existsb_GroupKey k order : existsb (GroupKey_eqb k) order = true <-> In k order.
Proof.
  rewrite existsb_exists. split.
  - intros [x [Hx E]]. apply GroupKey_eqb_eq in E. now subst.
  - intros H. exists k. split; [assumption|apply GroupKey_eqb_refl].
Qed.

Lemma initBuckets_has order k :
  (In k order \/ k = misc) <-> Map_get (initBuckets order) k = Some [].
Proof.
  rewrite initBuckets_get. split.
  - intros [H| ->].
    + apply existsb_GroupKey in H. now rewrite H.
    + now rewrite orb_true_r.
  - destruct (existsb (GroupKey_eqb k) order) eqn:E1.
    + left. now apply existsb_GroupKey.
    + destruct (GroupKey_eqb k misc) eqn:E2; [|discriminate].
      right. now apply GroupKey_eqb_eq.
Qed.

Lemma members_cons p ps k :
  members k (p :: ps)
  = if GroupKey_eqb (p_group p) k then p_token p :: members k ps else members k ps.
Proof. unfold members. simpl. now destruct (GroupKey_eqb (p_group p) k). Qed.

Lemma distribute_get ps : forall b b',
  foldM distribute ps b = Ok b' ->
  forall k, Map_get b' k = option_map (fun arr => arr ++ members k ps) (Map_get b k).
Proof.
  induction ps as [|p ps IH]; intros b b' H k; simpl in H.
  - injection H as <-. destruct (Map_get b k); simpl; [|reflexivity].
    unfold members. simpl. now rewrite app_nil_r.
  - apply bind_Ok in H as [b1 [H1 H]]. unfold distribute in H1.
    destruct (Map_get b (p_group p)) as [arr|] eqn:Eg; [|discriminate].
    injection H1 as <-. rewrite (IH _ _ H k), Map_get_set, members_cons.
    destruct (GroupKey_eqb (p_group p) k) eqn:E.
    + apply GroupKey_eqb_eq in E. subst k. rewrite Eg. simpl.
      now rewrite <- app_assoc.
    + reflexivity.
Qed.

Lemma distribute_NoDup ps : forall b b',
  foldM distribute ps b = Ok b' -> NoDup (map fst b) -> NoDup (map fst b').
Proof.
  induction ps as [|p ps IH]; intros b b' H Hnd; simpl in H.
  - now injection H as <-.
  - apply bind_Ok in H as [b1 [H1 H]]. unfold distribute in H1.
    destruct (Map_get b (p_group p)) as [arr|]; [|discriminate].
    injection H1 as <-. eapply IH; [exact H|]. now apply Map_set_NoDup.
Qed.

Lemma distribute_total ps : forall b,
  (forall p, In p ps -> Map_get b (p_group p) <> None) ->
  exists b', foldM distribute ps b = Ok b'.
Proof.
  induction ps as [|p ps IH]; intros b H; simpl; [eauto|].
  unfold distribute at 1.
  destruct (Map_get b (p_group p)) as [arr|] eqn:Eg.
  - simpl. apply IH. intros q Hq. rewrite Map_get_set.
    destruct (GroupKey_eqb (p_group p) (p_group q)); [discriminate|].
    apply H. now right.
  - exfalso. apply (H p); [now left|assumption].
Qed.

Lemma distribute_throws ps : forall b,
  (exists p, In p ps /\ Map_get b (p_group p) = None) ->
  foldM distribute ps b = Throws TypeError.
Proof.
  induction ps as [|p ps IH]; intros b [q [Hq Hn]]; [contradiction|].
  simpl. unfold distribute at 1.
  destruct (Map_get b (p_group p)) as [arr|] eqn:Eg.
  - simpl. apply IH. destruct Hq as [->|Hq]; [congruence|].
    exists q. split; [assumption|]. rewrite Map_get_set.
    destruct (GroupKey_eqb (p_group p) (p_group q)) eqn:E; [|assumption].
    apply GroupKey_eqb_eq in E. congruence.
  - reflexivity.
Qed.

Lemma findParsed_Ok ps t p : findParsed ps t = Ok p -> p_token p = t /\ In p ps.
Proof.
  unfold findParsed. destruct (find _ ps) as [q|] eqn:E; [|discriminate].
  intros H. injection H as <-. apply find_some in E as [Hin E].
  apply jsstring_eqb_eq in E. now split.
Qed.

Lemma findParsed_total ps t : In t (map p_token ps) -> exists p, findParsed ps t = Ok p.
Proof.
  intros H. unfold findParsed. destruct (find _ ps) as [q|] eqn:E; [eauto|].
  apply in_map_iff in H as [p [Hp Hin]].
  apply (find_none _ _ E) in Hin. simpl in Hin.
  assert (jsstring_eqb (p_token p) t = true) by now apply jsstring_eqb_eq.
  congruence.
Qed.

Lemma findParsed_tokens ps arr items :
  mapM (findParsed ps) arr = Ok items -> map p_token items = arr.
Proof.
  intros H. apply mapM_Ok in H. induction H as [|t p arr items Hf _ IH]; [reflexivity|].
  simpl. apply findParsed_Ok in Hf as [-> _]. now rewrite IH.
Qed.

Lemma sortLoop_get ps es : forall acc b',
  NoDup (map fst es) ->
  foldM (sortBucket ps) es acc = Ok b' ->
  (forall k arr, In (k, arr) es ->
     exists items, mapM (findParsed ps) arr = Ok items /\
                   Map_get b' k = Some (map p_token (sort compareParsed items))) /\
  (forall k, ~ In k (map fst es) -> Map_get b' k = Map_get acc k).
Proof.
  induction es as [|[k0 arr0] es IH]; intros acc b' Hnd H; simpl in H.
  - injection H as <-. split; [intros ? ? []|reflexivity].
  - apply bind_Ok in H as [acc1 [H1 H]]. unfold sortBucket in H1.
    apply bind_Ok in H1 as [items [Hitems H1]]. injection H1 as <-.
    inversion Hnd as [|? ? Hnot Hnd']; subst.
    destruct (IH _ _ Hnd' H) as [IHa IHb]. split.
    + intros k arr [E|Hin].
      * injection E as <- <-. exists items. split; [assumption|].
        rewrite (IHb k0 Hnot). apply Map_get_set_same.
      * now apply IHa.
    + intros k Hk. simpl in Hk. rewrite IHb by tauto.
      apply Map_get_set_other. tauto.
Qed.

Lemma sortLoop_total ps es : forall acc,
  (forall k arr t, In (k, arr) es -> In t arr -> In t (map p_token ps)) ->
  exists b', foldM (sortBucket ps) es acc = Ok b'.
Proof.
  induction es as [|[k0 arr0] es IH]; intros acc H; simpl; [eauto|].
  destruct (mapM_total (findParsed ps) arr0) as [items Hitems].
  { intros t Ht. apply findParsed_total. apply (H k0 arr0); [now left|assumption]. }
  rewrite Hitems. simpl. apply IH. intros k arr t Hin. apply (H k arr t). now right.
Qed.

(** ** From tokens to parsed items *)

Lemma parseTokens_tokens re tw tokens : forall i ps,
  parseTokens re tw i tokens = Ok ps -> map p_token ps = tokens.
Proof.
  induction tokens as [|t tokens IH]; intros i ps H; simpl in H.
  - now injection H as <-.
  - apply bind_Ok in H as [p [Hp H]]. apply bind_Ok in H as [ps' [Hps H]].
    injection H as <-. simpl. rewrite (IH _ _ Hps). f_equal.
    unfold parseToken in Hp.
    apply bind_Ok in Hp as [sv [_ Hp]]. apply bind_Ok in Hp as [g [_ Hp]].
    now injection Hp as <-.
Qed.

Lemma parseTokens_groups re tw tokens : forall i ps,
  parseTokens re tw i tokens = Ok ps ->
  forall p, In p ps ->
    exists sv, stripVariantsWith re (p_token p) = Ok sv /\
               classifyWithConfig (s_base sv) tw = Ok (p_group p).
Proof.
  induction tokens as [|t tokens IH]; intros i ps H p Hin; simpl in H.
  - injection H as <-. contradiction.
  - apply bind_Ok in H as [p0 [Hp H]]. apply bind_Ok in H as [ps' [Hps H]].
    injection H as <-. destruct Hin as [<-|Hin]; [|now apply (IH _ _ Hps)].
    unfold parseToken in Hp.
    apply bind_Ok in Hp as [sv [Hsv Hp]]. apply bind_Ok in Hp as [g [Hg Hp]].
    injection Hp as <-. simpl. eauto.
Qed.

Lemma parseTokens_total re tw tokens : forall i,
  (forall t, In t tokens ->
     exists sv g, stripVariantsWith re t = Ok sv /\ classifyWithConfig (s_base sv) tw = Ok g) ->
  exists ps, parseTokens re tw i tokens = Ok ps.
Proof.
  induction tokens as [|t tokens IH]; intros i H; simpl; [eauto|].
  destruct (H t) as [sv [g [Hsv Hg]]]; [now left|].
  unfold parseToken. rewrite Hsv. simpl. rewrite Hg. simpl.
  destruct (IH (i + 1)%Z) as [ps Hps]; [intros; apply H; now right|].
  rewrite Hps. simpl. eauto.
Qed.

Lemma flat_map_perm {A B} (f g : A -> list B) l :
  (forall a, In a l -> Permutation (f a) (g a)) ->
  Permutation (flat_map f l) (flat_map g l).
Proof.
  induction l as [|a l IH]; intros H; simpl; [reflexivity|].
  apply Permutation_app; [apply H; now left|]. apply IH. intros; apply H; now right.
Qed.

Lemma members_absent_group p ps order :
  ~ In (p_group p) order ->
  flat_map (fun k => members k (p :: ps)) order = flat_map (fun k => members k ps) order.
Proof.
  induction order as [|k order IH]; intros H; simpl; [reflexivity|].
  rewrite members_cons.
  destruct (GroupKey_eqb (p_group p) k) eqn:E.
  - apply GroupKey_eqb_eq in E. exfalso. apply H. now left.
  - rewrite IH; [reflexivity|]. intros Hin. apply H. now right.
Qed.

Lemma members_nil order : flat_map (fun k => members k []) order = [].
Proof. induction order; simpl; auto. Qed.

Lemma members_partition ps order :
  NoDup order ->
  (forall p, In p ps -> In (p_group p) order) ->
  Permutation (flat_map (fun k => members k ps) order) (map p_token ps).
Proof.
  intros Hnd. induction ps as [|p ps IH]; intros H.
  - now rewrite members_nil.
  - simpl. rewrite <- IH by (intros; apply H; now right).
    assert (Hp : In (p_group p) order) by (apply H; now left).
    clear IH H. induction Hnd as [|k order Hnot Hnd IHo]; [contradiction|].
    simpl. rewrite members_cons.
    destruct (GroupKey_eqb (p_group p) k) eqn:E.
    + apply GroupKey_eqb_eq in E. rewrite members_absent_group by (now rewrite E).
      reflexivity.
    + destruct Hp as [Hp|Hp].
      * apply GroupKey_eqb_neq in E. congruence.
      * rewrite (IHo Hp). symmetry. apply Permutation_middle.
Qed.

(** ** The pipeline of [formatClasses] *)

Lemma tokenGroup_spec tw t g :
  tokenGroup tw t = Ok g <->
  exists sv, stripVariantsWith (variantRegExp (tw_variants tw)) t = Ok sv /\
             classifyWithConfig (s_base sv) tw = Ok g.
Proof.
  unfold tokenGroup. rewrite makeVariantRegex_ok. cbn [bind]. split.
  - intros H. apply bind_Ok in H as [sv [Hsv H]]. eauto.
  - intros [sv [Hsv H]]. rewrite Hsv. exact H.
Qed.

Lemma distribute_has ps b b' :
  foldM distribute ps b = Ok b' ->
  forall p, In p ps -> Map_get b (p_group p) <> None.
Proof.
  intros H p Hin Hn.
  rewrite (distribute_throws ps b) in H; [discriminate|eauto].
Qed.

(** What the buckets hold once [sortedBuckets] returns: the parsed items
    carry the tokens of the input and their groups, every populated group
    has a bucket, and the bucket of [k] is an arrangement of the tokens
    classified into [k]. *)
Lemma sortedBuckets_spec input opts buckets :
  sortedBuckets input opts = Ok buckets ->
  exists ps,
    map p_token ps = splitTokens input /\
    (forall p, In p ps -> tokenGroup (tailwind opts) (p_token p) = Ok (p_group p)) /\
    (forall p, In p ps -> In (p_group p) (effectiveOrder opts) \/ p_group p = misc) /\
    (forall k, In k (effectiveOrder opts) \/ k = misc ->
       exists l, Map_get buckets k = Some l /\ Permutation l (members k ps)).
Proof.
  unfold sortedBuckets. fold (effectiveOrder opts).
  rewrite makeVariantRegex_ok. cbn [bind]. intros H.
  apply bind_Ok in H as [ps [Hps H]]. apply bind_Ok in H as [b1 [Hb1 H]].
  exists ps. split; [eapply parseTokens_tokens; eassumption|].
  split; [|split].
  - intros p Hin. apply tokenGroup_spec. eapply parseTokens_groups; eassumption.
  - intros p Hin. apply initBuckets_has.
    pose proof (distribute_has _ _ _ Hb1 p Hin) as Hne.
    rewrite initBuckets_get in *.
    now destruct (existsb _ _ || _).
  - intros k Hk. apply initBuckets_has in Hk.
    pose proof (distribute_get _ _ _ Hb1 k) as Hget. rewrite Hk in Hget.
    cbn [option_map app] in Hget.
    destruct (sortLoop_get ps b1 b1 buckets) as [Hsorted _].
    { eapply distribute_NoDup; [eassumption|apply initBuckets_NoDup]. }
    { assumption. }
    destruct (Hsorted k _ (Map_get_In _ _ _ Hget)) as [items [Hitems Hk']].
    exists (map p_token (sort compareParsed items)). split; [assumption|].
    rewrite <- (findParsed_tokens _ _ _ Hitems).
    apply Permutation_map, sort_perm.
Qed.

Lemma members_In t k ps :
  In t (members k ps) -> exists p, In p ps /\ p_token p = t /\ p_group p = k.
Proof.
  unfold members. intros H. apply in_map_iff in H as [p [Hp Hin]].
  apply filter_In in Hin as [Hin Hk]. apply GroupKey_eqb_eq in Hk. eauto.
Qed.

Lemma outcome_Ok_inj {A} (a b : A) : Ok a = Ok b -> a = b.
Proof. intros H. now injection H. Qed.

(** [sortedBuckets] returns as soon as every token is classified and sent
    to a group that has a bucket. *)
Lemma sortedBuckets_total input opts :
  (forall t, In t (splitTokens input) ->
     exists g, tokenGroup (tailwind opts) t = Ok g /\
               (In g (effectiveOrder opts) \/ g = misc)) ->
  exists buckets, sortedBuckets input opts = Ok buckets.
Proof.
  intros H. unfold sortedBuckets. fold (effectiveOrder opts).
  rewrite makeVariantRegex_ok. cbn [bind].
  destruct (parseTokens_total (variantRegExp (tw_variants (tailwind opts)))
              (tailwind opts) (splitTokens input) 0%Z) as [ps Hps].
  { intros t Ht. destruct (H t Ht) as [g [Hg _]].
    apply tokenGroup_spec in Hg as [sv [Hsv Hg]]. eauto. }
  rewrite Hps. cbn [bind].
  pose proof (parseTokens_tokens _ _ _ _ _ Hps) as Htok.
  destruct (distribute_total ps (initBuckets (effectiveOrder opts))) as [b1 Hb1].
  { intros p Hin.
    destruct (H (p_token p)) as [g [Hg Hor]].
    { rewrite <- Htok. now apply in_map. }
    destruct (parseTokens_groups _ _ _ _ _ Hps p Hin) as [sv [Hsv Hc]].
    assert (Hg' : tokenGroup (tailwind opts) (p_token p) = Ok (p_group p))
      by (apply tokenGroup_spec; eauto).
    rewrite Hg in Hg'. apply outcome_Ok_inj in Hg'. subst g.
    apply initBuckets_has in Hor. rewrite Hor. discriminate. }
  rewrite Hb1. cbn [bind].
  apply sortLoop_total. intros k arr t Hin Ht.
  assert (Hnd : NoDup (map fst b1)).
  { eapply distribute_NoDup; [eassumption|apply initBuckets_NoDup]. }
  pose proof (Map_get_first _ _ _ Hnd Hin) as Hget.
  rewrite (distribute_get _ _ _ Hb1 k) in Hget.
  destruct (Map_get (initBuckets (effectiveOrder opts)) k) as [arr0|] eqn:E; [|discriminate].
  rewrite initBuckets_get in E. destruct (existsb _ _ || _); [|discriminate].
  injection E as <-. cbn [option_map app] in Hget. injection Hget as <-.
  apply members_In in Ht as [p [Hp [<- _]]]. now apply in_map.
Qed.

Lemma flatBuckets_In order buckets t :
  In t (flatBuckets order buckets) ->
  (forall k, In k order -> Map_get buckets k <> None) ->
  exists k l, In k order /\ Map_get buckets k = Some l /\ In t l.
Proof.
  unfold flatBuckets. intros H Hall. apply in_flat_map in H as [k [Hk Ht]].
  destruct (Map_get buckets k) as [l|] eqn:E.
  - eauto.
  - exfalso. now apply (Hall k).
Qed.

Lemma flatBuckets_perm order buckets ps :
  (forall k, In k order ->
     exists l, Map_get buckets k = Some l /\ Permutation l (members k ps)) ->
  Permutation (flatBuckets order buckets) (flat_map (fun k => members k ps) order).
Proof.
  intros H. unfold flatBuckets. apply flat_map_perm. intros k Hk.
  destruct (H k Hk) as [l [-> Hl]]. exact Hl.
Qed.


Lemma tokens_wellFormed_perm ts ts' :
  Permutation ts ts' -> Forall wellFormedToken ts -> Forall wellFormedToken ts'.
Proof. intros Hp H. eapply Permutation_Forall; eassumption. Qed.

(** The flat output read back: when the brackets of the input are all
    closed, [tokenize] recovers from the string exactly the tokens that
    were joined. *)
Lemma flat_output_tokens input emitted :
  bracketsClosed input = true ->
  Permutation (splitTokens input) emitted ->
  tokenize (trim (join " " emitted)) = emitted.
Proof.
  intros Hc Hp.
  assert (Hwf : Forall wellFormedToken emitted).
  { eapply tokens_wellFormed_perm; [exact Hp|]. now apply splitTokens_wellFormed. }
  unfold tokenize. rewrite trim_join by assumption. now apply retokenize.
Qed.

(** C3, token conservation, as amended.  When [groupOrder] has no
    repeated key and includes the group of every token, and every opening
    bracket of the input is closed, the flat output exists and its tokens
    are the tokens of the input, each as often as in the input. *)
Theorem token_conservation_amended (input : jsstring) (opts : FormatOptions) :
  NoDup (effectiveOrder opts) ->
  bracketsClosed input = true ->
  splitPerGroup opts <> Some true ->
  (forall t, In t (tokenize input) ->
     exists g, tokenGroup (tailwind opts) t = Ok g /\ In g (effectiveOrder opts)) ->
  exists out,
    formatClasses input opts = Ok (Flat out) /\
    Permutation (tokenize input) (tokenize out).
Proof.
  intros Hnd Hclosed Hflat Hgroups.
  destruct (sortedBuckets_total input opts) as [buckets Hb].
  { intros t Ht. destruct (Hgroups t Ht) as [g [Hg Hin]]. eauto. }
  destruct (sortedBuckets_spec _ _ _ Hb) as [ps [Htok [Hgrp [_ Hbk]]]].
  exists (trim (join " " (flatBuckets (effectiveOrder opts) buckets))). split.
  - unfold formatClasses. fold (effectiveOrder opts). rewrite Hb. cbn [bind].
    destruct (splitPerGroup opts) as [[|]|]; try reflexivity. now contradiction Hflat.
  - assert (Hperm : Permutation (splitTokens input)
                      (flatBuckets (effectiveOrder opts) buckets)).
    { rewrite <- Htok. symmetry.
      rewrite (flatBuckets_perm _ _ ps) by (intros k Hk; apply Hbk; now left).
      apply members_partition; [assumption|].
      intros p Hin. destruct (Hgroups (p_token p)) as [g [Hg Hing]].
      { unfold tokenize. rewrite <- Htok. now apply in_map. }
      rewrite (Hgrp p Hin) in Hg. apply outcome_Ok_inj in Hg. now subst g. }
    rewrite (flat_output_tokens input _ Hclosed Hperm). exact Hperm.
Qed.

Lemma flatBuckets_incl input opts buckets t :
  sortedBuckets input opts = Ok buckets ->
  In t (flatBuckets (effectiveOrder opts) buckets) ->
  In t (splitTokens input).
Proof.
  intros Hb Hin.
  destruct (sortedBuckets_spec _ _ _ Hb) as [ps [Htok [_ [_ Hbk]]]].
  apply flatBuckets_In in Hin as [k [l [Hk [Hl Hin]]]].
  - destruct (Hbk k (or_introl Hk)) as [l' [Hl' Hperm]].
    rewrite Hl in Hl'. injection Hl' as <-.
    apply (Permutation_in _ Hperm) in Hin.
    apply members_In in Hin as [p [Hp [<- _]]].
    rewrite <- Htok. now apply in_map.
  - intros k Hk. destruct (Hbk k (or_introl Hk)) as [l [-> _]]. discriminate.
Qed.

Lemma flat_output_readback input opts buckets :
  sortedBuckets input opts = Ok buckets ->
  bracketsClosed input = true ->
  tokenize (trim (join " " (flatBuckets (effectiveOrder opts) buckets)))
  = flatBuckets (effectiveOrder opts) buckets.
Proof.
  intros Hb Hc.
  assert (Hwf : Forall wellFormedToken (flatBuckets (effectiveOrder opts) buckets)).
  { apply Forall_forall. intros t Ht.
    pose proof (splitTokens_wellFormed input Hc) as Hall.
    rewrite Forall_forall in Hall. apply Hall. eapply flatBuckets_incl; eassumption. }
  unfold tokenize. rewrite trim_join by assumption. now apply retokenize.
Qed.


(** ** Classification *)


(** C8, the prefix and the variants.  Two configurations that differ in
    [prefix] only split every token into the same variants and base. *)
Theorem prefix_noninterference (t : jsstring) (tw1 tw2 : Tailwind) :
  variants tw1 = variants tw2 ->
  customUtilities tw1 = customUtilities tw2 ->
  splitVariants (Some tw1) t = splitVariants (Some tw2) t.
Proof.
  intros Hv _. unfold splitVariants. cbn [tw_variants]. now rewrite Hv.
Qed.

(** ** [categorize] *)

Lemma fold_assign_get (f : GroupKey -> list jsstring) order :
  forall (o : JsMap (list jsstring)) k,
  Map_get (fold_left (fun o k => Map_set o k (f k)) order o) k
  = if existsb (GroupKey_eqb k) order then Some (f k) else Map_get o k.
Proof.
  induction order as [|k0 order IH]; intros o k; simpl; [reflexivity|].
  rewrite IH, Map_get_set, (GroupKey_eqb_sym k k0).
  destruct (existsb (GroupKey_eqb k) order); [now rewrite orb_true_r|].
  rewrite orb_false_r. destruct (GroupKey_eqb k0 k) eqn:E; [|reflexivity].
  apply GroupKey_eqb_eq in E. now subst.
Qed.

Lemma categorizeLoop_spec tw tokens : forall map0 map1,
  categorizeLoop (variantRegExp (tw_variants tw)) tw tokens map0 = Ok map1 ->
  forall k, map1 k = map0 k ++ filter (inGroup tw k) tokens.
Proof.
  induction tokens as [|t tokens IH]; intros map0 map1 H k; simpl in H.
  - injection H as <-. simpl. now rewrite app_nil_r.
  - apply bind_Ok in H as [sv [Hsv H]]. apply bind_Ok in H as [g [Hg H]].
    rewrite (IH _ _ H k). cbn [filter]. unfold inGroup at 2.
    assert (Ht : tokenGroup tw t = Ok g) by (apply tokenGroup_spec; eauto).
    rewrite Ht, (GroupKey_eqb_sym g k).
    destruct (GroupKey_eqb k g); [|reflexivity].
    now rewrite <- app_assoc.
Qed.

(** C7, group coverage.  The object [categorize] returns has an entry
    for every key of the effective group order and for [misc]; the entry
    of [k] lists the tokens of the input classified into [k], in the order
    of the input. *)
Theorem group_coverage (input : jsstring) (opts : FormatOptions)
    (ordered : JsMap (list jsstring)) :
  categorize input opts = Ok ordered ->
  forall k, In k (effectiveOrder opts) \/ k = misc ->
    Map_get ordered k = Some (filter (inGroup (tailwind opts) k) (tokenize input)).
Proof.
  unfold categorize. fold (effectiveOrder opts). rewrite makeVariantRegex_ok. cbn [bind].
  intros H k Hk. apply bind_Ok in H as [map1 [Hmap H]]. injection H as <-.
  pose proof (categorizeLoop_spec _ _ _ _ Hmap) as Hspec. cbn [app] in Hspec.
  unfold Map_has.
  destruct (Map_get (fold_left _ (effectiveOrder opts) []) misc) eqn:Em; cbn [negb].
  - rewrite fold_assign_get in *. cbn [Map_get] in Em.
    destruct (existsb (GroupKey_eqb misc) (effectiveOrder opts)) eqn:E; [|discriminate].
    destruct Hk as [Hk| ->].
    + apply existsb_GroupKey in Hk. rewrite Hk. now rewrite Hspec.
    + rewrite E. now rewrite Hspec.
  - rewrite Map_get_set, fold_assign_get. cbn [Map_get].
    destruct (GroupKey_eqb misc k) eqn:E.
    + apply GroupKey_eqb_eq in E. subst k. now rewrite Hspec.
    + destruct Hk as [Hk| ->]; [|now rewrite GroupKey_eqb_refl in E].
      apply existsb_GroupKey in Hk. rewrite Hk. now rewrite Hspec.
Qed.

(** ** Termination *)

Lemma stripVariantsWith_returns variants token :
  exists r, stripVariantsWith (variantRegExp variants) token = Ok r.
Proof. unfold stripVariantsWith. now apply stripLoop_terminates. Qed.

Lemma finishes_Ok {A} (a : A) : finishes (Ok a).
Proof. discriminate. Qed.

Lemma finishes_Throws {A} e : finishes (@Throws A e).
Proof. discriminate. Qed.

Lemma finishes_bind {A B} (m : outcome A) (f : A -> outcome B) :
  finishes m -> (forall a, m = Ok a -> finishes (f a)) -> finishes (bind m f).
Proof.
  unfold finishes. destruct m; simpl; intros Hm Hf; try discriminate; auto.
Qed.

Lemma mapM_finishes {A B} (f : A -> outcome B) l :
  (forall a, In a l -> finishes (f a)) -> finishes (mapM f l).
Proof.
  induction l as [|a l IH]; intros H; simpl; [apply finishes_Ok|].
  apply finishes_bind; [apply H; now left|]. intros b _.
  apply finishes_bind; [apply IH; intros; apply H; now right|].
  intros; apply finishes_Ok.
Qed.

Lemma foldM_finishes {A S} (f : S -> A -> outcome S) l :
  (forall s a, finishes (f s a)) -> forall s, finishes (foldM f l s).
Proof.
  intros H. induction l as [|a l IH]; intros s; simpl; [apply finishes_Ok|].
  apply finishes_bind; [apply H|]. intros; apply IH.
Qed.

Lemma newRegExp_finishes src ic : finishes (newRegExp src ic).
Proof. unfold newRegExp. destruct (compile src) as [[|]|]; discriminate. Qed.

Lemma withPrefix_finishes prefix re : finishes (withPrefix prefix re).
Proof.
  unfold withPrefix. destruct (negb _); [apply finishes_Ok|apply newRegExp_finishes].
Qed.

Lemma firstRule_finishes prefix base rules : finishes (firstRule prefix base rules).
Proof.
  induction rules as [|[r g] rules IH]; simpl; [apply finishes_Ok|].
  apply finishes_bind; [apply withPrefix_finishes|].
  intros r' _. destruct (test r' base); [apply finishes_Ok|apply IH].
Qed.

Lemma classifyWithConfig_finishes base tw : finishes (classifyWithConfig base tw).
Proof.
  unfold classifyWithConfig.
  destruct (match tw_customUtilities tw with Some _ => _ | None => _ end);
    [apply finishes_Ok|apply firstRule_finishes].
Qed.

Lemma parseTokens_finishes variants tw tokens : forall i,
  finishes (parseTokens (variantRegExp variants) tw i tokens).
Proof.
  induction tokens as [|t tokens IH]; intros i; simpl; [apply finishes_Ok|].
  apply finishes_bind.
  - unfold parseToken. destruct (stripVariantsWith_returns variants t) as [sv ->].
    cbn [bind]. apply finishes_bind; [apply classifyWithConfig_finishes|].
    intros; apply finishes_Ok.
  - intros p _. apply finishes_bind; [apply IH|]. intros; apply finishes_Ok.
Qed.

Lemma sortedBuckets_finishes input opts : finishes (sortedBuckets input opts).
Proof.
  unfold sortedBuckets. rewrite makeVariantRegex_ok. cbn [bind].
  apply finishes_bind; [apply parseTokens_finishes|]. intros ps _.
  apply finishes_bind.
  - apply foldM_finishes. intros b p. unfold distribute.
    destruct (Map_get b (p_group p)); discriminate.
  - intros b _. apply foldM_finishes. intros acc [k arr]. unfold sortBucket.
    apply finishes_bind; [|intros; apply finishes_Ok].
    apply mapM_finishes. intros t _. unfold findParsed.
    destruct (find _ ps); discriminate.
Qed.

Lemma formatClasses_finishes input opts : finishes (formatClasses input opts).
Proof.
  unfold formatClasses. apply finishes_bind; [apply sortedBuckets_finishes|].
  intros buckets _. destruct (splitPerGroup opts) as [[|]|]; try apply finishes_Ok.
  apply finishes_bind; [|intros; apply finishes_Ok].
  unfold chunkBuckets. apply finishes_bind; [|intros; apply finishes_Ok].
  apply mapM_finishes. intros k _. destruct (Map_get buckets k); discriminate.
Qed.

Lemma categorizeLoop_finishes variants tw tokens : forall map0,
  finishes (categorizeLoop (variantRegExp variants) tw tokens map0).
Proof.
  induction tokens as [|t tokens IH]; intros map0; simpl; [apply finishes_Ok|].
  destruct (stripVariantsWith_returns variants t) as [sv ->]. cbn [bind].
  apply finishes_bind; [apply classifyWithConfig_finishes|]. intros; apply IH.
Qed.

Lemma categorize_finishes input opts : finishes (categorize input opts).
Proof.
  unfold categorize. rewrite makeVariantRegex_ok. cbn [bind].
  apply finishes_bind; [apply categorizeLoop_finishes|]. intros; apply finishes_Ok.
Qed.

(** C10, termination of the variant loop.  For every list of variants
    [makeVariantRegex] returns a pattern; a match of it is a segment
    ending in [:], hence not empty, and stripping it shortens what is
    left; so the loop of [stripVariantsWith] returns for every token,
    within [length token] turns and with the same result under any larger
    bound.  Hence [formatClasses] and [categorize] come to an end on every
    input. *)
Theorem variant_stripping_terminates :
  (forall (variants : option (list jsstring)) (token : jsstring),
     exists re,
       makeVariantRegex variants = Ok re /\
       (forall rest raw, String_match rest re = Some raw ->
          exists label, raw = label ++ [":"%char] /\ 0 < List.length raw) /\
       (forall rest raw, String_match rest re = Some raw ->
          List.length (sliceFrom rest (List.length raw)) < List.length rest) /\
       exists r,
         stripVariantsWith re token = Ok r /\
         forall fuel, List.length token <= fuel -> stripLoop fuel re [] token [] = Ok r) /\
  (forall (input : jsstring) (opts : FormatOptions),
     finishes (formatClasses input opts) /\ finishes (categorize input opts)).
Proof.
  split.
  - intros variants token. exists (variantRegExp variants).
    split; [apply makeVariantRegex_ok|]. split; [|split].
    + intros rest raw H. apply variant_match_shape in H as [label [rest' [_ ->]]].
      exists label. split; [reflexivity|]. rewrite length_app. simpl. lia.
    + intros rest raw H. apply variant_match_shape in H as [label [rest' [-> ->]]].
      unfold sliceFrom.
      replace (label ++ ":"%char :: rest') with ((label ++ [":"%char]) ++ rest')
        by (now rewrite <- app_assoc).
      rewrite skipn_app, skipn_all, Nat.sub_diag. cbn [skipn app].
      rewrite !length_app. simpl. lia.
    + destruct (stripVariantsWith_returns variants token) as [r Hr].
      exists r. split; [assumption|]. intros fuel Hf.
      eapply stripLoop_more_fuel; eassumption.
  - intros input opts. split; [apply formatClasses_finishes|apply categorize_finishes].
Qed.

(** ** Order inside a bucket *)

Section SortFacts.
Context {A : Type} (cmp : A -> A -> Z).

Lemma insertSorted_In x y l : In y (insertSorted cmp x l) <-> y = x \/ In y l.
Proof.
  split; intros H.
  - apply (Permutation_in _ (insertSorted_perm cmp x l)) in H. destruct H; auto.
  - apply (Permutation_in _ (Permutation_sym (insertSorted_perm cmp x l))).
    destruct H; [left; auto|now right].
Qed.

Lemma sort_In y l : In y (sort cmp l) <-> In y l.
Proof.
  split; intros H.
  - now apply (Permutation_in _ (sort_perm cmp l)).
  - now apply (Permutation_in _ (Permutation_sym (sort_perm cmp l))).
Qed.

Hypothesis cmp_total : forall x y, (0 < cmp x y)%Z -> (cmp y x <= 0)%Z.
Hypothesis cmp_trans : forall x y z, (cmp x y <= 0)%Z -> (cmp y z <= 0)%Z -> (cmp x z <= 0)%Z.

Lemma insertSorted_sorted x l :
  StronglySorted (cmpLe cmp) l -> StronglySorted (cmpLe cmp) (insertSorted cmp x l).
Proof.
  induction 1 as [|y l Hs IH Hall]; simpl.
  - constructor; constructor.
  - destruct (cmp x y <=? 0)%Z eqn:E.
    + apply Z.leb_le in E. constructor; [constructor; assumption|].
      constructor; [exact E|].
      rewrite Forall_forall in *. intros z Hz. eapply cmp_trans; [exact E|]. now apply Hall.
    + apply Z.leb_gt in E. constructor; [assumption|].
      rewrite Forall_forall in *. intros z Hz. apply insertSorted_In in Hz as [->|Hz].
      * now apply cmp_total.
      * now apply Hall.
Qed.

Lemma sort_sorted l : StronglySorted (cmpLe cmp) (sort cmp l).
Proof.
  induction l as [|x l IH]; simpl; [constructor|]. now apply insertSorted_sorted.
Qed.
End SortFacts.

Section SortMore.
Context {A : Type}.

Lemma insertSorted_head (cmp : A -> A -> Z) x l :
  Forall (cmpLe cmp x) l -> insertSorted cmp x l = x :: l.
Proof.
  destruct 1 as [|y l Hy _]; simpl; [reflexivity|].
  unfold cmpLe in Hy. apply Z.leb_le in Hy. now rewrite Hy.
Qed.

Lemma sort_sorted_id (cmp : A -> A -> Z) l :
  StronglySorted (cmpLe cmp) l -> sort cmp l = l.
Proof.
  induction 1 as [|x l Hs IH Hall]; simpl; [reflexivity|].
  rewrite IH. now apply insertSorted_head.
Qed.

Lemma insertSorted_ext (c1 c2 : A -> A -> Z) x l :
  (forall y, In y l -> c1 x y = c2 x y) -> insertSorted c1 x l = insertSorted c2 x l.
Proof.
  induction l as [|y l IH]; intros H; simpl; [reflexivity|].
  rewrite (H y) by now left. rewrite IH by (intros; apply H; now right). reflexivity.
Qed.

Lemma sort_ext (c1 c2 : A -> A -> Z) l :
  (forall x y, In x l -> In y l -> c1 x y = c2 x y) -> sort c1 l = sort c2 l.
Proof.
  induction l as [|x l IH]; intros H; simpl; [reflexivity|].
  rewrite IH by (intros; apply H; now right).
  apply insertSorted_ext. intros y Hy. apply sort_In in Hy.
  apply H; [now left|now right].
Qed.

Lemma insertSorted_map {B} (g : B -> A) (cmp : A -> A -> Z) x l :
  insertSorted cmp (g x) (map g l) = map g (insertSorted (fun a b => cmp (g a) (g b)) x l).
Proof.
  induction l as [|y l IH]; simpl; [reflexivity|].
  destruct (cmp (g x) (g y) <=? 0)%Z; simpl; [reflexivity|]. now rewrite IH.
Qed.

Lemma sort_map {B} (g : B -> A) (cmp : A -> A -> Z) l :
  sort cmp (map g l) = map g (sort (fun a b => cmp (g a) (g b)) l).
Proof.
  induction l as [|x l IH]; simpl; [reflexivity|].
  now rewrite IH, insertSorted_map.
Qed.
End SortMore.

(** ** The comparator *)

Lemma compareParsed_keys a b : compareParsed a b = compareKeys (parsedKey a) (parsedKey b).
Proof. reflexivity. Qed.

Lemma compareKeys_total a b : (0 < compareKeys a b)%Z -> (compareKeys b a <= 0)%Z.
Proof.
  destruct a as [[a1 a2] a3], b as [[b1 b2] b3]. unfold compareKeys.
  destruct (a1 - b1 =? 0)%Z eqn:E1, (b1 - a1 =? 0)%Z eqn:F1;
  destruct (a2 - b2 =? 0)%Z eqn:E2, (b2 - a2 =? 0)%Z eqn:F2; cbn [negb];
  rewrite ?Z.eqb_eq, ?Z.eqb_neq in *; lia.
Qed.

Lemma compareKeys_trans a b c :
  (compareKeys a b <= 0)%Z -> (compareKeys b c <= 0)%Z -> (compareKeys a c <= 0)%Z.
Proof.
  destruct a as [[a1 a2] a3], b as [[b1 b2] b3], c as [[c1 c2] c3]. unfold compareKeys.
  destruct (a1 - b1 =? 0)%Z eqn:E1, (b1 - c1 =? 0)%Z eqn:F1, (a1 - c1 =? 0)%Z eqn:G1;
  destruct (a2 - b2 =? 0)%Z eqn:E2, (b2 - c2 =? 0)%Z eqn:F2, (a2 - c2 =? 0)%Z eqn:G2;
  cbn [negb]; rewrite ?Z.eqb_eq, ?Z.eqb_neq in *; lia.
Qed.

(** ** Parsed items, token by token *)

Lemma jsstring_eqb_refl a : jsstring_eqb a a = true.
Proof. now apply jsstring_eqb_eq. Qed.

Lemma jsstring_eqb_neq a b : jsstring_eqb a b = false <-> a <> b.
Proof.
  split.
  - intros H E. apply jsstring_eqb_eq in E. congruence.
  - intros H. destruct (jsstring_eqb a b) eqn:E; [|reflexivity].
    apply jsstring_eqb_eq in E. contradiction.
Qed.

Lemma parseToken_fields tw t i p :
  parseToken (variantRegExp (tw_variants tw)) tw t i = Ok p ->
  p_token p = t /\ p_idx p = i /\
  p_sVar p = variantScoreOf tw t /\ p_sBase p = baseScoreOf tw t /\
  tokenGroup tw t = Ok (p_group p).
Proof.
  unfold parseToken. intros H.
  apply bind_Ok in H as [sv [Hsv H]]. apply bind_Ok in H as [g [Hg H]].
  injection H as <-. cbn.
  unfold variantScoreOf, baseScoreOf, strippedOf. rewrite Hsv.
  repeat split; try reflexivity. apply tokenGroup_spec. eauto.
Qed.

Lemma parseTokens_find tw T : forall i ps,
  parseTokens (variantRegExp (tw_variants tw)) tw i T = Ok ps ->
  forall t, In t T ->
  exists p,
    find (fun p => jsstring_eqb (p_token p) t) ps = Some p /\
    parseToken (variantRegExp (tw_variants tw)) tw t (i + Z.of_nat (firstIndex T t))%Z = Ok p.
Proof.
  induction T as [|x T IH]; intros i ps H t Hin; [contradiction|].
  simpl in H. apply bind_Ok in H as [p0 [Hp0 H]]. apply bind_Ok in H as [ps' [Hps H]].
  injection H as <-.
  destruct (parseToken_fields _ _ _ _ Hp0) as [Htok _].
  cbn [find firstIndex]. rewrite Htok.
  destruct (jsstring_eqb x t) eqn:E.
  - apply jsstring_eqb_eq in E. exists p0. split; [reflexivity|].
    cbn [Z.of_nat]. rewrite Z.add_0_r. congruence.
  - destruct Hin as [->|Hin]; [now rewrite jsstring_eqb_refl in E|].
    destruct (IH _ _ Hps t Hin) as [p [Hf Hp]]. exists p. split; [assumption|].
    replace (i + Z.of_nat (S (firstIndex T t)))%Z
      with (i + 1 + Z.of_nat (firstIndex T t))%Z by lia.
    exact Hp.
Qed.

Lemma itemOf_fields tw T ps t :
  parseTokens (variantRegExp (tw_variants tw)) tw 0%Z T = Ok ps ->
  In t T ->
  findParsed ps t = Ok (itemOf ps t) /\
  p_token (itemOf ps t) = t /\
  parsedKey (itemOf ps t) = tokenKey tw T t /\
  tokenGroup tw t = Ok (p_group (itemOf ps t)).
Proof.
  intros Hps Hin. destruct (parseTokens_find _ _ _ _ Hps t Hin) as [p [Hf Hp]].
  unfold findParsed, itemOf. rewrite Hf.
  destruct (parseToken_fields _ _ _ _ Hp) as [H1 [H2 [H3 [H4 H5]]]].
  repeat split; try assumption.
  unfold parsedKey, tokenKey. now rewrite H2, H3, H4.
Qed.

Lemma findParsed_items ps arr items :
  mapM (findParsed ps) arr = Ok items -> items = map (itemOf ps) arr.
Proof.
  intros H. apply mapM_Ok in H. induction H as [|t p arr items Hf _ IH]; [reflexivity|].
  simpl. rewrite <- IH. f_equal. unfold findParsed in Hf. unfold itemOf.
  destruct (find _ ps); [now injection Hf|discriminate].
Qed.

Lemma map_id_on {A} (f : A -> A) l : (forall x, In x l -> f x = x) -> map f l = l.
Proof.
  induction l as [|x l IH]; intros H; simpl; [reflexivity|].
  rewrite H by now left. rewrite IH by (intros; apply H; now right). reflexivity.
Qed.

(** The sort of a bucket, read on the tokens. *)
Lemma bucket_sorted_tokens tw T ps arr items :
  parseTokens (variantRegExp (tw_variants tw)) tw 0%Z T = Ok ps ->
  (forall t, In t arr -> In t T) ->
  mapM (findParsed ps) arr = Ok items ->
  map p_token (sort compareParsed items) = sort (compareTokens tw T) arr.
Proof.
  intros Hps Harr Hitems. rewrite (findParsed_items _ _ _ Hitems).
  rewrite sort_map, map_map.
  rewrite (sort_ext _ (compareTokens tw T)).
  - apply map_id_on. intros t Ht. apply sort_In in Ht.
    now destruct (itemOf_fields _ _ _ t Hps (Harr t Ht)) as [_ [H _]].
  - intros x y Hx Hy. rewrite compareParsed_keys. unfold compareTokens.
    destruct (itemOf_fields _ _ _ x Hps (Harr x Hx)) as [_ [_ [-> _]]].
    destruct (itemOf_fields _ _ _ y Hps (Harr y Hy)) as [_ [_ [-> _]]].
    reflexivity.
Qed.

Lemma members_filter tw T : forall i ps k,
  parseTokens (variantRegExp (tw_variants tw)) tw i T = Ok ps ->
  members k ps = filter (inGroup tw k) T.
Proof.
  induction T as [|x T IH]; intros i ps k H; simpl in H.
  - now injection H as <-.
  - apply bind_Ok in H as [p0 [Hp0 H]]. apply bind_Ok in H as [ps' [Hps H]].
    injection H as <-.
    destruct (parseToken_fields _ _ _ _ Hp0) as [Htok [_ [_ [_ Hg]]]].
    assert (Hk : inGroup tw k x = GroupKey_eqb (p_group p0) k)
      by (unfold inGroup; now rewrite Hg).
    rewrite members_cons, (IH _ _ k Hps). cbn [filter]. rewrite Hk, Htok. reflexivity.
Qed.

(** What [formatClasses] leaves in the bucket of [k]: the tokens of the
    input classified into [k], in the stable order of the key made of the
    variant score, the base score and the index of the first occurrence of
    the token. *)
Lemma sortedBuckets_exact input opts buckets :
  sortedBuckets input opts = Ok buckets ->
  forall k, In k (effectiveOrder opts) \/ k = misc ->
    Map_get buckets k
    = Some (sort (compareTokens (tailwind opts) (splitTokens input))
              (filter (inGroup (tailwind opts) k) (splitTokens input))).
Proof.
  unfold sortedBuckets. fold (effectiveOrder opts).
  rewrite makeVariantRegex_ok. cbn [bind]. intros H k Hk.
  apply bind_Ok in H as [ps [Hps H]]. apply bind_Ok in H as [b1 [Hb1 H]].
  apply initBuckets_has in Hk.
  pose proof (distribute_get _ _ _ Hb1 k) as Hget. rewrite Hk in Hget.
  cbn [option_map app] in Hget.
  destruct (sortLoop_get ps b1 b1 buckets) as [Hsorted _].
  { eapply distribute_NoDup; [eassumption|apply initBuckets_NoDup]. }
  { assumption. }
  destruct (Hsorted k _ (Map_get_In _ _ _ Hget)) as [items [Hitems ->]].
  f_equal. rewrite (members_filter _ _ _ _ k Hps) in Hitems.
  apply (bucket_sorted_tokens _ _ _ _ _ Hps); [|exact Hitems].
  intros t Ht. now apply filter_In in Ht.
Qed.

(** ** First occurrences *)

Lemma firstIndex_app_in l1 l2 t : In t l1 -> firstIndex (l1 ++ l2) t = firstIndex l1 t.
Proof.
  induction l1 as [|x l1 IH]; intros H; [contradiction|]. simpl.
  destruct (jsstring_eqb x t) eqn:E; [reflexivity|].
  destruct H as [->|H]; [now rewrite jsstring_eqb_refl in E|]. now rewrite IH.
Qed.

Lemma firstIndex_app_notin l1 l2 t :
  ~ In t l1 -> firstIndex (l1 ++ l2) t = List.length l1 + firstIndex l2 t.
Proof.
  induction l1 as [|x l1 IH]; intros H; [reflexivity|]. simpl.
  destruct (jsstring_eqb x t) eqn:E.
  - apply jsstring_eqb_eq in E. subst. exfalso. apply H. now left.
  - rewrite IH; [reflexivity|]. intros Hin. apply H. now right.
Qed.

Lemma firstIndex_lt l t : In t l -> firstIndex l t < List.length l.
Proof.
  induction l as [|x l IH]; intros H; [contradiction|]. simpl.
  destruct (jsstring_eqb x t) eqn:E; [lia|].
  destruct H as [->|H]; [now rewrite jsstring_eqb_refl in E|].
  apply IH in H. lia.
Qed.

Lemma firstIndex_inj l x y :
  In x l -> In y l -> firstIndex l x = firstIndex l y -> x = y.
Proof.
  induction l as [|z l IH]; intros Hx Hy H; [contradiction|]. simpl in H.
  destruct (jsstring_eqb z x) eqn:Ex, (jsstring_eqb z y) eqn:Ey; try discriminate.
  - apply jsstring_eqb_eq in Ex, Ey. congruence.
  - destruct Hx as [->|Hx]; [now rewrite jsstring_eqb_refl in Ex|].
    destruct Hy as [->|Hy]; [now rewrite jsstring_eqb_refl in Ey|].
    apply IH; auto.
Qed.

Lemma jsstring_eq_dec (a b : jsstring) : {a = b} + {a <> b}.
Proof. apply list_eq_dec, ascii_dec. Defined.

(** ** Sorted lists, by position *)

Lemma StronglySorted_before {A} (R : A -> A -> Prop) l1 x l2 :
  StronglySorted R (l1 ++ x :: l2) -> Forall (fun y => R y x) l1 /\ Forall (R x) l2.
Proof.
  induction l1 as [|z l1 IH]; simpl; intros H; inversion H as [|? ? Hs Hall]; subst.
  - split; [constructor|assumption].
  - destruct (IH Hs) as [H1 H2]. split; [|assumption].
    constructor; [|assumption].
    rewrite Forall_forall in Hall. apply Hall. apply in_or_app. right. now left.
Qed.

Lemma StronglySorted_by_position {A} (R : A -> A -> Prop) l :
  (forall l1 x l2 y, l = l1 ++ x :: l2 -> In y l2 -> R x y) -> StronglySorted R l.
Proof.
  induction l as [|x l IH]; intros H; constructor.
  - apply IH. intros l1 z l2 y E Hy. apply (H (x :: l1) z l2 y); [|assumption].
    simpl. now rewrite E.
  - apply Forall_forall. intros y Hy. now apply (H [] x l y).
Qed.

(** A bucket sorted for the input stays sorted when its tokens are read
    again as a block of a longer list: the first two parts of the key are
    those of the token, and first occurrences keep their order. *)
Lemma sorted_block_stays_sorted tw T1 pre L post :
  StronglySorted (cmpLe (compareTokens tw T1)) L ->
  (forall t, In t L -> In t T1) ->
  (forall t, In t L -> ~ In t pre) ->
  StronglySorted (cmpLe (compareTokens tw (pre ++ L ++ post))) L.
Proof.
  intros Hs HT Hpre. apply StronglySorted_by_position.
  intros L1 x L2 y E Hy. rewrite E in Hs.
  destruct (StronglySorted_before _ _ _ _ Hs) as [Hbefore Hafter].
  rewrite Forall_forall in Hbefore, Hafter.
  pose proof (Hafter y Hy) as Hxy.
  assert (HxL : In x L) by (rewrite E; apply in_or_app; right; now left).
  assert (HyL : In y L) by (rewrite E; apply in_or_app; right; now right).
  unfold cmpLe, compareTokens, tokenKey, compareKeys in Hxy |- *.
  destruct (variantScoreOf tw x - variantScoreOf tw y =? 0)%Z eqn:Es;
    cbn [negb] in Hxy |- *; [|exact Hxy].
  destruct (baseScoreOf tw x - baseScoreOf tw y =? 0)%Z eqn:Eb;
    cbn [negb] in Hxy |- *; [|exact Hxy].
  apply Z.eqb_eq in Es, Eb.
  rewrite (firstIndex_app_notin pre (L ++ post) x (Hpre x HxL)).
  rewrite (firstIndex_app_notin pre (L ++ post) y (Hpre y HyL)).
  rewrite (firstIndex_app_in L post x HxL), (firstIndex_app_in L post y HyL).
  destruct (jsstring_eq_dec x y) as [->|Hne]; [lia|].
  assert (Hx : firstIndex L x <= List.length L1).
  { rewrite E. destruct (in_dec jsstring_eq_dec x L1) as [Hin|Hnin].
    - rewrite firstIndex_app_in by assumption. apply firstIndex_lt in Hin. lia.
    - rewrite firstIndex_app_notin by assumption. simpl.
      rewrite jsstring_eqb_refl. lia. }
  destruct (in_dec jsstring_eq_dec y L1) as [Hin|Hnin].
  - exfalso. apply Hne. pose proof (Hbefore y Hin) as Hyx.
    unfold cmpLe, compareTokens, tokenKey, compareKeys in Hyx.
    replace (variantScoreOf tw y - variantScoreOf tw x =? 0)%Z with true in Hyx
      by (symmetry; apply Z.eqb_eq; lia).
    replace (baseScoreOf tw y - baseScoreOf tw x =? 0)%Z with true in Hyx
      by (symmetry; apply Z.eqb_eq; lia).
    cbn [negb] in Hyx.
    apply (firstIndex_inj T1); [now apply HT|now apply HT|lia].
  - assert (Hyi : firstIndex L y = List.length L1 + S (firstIndex L2 y)).
    { rewrite E, firstIndex_app_notin by assumption. simpl.
      apply jsstring_eqb_neq in Hne. now rewrite Hne. }
    lia.
Qed.

(** ** The output as a function of the tokens *)

Lemma compareTokens_total tw T x y :
  (0 < compareTokens tw T x y)%Z -> (compareTokens tw T y x <= 0)%Z.
Proof. apply compareKeys_total. Qed.

Lemma compareTokens_trans tw T x y z :
  (compareTokens tw T x y <= 0)%Z -> (compareTokens tw T y z <= 0)%Z ->
  (compareTokens tw T x z <= 0)%Z.
Proof. apply compareKeys_trans. Qed.

Lemma bucketOf_sorted tw T k : StronglySorted (cmpLe (compareTokens tw T)) (bucketOf tw T k).
Proof.
  apply sort_sorted; [apply compareTokens_total|apply compareTokens_trans].
Qed.

Lemma bucketOf_In tw T k t :
  In t (bucketOf tw T k) -> In t T /\ inGroup tw k t = true.
Proof. unfold bucketOf. intros H. apply sort_In in H. now apply filter_In in H. Qed.

Lemma inGroup_unique tw k k' t :
  inGroup tw k t = true -> inGroup tw k' t = true -> k = k'.
Proof.
  unfold inGroup. destruct (tokenGroup tw t) as [g| | |]; try discriminate.
  intros H1 H2. apply GroupKey_eqb_eq in H1, H2. congruence.
Qed.

Lemma inGroup_tokenGroup tw k t : inGroup tw k t = true <-> tokenGroup tw t = Ok k.
Proof.
  unfold inGroup. destruct (tokenGroup tw t) as [g| | |]; split; intros H; try discriminate.
  - apply GroupKey_eqb_eq in H. now subst.
  - injection H as ->. apply GroupKey_eqb_refl.
Qed.

Lemma flatBuckets_exact input opts buckets :
  sortedBuckets input opts = Ok buckets ->
  flatBuckets (effectiveOrder opts) buckets
  = flat_map (bucketOf (tailwind opts) (splitTokens input)) (effectiveOrder opts).
Proof.
  intros H. unfold flatBuckets.
  pose proof (sortedBuckets_exact _ _ _ H) as Hex.
  induction (effectiveOrder opts) as [|k order IH]; [reflexivity|].
  simpl. rewrite (Hex k) by (left; now left).
  rewrite IH; [reflexivity|]. intros k' [Hk'|Hk']; apply Hex; [left; now right|now right].
Qed.

Lemma filter_all {A} (f : A -> bool) l : (forall x, In x l -> f x = true) -> filter f l = l.
Proof.
  induction l as [|x l IH]; intros H; simpl; [reflexivity|].
  rewrite H by now left. rewrite IH by (intros; apply H; now right). reflexivity.
Qed.

Lemma filter_none {A} (f : A -> bool) l : (forall x, In x l -> f x = false) -> filter f l = [].
Proof.
  induction l as [|x l IH]; intros H; simpl; [reflexivity|].
  rewrite H by now left. apply IH. intros; apply H; now right.
Qed.

Lemma other_blocks tw T order k t :
  ~ In k order -> In t (flat_map (bucketOf tw T) order) -> inGroup tw k t = false.
Proof.
  intros Hk Hin. apply in_flat_map in Hin as [k' [Hk' Ht]].
  apply bucketOf_In in Ht as [_ Hg].
  destruct (inGroup tw k t) eqn:E; [|reflexivity].
  rewrite (inGroup_unique _ _ _ _ E Hg) in Hk. contradiction.
Qed.

(** Formatting its own tokens again leaves every bucket as it is. *)
Lemma bucketOf_again tw T order k :
  NoDup order -> In k order ->
  bucketOf tw (flat_map (bucketOf tw T) order) k = bucketOf tw T k.
Proof.
  intros Hnd Hk. apply in_split in Hk as [o1 [o2 ->]].
  apply NoDup_remove_2 in Hnd.
  assert (Hk1 : ~ In k o1) by (intros H; apply Hnd, in_or_app; now left).
  assert (Hk2 : ~ In k o2) by (intros H; apply Hnd, in_or_app; now right).
  rewrite flat_map_app. cbn [flat_map].
  set (pre := flat_map (bucketOf tw T) o1). set (post := flat_map (bucketOf tw T) o2).
  unfold bucketOf at 1. rewrite !filter_app.
  rewrite (filter_none _ pre) by (intros t Ht; now apply (other_blocks tw T o1)).
  rewrite (filter_none _ post) by (intros t Ht; now apply (other_blocks tw T o2)).
  rewrite (filter_all _ (bucketOf tw T k)) by (intros t Ht; now apply bucketOf_In in Ht).
  rewrite app_nil_r. cbn [app].
  apply sort_sorted_id. apply (sorted_block_stays_sorted tw T).
  - apply bucketOf_sorted.
  - intros t Ht. now apply bucketOf_In in Ht.
  - intros t Ht Hpre. apply bucketOf_In in Ht as [_ Hg].
    apply (other_blocks tw T o1 k) in Hpre; [congruence|assumption].
Qed.

(** ** A group without a bucket *)

(** X3, a group without a bucket.  [buckets] has an entry for the keys
    of [groupOrder] and for [misc] only; when every token is classified
    and one of them goes to any other group,
    [buckets.get(item.group)!.push] throws a [TypeError]. *)
Theorem formatClasses_throws_unlisted input opts t g :
  (forall t', In t' (tokenize input) -> exists g', tokenGroup (tailwind opts) t' = Ok g') ->
  In t (tokenize input) ->
  tokenGroup (tailwind opts) t = Ok g ->
  ~ In g (effectiveOrder opts) ->
  g <> misc ->
  formatClasses input opts = Throws TypeError.
Proof.
  intros Hall Ht Hg Hnot Hmisc.
  unfold formatClasses, sortedBuckets. fold (effectiveOrder opts).
  rewrite makeVariantRegex_ok. cbn [bind].
  destruct (parseTokens_total (variantRegExp (tw_variants (tailwind opts)))
              (tailwind opts) (splitTokens input) 0%Z) as [ps Hps].
  { intros t' Ht'. destruct (Hall t' Ht') as [g' Hg'].
    apply tokenGroup_spec in Hg' as [sv [Hsv Hg']]. eauto. }
  rewrite Hps. cbn [bind].
  rewrite distribute_throws; [reflexivity|].
  pose proof (parseTokens_tokens _ _ _ _ _ Hps) as Htok.
  unfold tokenize in Ht. rewrite <- Htok in Ht.
  apply in_map_iff in Ht as [p [Hpt Hin]]. exists p. split; [assumption|].
  destruct (parseTokens_groups _ _ _ _ _ Hps p Hin) as [sv [Hsv Hc]].
  assert (Hg' : tokenGroup (tailwind opts) (p_token p) = Ok (p_group p))
    by (apply tokenGroup_spec; eauto).
  rewrite Hpt, Hg in Hg'. apply outcome_Ok_inj in Hg'. subst g.
  rewrite initBuckets_get.
  destruct (existsb (GroupKey_eqb (p_group p)) (effectiveOrder opts)) eqn:E1.
  - apply existsb_GroupKey in E1. contradiction.
  - destruct (GroupKey_eqb (p_group p) misc) eqn:E2; [|reflexivity].
    apply GroupKey_eqb_eq in E2. contradiction.
Qed.

(** C2, totality, fails.  With [groupOrder: ["layout"]] the token [p-4]
    is classified into [spacing], which has no bucket, and the call
    throws a [TypeError]. *)
Theorem formatClasses_throws_on_unlisted_group :
  formatClasses "p-4" (withOrder [layout]) = Throws TypeError.
Proof. vm_compute. reflexivity. Qed.

Example categorize_returns_on_unlisted_group :
  categorize "p-4" (withOrder [layout]) = Ok [(layout, []); (misc, [])].
Proof. vm_compute. reflexivity. Qed.

(** ** Formatting twice *)

Lemma flat_map_agree {A B} (f g : A -> list B) l :
  (forall a, In a l -> f a = g a) -> flat_map f l = flat_map g l.
Proof.
  induction l as [|a l IH]; intros H; simpl; [reflexivity|].
  rewrite (H a) by now left. rewrite IH by (intros; apply H; now right). reflexivity.
Qed.


Example unclosed_bracket_tokens :
  tokenize "p-4 b]:flex [items-a" = strs ["p-4"; "b]:flex"; "[items-a"] /\
  tokenize "p-4 [items-a b]:flex" = strs ["p-4"; "[items-a b]:flex"].
Proof. vm_compute. split; reflexivity. Qed.

Example unclosed_bracket_groups :
  tokenGroup None "b]:flex" = Ok misc /\ baseScore "b]:flex" = 17%Z /\
  tokenGroup None "[items-a" = Ok misc /\ baseScore "[items-a" = 5%Z /\
  tokenGroup None "[items-a b]:flex" = Ok layout.
Proof. vm_compute. repeat split; reflexivity. Qed.

(** C1, idempotence, fails.  Under the default options the output for
    [p-4 b]:flex [items-a] is [p-4 [items-a b]:flex]: the last token has
    an open bracket and is moved in front of [b]:flex].  Read again, the
    two form one token with the variant [[items-a b]] and the base
    [flex], which goes to [layout], and the second output differs from
    the first. *)
Theorem idempotence_fails_after_unclosed_bracket :
  formatClasses "p-4 b]:flex [items-a" noOptions = Ok (Flat "p-4 [items-a b]:flex") /\
  formatClasses "p-4 [items-a b]:flex" noOptions = Ok (Flat "[items-a b]:flex p-4").
Proof. vm_compute. split; reflexivity. Qed.

Example idempotence_fails_on_repeated_key :
  formatClasses "flex" (withOrder [layout; layout]) = Ok (Flat "flex flex") /\
  formatClasses "flex flex" (withOrder [layout; layout]) = Ok (Flat "flex flex flex flex").
Proof. vm_compute. split; reflexivity. Qed.

(** ** Order inside a bucket *)

(** C4, order inside a bucket, fails.  The three tokens of [p-1 p-2 p-1]
    are in [spacing] with the same variant and base score and the indices
    0, 1, 2, so the composite key orders them [p-1 p-2 p-1]; the output is
    [p-1 p-1 p-2], because the item of a token is looked up by its text
    and the second [p-1] gets the index of the first. *)
Theorem duplicate_token_takes_first_index :
  exists ps,
    parseTokens (variantRegExp None) None 0%Z (tokenize "p-1 p-2 p-1") = Ok ps /\
    map (fun p => (p_group p, p_sVar p, p_sBase p, p_idx p)) ps
      = [(spacing, 9999%Z, 6%Z, 0%Z); (spacing, 9999%Z, 6%Z, 1%Z); (spacing, 9999%Z, 6%Z, 2%Z)] /\
    map p_token (sort compareParsed ps) = strs ["p-1"; "p-2"; "p-1"] /\
    formatClasses "p-1 p-2 p-1" noOptions = Ok (Flat "p-1 p-1 p-2").
Proof.
  eexists. split; [vm_compute; reflexivity|].
  vm_compute. repeat split; reflexivity.
Qed.

(** ** Token conservation *)

(** C3, as stated, fails in two ways.  Under the default options
    [p-4 flex[] becomes [flex[ p-4], which reads back as one token.  With
    [groupOrder: ["layout", "layout"]] the bucket of [layout] is written
    twice and [flex] becomes [flex flex]. *)
Lemma token_conservation_counterexample :
  ((forall t, In t (tokenize "p-4 flex[") ->
      exists g, tokenGroup None t = Ok g /\ In g (effectiveOrder noOptions)) /\
   formatClasses "p-4 flex[" noOptions = Ok (Flat "flex[ p-4") /\
   ~ Permutation (tokenize "p-4 flex[") (tokenize "flex[ p-4")) /\
  ((forall t, In t (tokenize "flex") ->
      exists g, tokenGroup None t = Ok g /\ In g (effectiveOrder (withOrder [layout; layout]))) /\
   formatClasses "flex" (withOrder [layout; layout]) = Ok (Flat "flex flex") /\
   ~ Permutation (tokenize "flex") (tokenize "flex flex")).
Proof.
  split; (split; [|split]).
  - intros t [<-|[<-|[]]]; eexists; (split; [vm_compute; reflexivity|]);
      cbn; tauto.
  - vm_compute. reflexivity.
  - intros H. apply Permutation_length in H. vm_compute in H. discriminate.
  - intros t [<-|[]]; eexists; (split; [vm_compute; reflexivity|]); cbn; tauto.
  - vm_compute. reflexivity.
  - intros H. apply Permutation_length in H. vm_compute in H. discriminate.
Qed.

(** ** Instances *)

Lemma DEFAULT_ORDER_NoDup : NoDup DEFAULT_ORDER.
Proof.
  unfold DEFAULT_ORDER.
  repeat (constructor; [cbn; intuition discriminate|]). constructor.
Defined.

(** An instance of C3 as amended, with a bracketed value that contains a space. *)
Lemma token_conservation_witness :
  exists out,
    formatClasses "text-red-500 bg-[url(a b)] flex" noOptions = Ok (Flat out) /\
    Permutation (tokenize "text-red-500 bg-[url(a b)] flex") (tokenize out).
Proof.
  apply (token_conservation_amended "text-red-500 bg-[url(a b)] flex" noOptions).
  - exact DEFAULT_ORDER_NoDup.
  - vm_compute. reflexivity.
  - discriminate.
  - intros t [<-|[<-|[<-|[]]]]; eexists; (split; [vm_compute; reflexivity|]);
      cbn; tauto.
Defined.


(** An instance of C6, at the bracket of [bg-[var(--a, --b)]]. *)
Lemma bracket_atomicity_witness :
  exists body post y later,
    ("var(--a, --b)] p-2" : jsstring) = body ++ "]"%char :: post /\
    balanced body = true /\
    tokenize "flex bg-[var(--a, --b)] p-2" =
      out (scan splitInit "flex bg-")
      ++ (cur (scan splitInit "flex bg-") ++ "["%char :: body ++ "]"%char :: y) :: later.
Proof.
  apply (bracket_atomicity "flex bg-[var(--a, --b)] p-2").
  - vm_compute. reflexivity.
  - reflexivity.
Defined.

(** An instance of C7: [misc] is present although [groupOrder] is [["layout"]]. *)
Lemma group_coverage_witness :
  categorize "flex p-4 zzz" (withOrder [layout])
    = Ok [(layout, strs ["flex"]); (misc, strs ["zzz"])] /\
  Map_get [(layout, strs ["flex"]); (misc, strs ["zzz"])] layout
    = Some (filter (inGroup None layout) (tokenize "flex p-4 zzz")) /\
  Map_get [(layout, strs ["flex"]); (misc, strs ["zzz"])] misc
    = Some (filter (inGroup None misc) (tokenize "flex p-4 zzz")).
Proof.
  assert (H : categorize "flex p-4 zzz" (withOrder [layout])
              = Ok [(layout, strs ["flex"]); (misc, strs ["zzz"])])
    by (vm_compute; reflexivity).
  split; [exact H|]. split.
  - apply (group_coverage "flex p-4 zzz" (withOrder [layout]) _ H layout).
    left. cbn. tauto.
  - apply (group_coverage "flex p-4 zzz" (withOrder [layout]) _ H misc).
    right. reflexivity.
Defined.

(** An instance of C8, with and without the prefix [tw-]. *)
Lemma prefix_noninterference_witness :
  splitVariants (Some {| prefix := Some ("tw-" : jsstring); variants := None;
                         customUtilities := None |}) "md:hover:tw-p-4"
  = splitVariants (Some {| prefix := None; variants := None;
                           customUtilities := None |}) "md:hover:tw-p-4".
Proof.
  apply prefix_noninterference; reflexivity.
Defined.


Example rules_throw_without_custom_match :
  classifyWithConfig "flex"
    (Some {| prefix := Some ("$'" : jsstring); variants := None;
             customUtilities := Some [CUString "zz"] |})
  = Throws SyntaxError.
Proof. vm_compute. reflexivity. Qed.

Example variants_are_matched_unprefixed :
  splitVariants (Some {| prefix := Some ("tw-" : jsstring); variants := None;
                         customUtilities := None |}) "tw-hover:p-4"
  = Ok {| s_variant := []; s_base := "tw-hover:p-4"; s_variants := [] |}.
Proof. vm_compute. reflexivity. Qed.

(** ** When the calls return *)

(** The patterns of the program text are in the fragment [compile] covers. *)
Lemma literals_compile :
  map (fun re => compile (source re)) (map fst RULES ++ ORDER_HINTS)
  = map (fun re => inr (program re)) (map fst RULES ++ ORDER_HINTS).
Proof. vm_compute. reflexivity. Qed.
Lemma firstRule_returns base rules : exists g, firstRule None base rules = Ok g.
Proof.
  induction rules as [|[r g] rules IH]; simpl; [eauto|].
  destruct (test r base); eauto.
Qed.


(** Without a prefix every token is classified. *)
Lemma tokenGroup_returns tw t : tw_prefix tw = None -> exists g, tokenGroup tw t = Ok g.
Proof.
  intros Hp. unfold tokenGroup. rewrite makeVariantRegex_ok. cbn [bind].
  destruct (stripVariantsWith_returns (tw_variants tw) t) as [sv ->]. cbn [bind].
  unfold classifyWithConfig. rewrite Hp.
  destruct (match tw_customUtilities tw with Some _ => _ | None => _ end); [eauto|].
  apply firstRule_returns.
Qed.

Lemma chunkBuckets_returns order buckets :
  (forall k, In k order -> Map_get buckets k <> None) ->
  exists gs, chunkBuckets order buckets = Ok gs.
Proof.
  intros H. unfold chunkBuckets.
  destruct (mapM_total (fun k => match Map_get buckets k with
                                 | Some g => Ok g
                                 | None => Throws TypeError
                                 end) order) as [all Hall].
  { intros k Hk. destruct (Map_get buckets k) eqn:E; [eauto|]. now apply H in Hk. }
  rewrite Hall. cbn [bind]. eauto.
Qed.

(** [formatClasses] returns as soon as every token is classified into a
    group that is in [groupOrder] or is [misc]. *)
Lemma formatClasses_returns input opts :
  (forall t, In t (tokenize input) ->
     exists g, tokenGroup (tailwind opts) t = Ok g /\
               (In g (effectiveOrder opts) \/ g = misc)) ->
  exists r, formatClasses input opts = Ok r.
Proof.
  intros H. destruct (sortedBuckets_total input opts H) as [buckets Hb].
  unfold formatClasses. fold (effectiveOrder opts). rewrite Hb. cbn [bind].
  destruct (splitPerGroup opts) as [[|]|]; eauto.
  destruct (chunkBuckets_returns (effectiveOrder opts) buckets) as [gs ->]; [|cbn; eauto].
  intros k Hk. rewrite (sortedBuckets_exact _ _ _ Hb k (or_introl Hk)). discriminate.
Qed.

(** X2, totality where it holds.  Under the default group order and
    without a prefix, [formatClasses] returns on every input. *)
Theorem formatClasses_returns_by_default input opts :
  groupOrder opts = None -> tw_prefix (tailwind opts) = None ->
  exists r, formatClasses input opts = Ok r.
Proof.
  intros Ho Hp. apply formatClasses_returns. intros t _.
  destruct (tokenGroup_returns (tailwind opts) t Hp) as [g Hg]. exists g.
  split; [assumption|]. left. unfold effectiveOrder. rewrite Ho.
  destruct g; cbn; tauto.
Qed.

(** The flat output as a function of the tokens of the input. *)
Lemma formatClasses_flat_exact input opts out :
  formatClasses input opts = Ok (Flat out) ->
  out = trim (join " " (flat_map (bucketOf (tailwind opts) (tokenize input))
                          (effectiveOrder opts))).
Proof.
  unfold formatClasses, tokenize. fold (effectiveOrder opts). intros H.
  apply bind_Ok in H as [buckets [Hb H]].
  rewrite <- (flatBuckets_exact _ _ _ Hb).
  destruct (splitPerGroup opts) as [[|]|]; try (now injection H as <-).
  apply bind_Ok in H as [gs [_ H]]. discriminate.
Qed.

(** X4, the order inside a bucket.  Every bucket holds the tokens of its
    group in the order of the key made of the variant score, the base
    score and the index of the first occurrence of the token in the
    input. *)
Theorem bucket_order input opts buckets k l :
  sortedBuckets input opts = Ok buckets ->
  In k (effectiveOrder opts) \/ k = misc ->
  Map_get buckets k = Some l ->
  StronglySorted (cmpLe (compareTokens (tailwind opts) (tokenize input))) l /\
  Permutation l (filter (inGroup (tailwind opts) k) (tokenize input)).
Proof.
  intros Hb Hk Hl. unfold tokenize. rewrite (sortedBuckets_exact _ _ _ Hb k Hk) in Hl.
  injection Hl as <-. split; [apply bucketOf_sorted|apply sort_perm].
Qed.


(** An instance of X2. *)
Lemma formatClasses_returns_witness :
  exists r, formatClasses "md:hover:p-4 zzz [x" noOptions = Ok r.
Proof.
  apply formatClasses_returns_by_default; reflexivity.
Defined.

(** An instance of X3: [p-4] under [groupOrder: ["layout"]]. *)
Lemma formatClasses_throws_witness :
  formatClasses "flex p-4" (withOrder [layout]) = Throws TypeError.
Proof.
  apply (formatClasses_throws_unlisted "flex p-4" (withOrder [layout]) "p-4" spacing).
  - intros t [<-|[<-|[]]]; eexists; vm_compute; reflexivity.
  - vm_compute. tauto.
  - vm_compute. reflexivity.
  - cbn. intuition discriminate.
  - discriminate.
Defined.

(** An instance of X4: the bucket of [spacing] for [p-1 p-2 p-1]. *)
Lemma bucket_order_witness :
  StronglySorted (cmpLe (compareTokens None (tokenize "p-1 p-2 p-1")))
    (strs ["p-1"; "p-1"; "p-2"]) /\
  Permutation (strs ["p-1"; "p-1"; "p-2"])
    (filter (inGroup None spacing) (tokenize "p-1 p-2 p-1")).
Proof.
  apply (bucket_order "p-1 p-2 p-1" noOptions
           [(layout, []); (spacing, strs ["p-1"; "p-1"; "p-2"]); (sizing, []);
            (typography, []); (colors, []); (borders, []); (effects, []);
            (interactivity, []); (accessibility, []); (misc, [])] spacing).
  - vm_compute. reflexivity.
  - left. cbn. tauto.
  - reflexivity.
Defined.

(** * Further properties of the core *)

(** ** Tokens and separators *)

Lemma whitespace_keeps_depth ch d : isWhiteSpace ch = true -> nextDepth d ch = d.
Proof.
  intros Hw. apply nextDepth_other.
  - destruct (Ascii.eqb ch "[") eqn:E; [|reflexivity].
    apply Ascii.eqb_eq in E; subst. discriminate.
  - destruct (Ascii.eqb ch "]") eqn:E; [|reflexivity].
    apply Ascii.eqb_eq in E; subst. discriminate.
Qed.

(** The tokens found so far do not depend on what follows, and the scan
    of the rest does not depend on them. *)
Lemma scan_out s : forall o c d,
  scan {| out := o; cur := c; depth := d |} s
  = {| out := o ++ out (scan {| out := []; cur := c; depth := d |} s);
       cur := cur (scan {| out := []; cur := c; depth := d |} s);
       depth := depth (scan {| out := []; cur := c; depth := d |} s) |}.
Proof.
  induction s as [|ch s IH]; intros o c d.
  - cbn. now rewrite app_nil_r.
  - change (scan ?st (ch :: s)) with (scan (splitStep st ch) s).
    rewrite !splitStep_cases. cbn [out cur depth].
    destruct (isWhiteSpace ch && (nextDepth d ch =? 0)).
    + rewrite IH. rewrite (IH (if truthy c then [] ++ [c] else [])).
      cbn [out cur depth]. destruct (truthy c); cbn [app]; [|reflexivity].
      now rewrite <- app_assoc.
    + rewrite IH. rewrite (IH []). reflexivity.
Qed.

Lemma finish_out o o' c d :
  finish {| out := o ++ o'; cur := c; depth := d |}
  = filter truthy o ++ finish {| out := o'; cur := c; depth := d |}.
Proof.
  unfold finish. cbn [out cur]. destruct (truthy c).
  - now rewrite <- app_assoc, filter_app.
  - now rewrite filter_app.
Qed.

Lemma SplitState_eta st : {| out := out st; cur := cur st; depth := depth st |} = st.
Proof. now destruct st. Qed.

(** X5, a token is never empty and never holds a separator.  Every
    token of [tokenize] is non-empty and has no white space outside
    brackets; when every opening bracket of the input is closed, every
    bracket a token opens is closed inside that token. *)
Theorem tokens_have_no_separator (input t : jsstring) :
  In t (tokenize input) ->
  t <> [] /\
  (exists d, solid 0 t = Some d) /\
  (bracketsClosed input = true -> solid 0 t = Some 0).
Proof.
  unfold tokenize. rewrite splitTokens_scan. unfold finish, bracketsClosed.
  destruct (scan_invariant input splitInit) as [Ho Hc]; [constructor|reflexivity|].
  rewrite Forall_forall in Ho.
  intros Ht. apply filter_In in Ht as [Ht Htr].
  assert (Hne : t <> []) by (intros ->; discriminate).
  split; [exact Hne|].
  destruct (truthy (cur (scan splitInit input))).
  - apply in_app_or in Ht as [Ht|[<-|[]]].
    + destruct (Ho t Ht) as [_ Hs]. split; [now exists 0|now intros _].
    + split; [eexists; exact Hc|]. intros Hd. apply Nat.eqb_eq in Hd. now rewrite Hc, Hd.
  - destruct (Ho t Ht) as [_ Hs]. split; [now exists 0|now intros _].
Qed.

Lemma tokens_have_no_separator_witness :
  ("bg-[a b]" : jsstring) <> [] /\
  (exists d, solid 0 "bg-[a b]" = Some d) /\
  (bracketsClosed "p-4 bg-[a b]" = true -> solid 0 "bg-[a b]" = Some 0).
Proof.
  apply (tokens_have_no_separator "p-4 bg-[a b]" "bg-[a b]").
  vm_compute. right. left. reflexivity.
Defined.

(** X6, joining and splitting again.  Tokens that are non-empty, have
    no white space outside brackets and close their brackets are given
    back, in order, by [tokenize] on their join with single spaces. *)
Theorem tokenize_join_round_trip (ts : list jsstring) :
  Forall wellFormedToken ts -> tokenize (join " " ts) = ts.
Proof.
  intros Hwf. unfold tokenize. now apply retokenize.
Qed.

Lemma tokenize_join_round_trip_witness :
  tokenize (join " " (strs ["p-4"; "bg-[a b]"])) = strs ["p-4"; "bg-[a b]"].
Proof.
  apply (tokenize_join_round_trip (strs ["p-4"; "bg-[a b]"])).
  repeat constructor; discriminate.
Defined.

(** X7, the tokenizer works piece by piece.  When every opening bracket
    of [a] is closed, the tokens of [a], a white space character and [b]
    are the tokens of [a] followed by the tokens of [b]. *)
Theorem tokenize_app (a b : jsstring) (ws : ascii) :
  bracketsClosed a = true -> isWhiteSpace ws = true ->
  tokenize (a ++ ws :: b) = tokenize a ++ tokenize b.
Proof.
  unfold bracketsClosed, tokenize. intros Hd Hw. apply Nat.eqb_eq in Hd.
  rewrite !splitTokens_scan, scan_app.
  change (scan ?st (ws :: b)) with (scan (splitStep st ws) b).
  rewrite splitStep_cases, (whitespace_keeps_depth ws _ Hw), Hd, Hw.
  cbn [andb Nat.eqb]. rewrite scan_out, finish_out, SplitState_eta.
  reflexivity.
Qed.

Lemma tokenize_app_witness :
  tokenize ("p-4 bg-[a b]" ++ " "%char :: "m-1") = tokenize "p-4 bg-[a b]" ++ tokenize "m-1".
Proof.
  apply (tokenize_app "p-4 bg-[a b]" "m-1" " "%char); vm_compute; reflexivity.
Defined.

Lemma blank_scan s : forall st,
  (forall ch, In ch s -> isWhiteSpace ch = true) ->
  depth st = 0 -> cur st = [] ->
  scan st s = st.
Proof.
  induction s as [|ch s IH]; intros st Hs Hd Hc; [reflexivity|].
  change (scan st (ch :: s)) with (scan (splitStep st ch) s).
  assert (Hw : isWhiteSpace ch = true) by (apply Hs; now left).
  rewrite splitStep_cases, (whitespace_keeps_depth ch _ Hw), Hd, Hw, Hc.
  cbn [andb Nat.eqb truthy].
  rewrite IH; [|intros; apply Hs; now right|reflexivity|reflexivity].
  destruct st; cbn in *; now subst.
Qed.

Lemma blank_tokens s :
  (forall ch, In ch s -> isWhiteSpace ch = true) -> splitTokens s = [].
Proof.
  intros Hs. rewrite splitTokens_scan, blank_scan; auto.
Qed.

(** ** The two shapes of the result *)

Lemma mapM_map {A B} (f : A -> outcome B) (g : A -> B) l :
  (forall a, In a l -> f a = Ok (g a)) -> mapM f l = Ok (map g l).
Proof.
  induction l as [|a l IH]; intros H; [reflexivity|].
  cbn [mapM map]. rewrite (H a (or_introl eq_refl)). cbn [bind].
  rewrite IH; [reflexivity|]. intros; apply H; now right.
Qed.

Lemma chunkBuckets_exact input opts buckets :
  sortedBuckets input opts = Ok buckets ->
  chunkBuckets (effectiveOrder opts) buckets
  = Ok (filter (fun g => negb (List.length g =? 0))
          (map (bucketOf (tailwind opts) (splitTokens input)) (effectiveOrder opts))).
Proof.
  intros Hb. unfold chunkBuckets.
  rewrite (mapM_map _ (bucketOf (tailwind opts) (splitTokens input))); [reflexivity|].
  intros k Hk. now rewrite (sortedBuckets_exact _ _ _ Hb k (or_introl Hk)).
Qed.

Lemma sortedBuckets_returns_iff input opts :
  (exists buckets, sortedBuckets input opts = Ok buckets) <->
  (exists r, formatClasses input opts = Ok r).
Proof.
  unfold formatClasses. fold (effectiveOrder opts). split.
  - intros [buckets Hb]. rewrite Hb. cbn [bind].
    destruct (splitPerGroup opts) as [[|]|]; eauto.
    rewrite (chunkBuckets_exact _ _ _ Hb). cbn [bind]. eauto.
  - intros [r H]. apply bind_Ok in H as [buckets [Hb _]]. eauto.
Qed.

(** Joining the joined groups is joining all their elements. *)
Lemma join_app sep (l1 l2 : list jsstring) :
  l1 <> [] -> l2 <> [] -> join sep (l1 ++ l2) = join sep l1 ++ sep ++ join sep l2.
Proof.
  intros H1 H2. induction l1 as [|x l1 IH]; [contradiction|].
  destruct l1 as [|y l1].
  - destruct l2; [contradiction|reflexivity].
  - change (join sep ((x :: y :: l1) ++ l2)) with (x ++ sep ++ join sep ((y :: l1) ++ l2)).
    rewrite IH by discriminate.
    change (join sep (x :: y :: l1)) with (x ++ sep ++ join sep (y :: l1)).
    now rewrite <- !app_assoc.
Qed.

Lemma concat_no_chunk (gs : list (list jsstring)) :
  filter (fun g => negb (List.length g =? 0)) gs = [] -> List.concat gs = [].
Proof.
  induction gs as [|g gs IH]; [reflexivity|].
  cbn [filter]. destruct g; [exact IH|discriminate].
Qed.

Lemma concat_some_chunk (gs : list (list jsstring)) g' gs' :
  filter (fun g => negb (List.length g =? 0)) gs = g' :: gs' -> List.concat gs <> [].
Proof.
  intros E Hc.
  assert (Hin : In g' (filter (fun g => negb (List.length g =? 0)) gs))
    by (rewrite E; now left).
  apply filter_In in Hin as [Hin Hl].
  destruct g' as [|z g']; [discriminate|].
  assert (H : In z (List.concat gs))
    by (apply in_concat; exists (z :: g'); split; [assumption|now left]).
  now rewrite Hc in H.
Qed.

Lemma join_cons sep (x : jsstring) l :
  l <> [] -> join sep (x :: l) = x ++ sep ++ join sep l.
Proof. destruct l; [contradiction|reflexivity]. Qed.

Lemma join_chunks sep (gs : list (list jsstring)) :
  join sep (map (join sep) (filter (fun g => negb (List.length g =? 0)) gs))
  = join sep (List.concat gs).
Proof.
  induction gs as [|g gs IH]; [reflexivity|].
  cbn [filter List.concat]. destruct g as [|x g]; [exact IH|].
  cbn [List.length Nat.eqb negb].
  destruct (filter (fun g => negb (List.length g =? 0)) gs) as [|g' gs'] eqn:E.
  - rewrite (concat_no_chunk _ E), app_nil_r. reflexivity.
  - rewrite map_cons, join_cons by discriminate. rewrite IH.
    rewrite join_app; [reflexivity|discriminate|exact (concat_some_chunk _ _ _ E)].
Qed.

Lemma flat_map_nil {A B} (l : list A) : flat_map (fun _ => @nil B) l = [].
Proof. induction l; [reflexivity|assumption]. Qed.

(** X8, blank input.  An input of white space only (the empty input
    included) has no token, and [formatClasses] returns the empty string,
    or the empty array under [splitPerGroup: true], whatever the other
    options are. *)
Theorem blank_input (input : jsstring) (opts : FormatOptions) :
  (forall ch, In ch input -> isWhiteSpace ch = true) ->
  tokenize input = [] /\
  formatClasses input opts
  = Ok (match splitPerGroup opts with Some true => Chunks [] | _ => Flat [] end).
Proof.
  intros Hs. pose proof (blank_tokens input Hs) as Ht. split; [exact Ht|].
  destruct (sortedBuckets_total input opts) as [buckets Hb].
  { rewrite Ht. intros t []. }
  unfold formatClasses. fold (effectiveOrder opts). rewrite Hb. cbn [bind].
  rewrite (chunkBuckets_exact _ _ _ Hb), (flatBuckets_exact _ _ _ Hb), Ht. cbn [bind].
  unfold bucketOf. cbn [filter sort].
  rewrite flat_map_nil.
  assert (Hf : filter (fun g : list jsstring => negb (List.length g =? 0))
                 (map (fun _ : GroupKey => []) (effectiveOrder opts)) = []).
  { induction (effectiveOrder opts); [reflexivity|assumption]. }
  rewrite Hf. now destruct (splitPerGroup opts) as [[|]|].
Qed.

Lemma blank_input_witness :
  tokenize "  " = [] /\
  formatClasses "  " (withSplit (Some true) noOptions) = Ok (Chunks []).
Proof.
  apply (blank_input "  " (withSplit (Some true) noOptions)).
  intros ch [<-|[<-|[]]]; reflexivity.
Defined.





(** ** [categorize], key by key *)

Lemma categorize_exact input opts ordered :
  categorize input opts = Ok ordered ->
  forall k,
    Map_get ordered k
    = if existsb (GroupKey_eqb k) (effectiveOrder opts) || GroupKey_eqb k misc
      then Some (filter (inGroup (tailwind opts) k) (splitTokens input))
      else None.
Proof.
  unfold categorize. fold (effectiveOrder opts). rewrite makeVariantRegex_ok. cbn [bind].
  intros H k. apply bind_Ok in H as [map1 [Hmap H]]. injection H as <-.
  pose proof (categorizeLoop_spec _ _ _ _ Hmap) as Hspec. cbn [app] in Hspec.
  unfold Map_has.
  destruct (Map_get (fold_left _ (effectiveOrder opts) []) misc) eqn:Em; cbn [negb].
  - rewrite fold_assign_get in *. cbn [Map_get] in Em.
    destruct (existsb (GroupKey_eqb misc) (effectiveOrder opts)) eqn:E; [|discriminate].
    destruct (existsb (GroupKey_eqb k) (effectiveOrder opts)) eqn:Ek; cbn [orb].
    + now rewrite Hspec.
    + destruct (GroupKey_eqb k misc) eqn:Ekm; [|reflexivity].
      apply GroupKey_eqb_eq in Ekm. subst k. congruence.
  - rewrite Map_get_set, fold_assign_get. cbn [Map_get].
    rewrite (GroupKey_eqb_sym misc k).
    destruct (GroupKey_eqb k misc) eqn:E.
    + apply GroupKey_eqb_eq in E. subst k. rewrite orb_true_r. now rewrite Hspec.
    + rewrite orb_false_r. destruct (existsb (GroupKey_eqb k) (effectiveOrder opts));
        [now rewrite Hspec|reflexivity].
Qed.

Lemma categorizeLoop_returns tw tokens : forall map0,
  (forall t, In t tokens -> exists g, tokenGroup tw t = Ok g) ->
  exists map1, categorizeLoop (variantRegExp (tw_variants tw)) tw tokens map0 = Ok map1.
Proof.
  induction tokens as [|t tokens IH]; intros map0 H; [cbn; eauto|].
  destruct (H t (or_introl eq_refl)) as [g Hg].
  apply tokenGroup_spec in Hg as [sv [Hsv Hg]].
  cbn [categorizeLoop]. rewrite Hsv. cbn [bind]. rewrite Hg. cbn [bind].
  apply IH. intros; apply H; now right.
Qed.

Lemma categorizeLoop_classified tw tokens : forall map0 map1,
  categorizeLoop (variantRegExp (tw_variants tw)) tw tokens map0 = Ok map1 ->
  forall t, In t tokens -> exists g, tokenGroup tw t = Ok g.
Proof.
  induction tokens as [|t tokens IH]; intros map0 map1 H t' Hin'; [destruct Hin'|].
  destruct Hin' as [<-|Hin]; cbn [categorizeLoop] in H;
    apply bind_Ok in H as [sv [Hsv H]]; apply bind_Ok in H as [g [Hg H]].
  - exists g. apply tokenGroup_spec. eauto.
  - eapply IH; eassumption.
Qed.

Lemma categorize_returns_iff input opts :
  (exists ordered, categorize input opts = Ok ordered) <->
  (forall t, In t (splitTokens input) -> exists g, tokenGroup (tailwind opts) t = Ok g).
Proof.
  unfold categorize. rewrite makeVariantRegex_ok. cbn [bind]. split.
  - intros [ordered H]. apply bind_Ok in H as [map1 [Hmap _]].
    eapply categorizeLoop_classified; eassumption.
  - intros H.
    destruct (categorizeLoop_returns (tailwind opts) (splitTokens input) (fun _ => []) H)
      as [map1 ->].
    cbn [bind]. eauto.
Qed.

(** X10, [categorize] returns, with the keys of the order and [misc].
    Without a configured prefix [categorize] returns for every input and
    every [groupOrder], and the keys of its result are exactly the keys
    of the effective order and [misc]. *)
Theorem categorize_returns_for_every_order (input : jsstring) (opts : FormatOptions) :
  tw_prefix (tailwind opts) = None ->
  exists ordered,
    categorize input opts = Ok ordered /\
    forall k, Map_get ordered k <> None <-> (In k (effectiveOrder opts) \/ k = misc).
Proof.
  intros Hp.
  destruct (proj2 (categorize_returns_iff input opts)) as [ordered H].
  { intros t _. now apply tokenGroup_returns. }
  exists ordered. split; [exact H|]. intros k.
  rewrite (categorize_exact _ _ _ H k).
  destruct (existsb (GroupKey_eqb k) (effectiveOrder opts)) eqn:E; cbn [orb].
  - apply existsb_GroupKey in E. split; [tauto|discriminate].
  - destruct (GroupKey_eqb k misc) eqn:Em.
    + apply GroupKey_eqb_eq in Em. split; [tauto|discriminate].
    + apply GroupKey_eqb_neq in Em. split; [congruence|].
      intros [Hin|Heq]; [|contradiction].
      apply existsb_GroupKey in Hin. congruence.
Qed.

Lemma categorize_returns_for_every_order_witness :
  exists ordered,
    categorize "p-4 flex" (withOrder [spacing]) = Ok ordered /\
    forall k, Map_get ordered k <> None <-> (In k [spacing] \/ k = misc).
Proof.
  apply (categorize_returns_for_every_order "p-4 flex" (withOrder [spacing])).
  reflexivity.
Defined.



(** X12, the calls that return.  [formatClasses] returns a value
    exactly when every token of the input is classified without an error
    into a group that is listed in the effective order or is [misc]. *)
Theorem formatClasses_returns_iff (input : jsstring) (opts : FormatOptions) :
  (exists r, formatClasses input opts = Ok r) <->
  (forall t, In t (tokenize input) ->
     exists g, tokenGroup (tailwind opts) t = Ok g /\
               (In g (effectiveOrder opts) \/ g = misc)).
Proof.
  split; [|apply formatClasses_returns].
  intros Hr. apply sortedBuckets_returns_iff in Hr as [buckets Hb].
  destruct (sortedBuckets_spec _ _ _ Hb) as [ps [Htok [Hg [Hin _]]]].
  intros t Ht. unfold tokenize in Ht. rewrite <- Htok in Ht.
  apply in_map_iff in Ht as [p [<- Hp]].
  exists (p_group p). split; [now apply Hg|now apply Hin].
Qed.

(** ** Every token in one list *)

Lemma filter_partition tw T K :
  NoDup K ->
  (forall t, In t T -> exists g, tokenGroup tw t = Ok g /\ In g K) ->
  Permutation (flat_map (fun k => filter (inGroup tw k) T) K) T.
Proof.
  intros HK HT.
  destruct (parseTokens_total (variantRegExp (tw_variants tw)) tw T 0%Z) as [ps Hps].
  { intros t Ht. destruct (HT t Ht) as [g [Hg _]].
    apply tokenGroup_spec in Hg as [sv [Hsv Hg]]. eauto. }
  rewrite (flat_map_agree _ (fun k => members k ps))
    by (intros k _; symmetry; eapply members_filter; eassumption).
  pose proof (parseTokens_tokens _ _ _ _ _ Hps) as Htok.
  rewrite <- Htok at 1. apply members_partition; [assumption|].
  intros p Hp.
  destruct (parseTokens_groups _ _ _ _ _ Hps p Hp) as [sv [Hsv Hg]].
  assert (Hin : In (p_token p) T) by (rewrite <- Htok; now apply in_map).
  destruct (HT _ Hin) as [g [Hg' HgK]].
  assert (tokenGroup tw (p_token p) = Ok (p_group p)) by (apply tokenGroup_spec; eauto).
  congruence.
Qed.

Lemma Map_set_fresh {V} (m : JsMap V) k v :
  ~ In k (map fst m) -> Map_set m k v = m ++ [(k, v)].
Proof.
  induction m as [|[k' v'] m IH]; intros Hk; [reflexivity|].
  cbn [Map_set]. destruct (GroupKey_eqb k' k) eqn:E.
  - apply GroupKey_eqb_eq in E. subst. exfalso. apply Hk. now left.
  - cbn [app]. rewrite IH; [reflexivity|]. intros Hin. apply Hk. now right.
Qed.

Lemma fold_assign_fresh {V} (f : GroupKey -> V) order : forall (o : JsMap V),
  NoDup order ->
  (forall k, In k order -> ~ In k (map fst o)) ->
  fold_left (fun o k => Map_set o k (f k)) order o = o ++ map (fun k => (k, f k)) order.
Proof.
  induction order as [|k order IH]; intros o Hnd Hfresh; cbn [fold_left map].
  - now rewrite app_nil_r.
  - inversion Hnd as [|? ? Hk Hnd']; subst.
    rewrite Map_set_fresh by (apply Hfresh; now left).
    rewrite IH; [now rewrite <- app_assoc|assumption|].
    intros k' Hk' Hin. rewrite map_app in Hin. apply in_app_or in Hin as [Hin|[<-|[]]].
    + apply (Hfresh k'); [now right|assumption].
    + contradiction.
Qed.

Lemma concat_entries (f : GroupKey -> list jsstring) K :
  List.concat (map snd (map (fun k => (k, f k)) K)) = flat_map f K.
Proof. rewrite map_map. cbn [snd]. now rewrite <- flat_map_concat_map. Qed.

(** X13, [categorize] keeps the tokens.  When [groupOrder] has no
    repeated key and every token is classified into a listed group or
    [misc], the lists of the result of [categorize], put together, are a
    permutation of the tokens of the input. *)
Theorem categorize_partitions (input : jsstring) (opts : FormatOptions)
    (ordered : JsMap (list jsstring)) :
  NoDup (effectiveOrder opts) ->
  categorize input opts = Ok ordered ->
  (forall t g, In t (tokenize input) -> tokenGroup (tailwind opts) t = Ok g ->
     In g (effectiveOrder opts) \/ g = misc) ->
  Permutation (List.concat (map snd ordered)) (tokenize input).
Proof.
  intros Hnd Hc Hall.
  assert (Hcls : forall t, In t (splitTokens input) ->
                   exists g, tokenGroup (tailwind opts) t = Ok g).
  { apply categorize_returns_iff. eauto. }
  revert Hc. unfold categorize. fold (effectiveOrder opts).
  rewrite makeVariantRegex_ok. cbn [bind]. intros Hc.
  apply bind_Ok in Hc as [map1 [Hmap Hc]]. injection Hc as <-.
  pose proof (categorizeLoop_spec _ _ _ _ Hmap) as Hspec. cbn [app] in Hspec.
  rewrite fold_assign_fresh; [|assumption|intros k _ []]. cbn [app].
  unfold Map_has.
  destruct (Map_get (map (fun k => (k, map1 k)) (effectiveOrder opts)) misc) eqn:Em;
    cbn [negb].
  - assert (Hm : In misc (effectiveOrder opts)).
    { apply Map_get_In in Em. apply in_map_iff in Em as [k [E Hk]]. now injection E as -> _. }
    rewrite concat_entries.
    rewrite (flat_map_agree _ (fun k => filter (inGroup (tailwind opts) k) (splitTokens input)))
      by (intros; apply Hspec).
    apply filter_partition; [assumption|].
    intros t Ht. destruct (Hcls t Ht) as [g Hg]. exists g. split; [assumption|].
    destruct (Hall t g Ht Hg) as [Hg2| ->]; assumption.
  - assert (Hm : ~ In misc (effectiveOrder opts)).
    { apply Map_get_None in Em. now rewrite map_map, map_id in Em. }
    rewrite Map_set_fresh by (now rewrite map_map, map_id).
    change (map (fun k => (k, map1 k)) (effectiveOrder opts) ++ [(misc, map1 misc)])
      with (map (fun k => (k, map1 k)) (effectiveOrder opts)
            ++ map (fun k => (k, map1 k)) [misc]).
    rewrite <- map_app, concat_entries.
    rewrite (flat_map_agree _ (fun k => filter (inGroup (tailwind opts) k) (splitTokens input)))
      by (intros; apply Hspec).
    apply filter_partition.
    + apply NoDup_app; [assumption|repeat constructor; now intros []|].
      intros k Hk [<-|[]]. contradiction.
    + intros t Ht. destruct (Hcls t Ht) as [g Hg]. exists g. split; [assumption|].
      apply in_or_app. destruct (Hall t g Ht Hg) as [Hg2| ->]; [now left|right; now left].
Qed.

Lemma categorize_partitions_witness :
  Permutation
    (List.concat
       (map snd [(layout, strs ["flex"]); (spacing, strs ["p-4"]); (sizing, []);
                 (typography, []); (colors, []); (borders, []); (effects, []);
                 (interactivity, []); (accessibility, []); (misc, [])]))
    (tokenize "p-4 flex").
Proof.
  apply (categorize_partitions "p-4 flex" noOptions).
  - exact DEFAULT_ORDER_NoDup.
  - vm_compute. reflexivity.
  - intros t g _ _. left. destruct g; cbn; tauto.
Defined.

(** ** Literals and alternatives under the matcher *)

Lemma charMatches_refl ic a : charMatches ic a a = true.
Proof. unfold charMatches. destruct ic; apply Ascii.eqb_refl. Qed.

Lemma matchesLit_app ic lit s : matchesLit ic lit (lit ++ s) = true.
Proof.
  induction lit as [|a lit IH]; [reflexivity|].
  cbn [matchesLit app]. now rewrite charMatches_refl, IH.
Qed.

Lemma matchesLit_split ic lit : forall s,
  matchesLit ic lit s = true ->
  exists l r, s = l ++ r /\ List.length l = List.length lit /\
              skipn (List.length lit) s = r /\
              Forall2 (fun a ch => charMatches ic a ch = true) lit l.
Proof.
  induction lit as [|a lit IH]; intros s H.
  - exists [], s. repeat split. constructor.
  - destruct s as [|ch s]; [discriminate|]. cbn [matchesLit] in H.
    apply andb_true_iff in H as [Hc H].
    destruct (IH s H) as [l [r [-> [Hl [Hr HF]]]]].
    exists (ch :: l), r. repeat split; cbn; auto.
Qed.

Lemma startsWith_matchesLit s p : startsWith s p = matchesLit false p s.
Proof.
  revert s. induction p as [|x p IH]; intros s; [now destruct s|].
  destruct s as [|y s]; [reflexivity|]. cbn [startsWith matchesLit].
  now rewrite IH.
Qed.

Lemma seqOf_cons r l : l <> [] -> seqOf (r :: l) = RSeq r (seqOf l).
Proof. destruct l; [contradiction|reflexivity]. Qed.

Lemma altOf_cons r l : l <> [] -> altOf (r :: l) = RAlt r (altOf l).
Proof. destruct l; [contradiction|reflexivity]. Qed.

(** The pattern of a literal text consumes that text and nothing else. *)
Lemma exec_litR ic lit : forall i s k,
  exec ic (litR lit) i s k
  = if matchesLit ic lit s
    then k (i + List.length lit) (skipn (List.length lit) s) else None.
Proof.
  unfold litR. induction lit as [|a lit IH]; intros i s k.
  - cbn. now rewrite Nat.add_0_r.
  - destruct lit as [|b lit].
    + cbn [map seqOf exec matchesLit List.length]. destruct s as [|ch s]; [reflexivity|].
      rewrite andb_true_r, Nat.add_1_r. reflexivity.
    + change (seqOf (map RChar (a :: b :: lit)))
        with (RSeq (RChar a) (seqOf (map RChar (b :: lit)))).
      cbn [exec]. destruct s as [|ch s]; [reflexivity|].
      change (matchesLit ic (a :: b :: lit) (ch :: s))
        with (charMatches ic a ch && matchesLit ic (b :: lit) s).
      destruct (charMatches ic a ch); [|reflexivity].
      rewrite IH. cbn [andb].
      destruct (matchesLit ic (b :: lit) s); [|reflexivity].
      f_equal. cbn [List.length]. lia.
Qed.

(** A success of an alternation of literals is that of one of them. *)
Lemma exec_alt_literals ic L : forall i s k res,
  L <> [] ->
  exec ic (altOf (map litR L)) i s k = Some res ->
  exists v, In v L /\ matchesLit ic v s = true /\
            k (i + List.length v) (skipn (List.length v) s) = Some res.
Proof.
  induction L as [|v L IH]; intros i s k res Hne H; [contradiction|].
  destruct L as [|w L].
  - cbn [map altOf] in H. rewrite exec_litR in H.
    destruct (matchesLit ic v s) eqn:E; [|discriminate].
    exists v. repeat split; [now left|assumption|assumption].
  - change (altOf (map litR (v :: w :: L)))
      with (RAlt (litR v) (altOf (map litR (w :: L)))) in H.
    cbn [exec] in H. rewrite exec_litR in H.
    destruct (matchesLit ic v s) eqn:E.
    + destruct (k (i + List.length v) (skipn (List.length v) s)) eqn:Ek.
      * injection H as <-. exists v. repeat split; [now left|assumption|assumption].
      * destruct (IH i s k res) as [u [Hu Hr]]; [discriminate|assumption|].
        exists u. split; [now right|assumption].
    + destruct (IH i s k res) as [u [Hu Hr]]; [discriminate|assumption|].
      exists u. split; [now right|assumption].
Qed.

(** An alternation of literals succeeds as soon as one of them does. *)
Lemma exec_alt_literals_complete ic L v : forall i s k,
  In v L -> matchesLit ic v s = true ->
  k (i + List.length v) (skipn (List.length v) s) <> None ->
  exec ic (altOf (map litR L)) i s k <> None.
Proof.
  induction L as [|w L IH]; intros i s k Hin Hm Hk; [destruct Hin|].
  destruct L as [|w2 L].
  - destruct Hin as [->|[]]. cbn [map altOf]. now rewrite exec_litR, Hm.
  - change (altOf (map litR (w :: w2 :: L)))
      with (RAlt (litR w) (altOf (map litR (w2 :: L)))).
    cbn [exec]. destruct (exec ic (litR w) i s k) eqn:E; [discriminate|].
    destruct Hin as [->|Hin].
    + rewrite exec_litR, Hm in E. contradiction.
    + now apply IH.
Qed.

Lemma open_canonical ch : charMatches true "[" ch = true -> ch = "["%char.
Proof.
  destruct ch as [[] [] [] [] [] [] [] []]; intros H;
    solve [reflexivity | discriminate H].
Qed.

Lemma close_canonical ch : charMatches true "]" ch = true -> ch = "]"%char.
Proof.
  destruct ch as [[] [] [] [] [] [] [] []]; intros H;
    solve [reflexivity | discriminate H].
Qed.

Lemma not_close ch : setMatches true true ["]"%char] ch = true -> ch <> "]"%char.
Proof.
  unfold setMatches. cbn [existsb]. intros H ->.
  now rewrite charMatches_refl in H.
Qed.

(** A success of [[^\]]*]: a run without closing bracket, then the rest. *)
Lemma exec_star_not_close K res : forall fuel i s,
  (fix loop (fuel : nat) (i : nat) (s : jsstring) {struct fuel} : option nat :=
     match fuel with
     | O => K i s
     | S fuel' =>
         match exec true (RSet true ["]"%char]) i s
                 (fun j s' => if i <? j then loop fuel' j s' else None) with
         | Some e => Some e
         | None => K i s
         end
     end) fuel i s = Some res ->
  exists body rest, s = body ++ rest /\ ~ In "]"%char body /\
                    K (i + List.length body) rest = Some res.
Proof.
  induction fuel as [|fuel IH]; intros i s H.
  - exists [], s. rewrite Nat.add_0_r. now repeat split.
  - cbn [exec] in H. destruct s as [|ch s].
    + exists [], []. rewrite Nat.add_0_r. now repeat split.
    + destruct (setMatches true true ["]"%char] ch) eqn:Es.
      * rewrite (proj2 (Nat.ltb_lt i (S i))) in H by lia.
        match type of H with
        | match ?e with _ => _ end = _ => destruct e eqn:E
        end.
        -- injection H as <-. apply IH in E as [body [rest [-> [Hb Hk]]]].
           exists (ch :: body), rest. repeat split.
           ++ intros [Hc|Hc]; [apply (not_close _ Es); now symmetry|contradiction].
           ++ cbn [List.length]. now rewrite Nat.add_succ_r.
        -- exists [], (ch :: s). rewrite Nat.add_0_r. now repeat split.
      * exists [], (ch :: s). rewrite Nat.add_0_r. now repeat split.
Qed.

Lemma exec_arbR i s k res :
  exec true arbR i s k = Some res ->
  exists body rest,
    s = "["%char :: body ++ "]"%char :: rest /\ body <> [] /\ ~ In "]"%char body /\
    k (i + List.length body + 2) rest = Some res.
Proof.
  unfold arbR. cbn [exec].
  destruct s as [|c0 s]; [discriminate|].
  destruct (charMatches true "[" c0) eqn:E0; [|discriminate].
  apply open_canonical in E0. subst c0.
  destruct s as [|c1 s]; [discriminate|].
  destruct (setMatches true true ["]"%char] c1) eqn:E1; [|discriminate].
  intros H. apply exec_star_not_close in H as [body [rest [-> [Hb H]]]].
  destruct rest as [|c2 rest]; [discriminate|].
  destruct (charMatches true "]" c2) eqn:E2; [|discriminate].
  apply close_canonical in E2. subst c2.
  exists (c1 :: body), rest. repeat split.
  - discriminate.
  - intros [Hc|Hc]; [apply (not_close _ E1); now symmetry|contradiction].
  - rewrite <- H. f_equal. cbn [List.length]. lia.
Qed.

(** ** What the variant splitter strips *)

Lemma equalsIgnoreCase_Forall2 v l :
  Forall2 (fun a ch => charMatches true a ch = true) v l -> equalsIgnoreCase v l = true.
Proof.
  induction 1 as [|a ch v l Hc _ IH]; [reflexivity|].
  cbn [equalsIgnoreCase]. now rewrite Hc, IH.
Qed.

(** A success of the variant pattern: an arbitrary variant or a listed
    one, up to case, and the colon. *)
Lemma variant_exec_label L s j :
  L <> [] ->
  exec true (variantProgram L) 0 s (fun j _ => Some j) = Some j ->
  exists label rest,
    s = label ++ ":"%char :: rest /\ j = S (List.length label) /\
    (isArbitraryVariant label \/ exists v, In v L /\ equalsIgnoreCase v label = true).
Proof.
  intros HL. unfold variantProgram. rewrite exec_anchored_seq. cbn [exec].
  set (K := fun (j : nat) (s' : jsstring) =>
              match s' with
              | [] => None
              | ch :: s'0 => if charMatches true ":" ch then Some (S j) else None
              end).
  assert (HK : forall j' s' res, K j' s' = Some res ->
                 exists rest, s' = ":"%char :: rest /\ res = S j').
  { intros j' s' res H. unfold K in H. destruct s' as [|ch s']; [discriminate|].
    destruct (charMatches true ":" ch) eqn:E; [|discriminate].
    apply colon_canonical in E. subst ch. injection H as <-. eauto. }
  destruct (exec true arbR 0 s K) eqn:Ea.
  - intros H. injection H as <-.
    apply exec_arbR in Ea as [body [rest [-> [Hne [Hb Hk]]]]].
    apply HK in Hk as [rest' [-> ->]].
    exists ("["%char :: body ++ ["]"%char]), rest'. repeat split.
    + cbn [app]. now rewrite <- app_assoc.
    + cbn [List.length]. rewrite length_app. cbn [List.length]. lia.
    + left. exists body. now repeat split.
  - intros H. apply exec_alt_literals in H as [v [Hv [Hm Hk]]]; [|assumption].
    apply HK in Hk as [rest' [Hs ->]].
    apply matchesLit_split in Hm as [l [r [-> [Hl [Hr HF]]]]].
    rewrite Hr in Hs. subst r.
    exists l, rest'. repeat split.
    + cbn [Nat.add]. now rewrite Hl.
    + right. exists v. split; [assumption|now apply equalsIgnoreCase_Forall2].
Qed.

Lemma baseListOf_nonempty variants : baseListOf variants <> [].
Proof. unfold baseListOf. destruct variants as [[|v vs]|]; discriminate. Qed.

Lemma variant_match_label variants rest raw :
  String_match rest (variantRegExp variants) = Some raw ->
  exists label rest',
    rest = label ++ ":"%char :: rest' /\ raw = label ++ [":"%char] /\
    (isArbitraryVariant label \/
     exists v, In v (baseListOf variants) /\ equalsIgnoreCase v label = true).
Proof.
  unfold String_match, variantRegExp. cbn [ignoreCase program].
  assert (Hex : forall s j,
            exec true (variantProgram (baseListOf variants)) 0 s (fun j _ => Some j) = Some j ->
            exists label rest',
              s = label ++ ":"%char :: rest' /\
              firstn (j - 0) (skipn 0 s) = label ++ [":"%char] /\
              (isArbitraryVariant label \/
               exists v, In v (baseListOf variants) /\ equalsIgnoreCase v label = true)).
  { intros s j E. apply variant_exec_label in E; [|apply baseListOf_nonempty].
    destruct E as [label [r' [E [-> Hshape]]]].
    exists label, r'. split; [exact E|]. split; [|exact Hshape].
    rewrite E, Nat.sub_0_r. cbn [skipn].
    replace (S (List.length label)) with (List.length (label ++ [":"%char]))
      by (rewrite length_app; cbn; lia).
    replace (label ++ ":"%char :: r') with ((label ++ [":"%char]) ++ r')
      by (now rewrite <- app_assoc).
    now rewrite firstn_app, Nat.sub_diag, firstn_all, firstn_O, app_nil_r. }
  destruct rest as [|ch rest0]; cbn [searchFrom];
    destruct (exec true _ 0 _ _) as [j|] eqn:E.
  - intros H. injection H as <-. destruct (Hex _ _ E) as [label [r' [Hs [Hr Hshape]]]].
    exists label, r'. now repeat split.
  - discriminate.
  - intros H. injection H as <-. destruct (Hex _ _ E) as [label [r' [Hs [Hr Hshape]]]].
    exists label, r'. now repeat split.
  - unfold variantProgram. rewrite searchFrom_anchored by discriminate. discriminate.
Qed.

Lemma skip_label label rest' :
  sliceFrom (label ++ ":"%char :: rest') (List.length (label ++ [":"%char])) = rest'.
Proof.
  unfold sliceFrom.
  replace (label ++ ":"%char :: rest') with ((label ++ [":"%char]) ++ rest')
    by (now rewrite <- app_assoc).
  now rewrite skipn_app, skipn_all, Nat.sub_diag.
Qed.

Lemma dropLast_label label : dropLast (label ++ [":"%char]) = label.
Proof. unfold dropLast. apply removelast_last. Qed.

Lemma chainOf_app a b : chainOf (a ++ b) = chainOf a ++ chainOf b.
Proof. unfold chainOf. now rewrite map_app, concat_app. Qed.

(** The loop of [stripVariantsWith], from any of its states. *)
Lemma stripLoop_spec variants : forall fuel rest v vs sv,
  stripLoop fuel (variantRegExp variants) v rest vs = Ok sv ->
  exists labels,
    s_variants sv = vs ++ labels /\
    s_variant sv = v ++ chainOf labels /\
    rest = chainOf labels ++ s_base sv /\
    test (variantRegExp variants) (s_base sv) = false /\
    Forall (fun label =>
              isArbitraryVariant label \/
              exists v, In v (baseListOf variants) /\ equalsIgnoreCase v label = true)
           labels /\
    (test (variantRegExp variants) rest = true -> labels <> []).
Proof.
  induction fuel as [|fuel IH]; intros rest v vs sv H; cbn [stripLoop] in H;
    destruct (test (variantRegExp variants) rest) eqn:Et; try discriminate.
  - injection H as <-. exists []. cbn. rewrite !app_nil_r. now repeat split.
  - destruct (String_match rest (variantRegExp variants)) as [raw|] eqn:Hm; [|discriminate].
    destruct (variant_match_label _ _ _ Hm) as [label [rest' [-> [-> Hshape]]]].
    rewrite skip_label, dropLast_label in H.
    apply IH in H as [labels [Hvs [Hv [Hr [Hb [HF _]]]]]].
    exists (label :: labels). repeat split.
    + now rewrite Hvs, <- app_assoc.
    + rewrite Hv, <- app_assoc. reflexivity.
    + rewrite Hr. unfold chainOf. cbn [map List.concat].
      now rewrite <- !app_assoc.
    + assumption.
    + now constructor.
    + discriminate.
  - injection H as <-. exists []. cbn. rewrite !app_nil_r. now repeat split.
Qed.

(** X14, the variant split loses nothing.  [variant] followed by
    [base] is the token, [variant] is the labels of [variants] each
    followed by a colon, and the variant pattern does not match [base]
    any more. *)
Theorem variant_split_reassembles (tw : option Tailwind) (t : jsstring) (sv : Stripped) :
  splitVariants tw t = Ok sv ->
  s_variant sv ++ s_base sv = t /\
  s_variant sv = chainOf (s_variants sv) /\
  test (variantRegExp (tw_variants tw)) (s_base sv) = false.
Proof.
  unfold splitVariants, stripVariantsWith. rewrite makeVariantRegex_ok. cbn [bind].
  intros H. apply stripLoop_spec in H as [labels [Hvs [Hv [Hr [Hb _]]]]].
  cbn [app] in Hvs, Hv. rewrite Hvs, Hv. split; [now symmetry|]. now split.
Qed.

Lemma variant_split_reassembles_witness :
  ("sm:hover:" : jsstring) ++ "p-4" = "sm:hover:p-4" /\
  ("sm:hover:" : jsstring) = chainOf (strs ["sm"; "hover"]) /\
  test (variantRegExp None) "p-4" = false.
Proof.
  apply (variant_split_reassembles None "sm:hover:p-4"
           {| s_variant := "sm:hover:"; s_base := "p-4"; s_variants := strs ["sm"; "hover"] |}).
  vm_compute. reflexivity.
Defined.

(** X15, what is stripped as a variant.  Every label of [variants] is
    an arbitrary variant (a bracket pair around at least one character
    other than a closing bracket) or a configured variant, in any letter
    case. *)
Theorem variant_labels_are_listed (tw : option Tailwind) (t : jsstring) (sv : Stripped) :
  splitVariants tw t = Ok sv ->
  Forall (fun label =>
            isArbitraryVariant label \/
            exists v, In v (baseListOf (tw_variants tw)) /\ equalsIgnoreCase v label = true)
         (s_variants sv).
Proof.
  unfold splitVariants, stripVariantsWith. rewrite makeVariantRegex_ok. cbn [bind].
  intros H. apply stripLoop_spec in H as [labels [Hvs [_ [_ [_ [HF _]]]]]].
  now rewrite Hvs.
Qed.

Lemma variant_labels_are_listed_witness :
  Forall (fun label =>
            isArbitraryVariant label \/
            exists v, In v (baseListOf None) /\ equalsIgnoreCase v label = true)
         (strs ["[&>*]"; "HOVER"]).
Proof.
  apply (variant_labels_are_listed None "[&>*]:HOVER:p-4"
           {| s_variant := "[&>*]:HOVER:"; s_base := "p-4";
              s_variants := strs ["[&>*]"; "HOVER"] |}).
  vm_compute. reflexivity.
Defined.

Lemma variant_test_complete variants v rest :
  In v (baseListOf variants) ->
  test (variantRegExp variants) (v ++ ":"%char :: rest) = true.
Proof.
  intros Hv. unfold test, variantRegExp. cbn [ignoreCase program].
  destruct (searchFrom true _ 0 _) eqn:E; [reflexivity|exfalso].
  assert (Hex : exec true (variantProgram (baseListOf variants)) 0 (v ++ ":"%char :: rest)
                  (fun j _ => Some j) <> None).
  { unfold variantProgram. rewrite exec_anchored_seq. cbn [exec].
    match goal with
    | |- match ?e with _ => _ end <> None => destruct e eqn:Ea; [discriminate|]
    end.
    apply exec_alt_literals_complete with (v := v);
      [assumption|apply matchesLit_app|].
    replace (skipn (List.length v) (v ++ ":"%char :: rest)) with (":"%char :: rest)
      by (now rewrite skipn_app, skipn_all, Nat.sub_diag).
    discriminate. }
  destruct (v ++ ":"%char :: rest); cbn [searchFrom] in E;
    destruct (exec true _ 0 _ _); try discriminate; now apply Hex.
Qed.

(** X16, a configured variant is always stripped.  A token that starts
    with a variant of the list in use followed by a colon has at least one
    label in [variants], whatever characters the variant is made of. *)
Theorem listed_variant_is_stripped (tw : option Tailwind) (v rest : jsstring) :
  In v (baseListOf (tw_variants tw)) ->
  exists sv,
    splitVariants tw (v ++ ":"%char :: rest) = Ok sv /\ s_variants sv <> [].
Proof.
  intros Hv. unfold splitVariants. rewrite makeVariantRegex_ok. cbn [bind].
  destruct (stripVariantsWith_returns (tw_variants tw) (v ++ ":"%char :: rest)) as [sv Hsv].
  exists sv. split; [assumption|].
  apply stripLoop_spec in Hsv as [labels [Hvs [_ [_ [_ [_ Hne]]]]]].
  rewrite Hvs. cbn [app]. apply Hne. now apply variant_test_complete.
Qed.

Lemma listed_variant_is_stripped_witness :
  exists sv, splitVariants None ("sm" ++ ":"%char :: "p-4") = Ok sv /\ s_variants sv <> [].
Proof.
  apply (listed_variant_is_stripped None "sm" "p-4").
  left. reflexivity.
Defined.

(** ** Where the matcher stands does not matter without [^] *)

Lemma exec_shift ic n r : bolFree r = true ->
  forall i s k k',
    (forall j s', k' (n + j) s' = option_map (Nat.add n) (k j s')) ->
    exec ic r (n + i) s k' = option_map (Nat.add n) (exec ic r i s k).
Proof.
  induction r as [ | a | | neg ms | | | r1 IH1 r2 IH2 | r1 IH1 r2 IH2 | r IH | r IH | neg r IH];
    intros Hb i s k k' Hk; cbn [exec bolFree] in *.
  - apply Hk.
  - destruct s as [|ch s]; [reflexivity|]. destruct (charMatches ic a ch); [|reflexivity].
    rewrite <- Nat.add_succ_r. apply Hk.
  - destruct s as [|ch s]; [reflexivity|]. destruct (isLineTerminator ch); [reflexivity|].
    rewrite <- Nat.add_succ_r. apply Hk.
  - destruct s as [|ch s]; [reflexivity|]. destruct (setMatches ic neg ms ch); [|reflexivity].
    rewrite <- Nat.add_succ_r. apply Hk.
  - discriminate.
  - destruct s; [apply Hk|reflexivity].
  - apply andb_true_iff in Hb as [Hb1 Hb2].
    apply IH1; [assumption|]. intros j s'. now apply IH2.
  - apply andb_true_iff in Hb as [Hb1 Hb2].
    rewrite (IH1 Hb1 i s k k' Hk). destruct (exec ic r1 i s k); [reflexivity|].
    now apply IH2.
  - generalize (List.length s) as fuel. intros fuel. revert i s.
    induction fuel as [|fuel IHf]; intros i s; [apply Hk|].
    match goal with
    | |- match exec ic r (n + i) s ?K' with _ => _ end
         = option_map _ (match exec ic r i s ?K with _ => _ end) =>
        rewrite (IH Hb i s K K')
    end.
    + destruct (exec ic r i s _); [reflexivity|apply Hk].
    + intros j s'. cbv beta.
      replace (n + i <? n + j) with (i <? j)
        by (destruct (Nat.ltb_spec i j), (Nat.ltb_spec (n + i) (n + j)); (reflexivity || lia)).
      destruct (i <? j); [apply IHf|reflexivity].
  - rewrite (IH Hb i s (fun j s' => if i <? j then k j s' else None)
                       (fun j s' => if n + i <? j then k' j s' else None)).
    + destruct (exec ic r i s _); [reflexivity|apply Hk].
    + intros j s'. cbv beta.
      replace (n + i <? n + j) with (i <? j)
        by (destruct (Nat.ltb_spec i j), (Nat.ltb_spec (n + i) (n + j)); (reflexivity || lia)).
      destruct (i <? j); [apply Hk|reflexivity].
  - rewrite (IH Hb i s (fun j _ => Some j) (fun j _ => Some j)) by reflexivity.
    destruct (exec ic r i s _); cbn [option_map]; destruct neg; (reflexivity || apply Hk).
Qed.

(** ** The parser does not look back at the outermost level *)

Lemma underStack_cons e x y stk : underStack e (x :: y :: stk) = x :: underStack e (y :: stk).
Proof. now destruct x. Qed.

Lemma under_nonempty e m tp x stk :
  under e {| mode := m; top := tp; stack := x :: stk |}
  = {| mode := m; top := tp; stack := underStack e (x :: stk) |}.
Proof. reflexivity. Qed.

Lemma underStack_nonempty e x stk : underStack e (x :: stk) <> [].
Proof. destruct x, stk; discriminate. Qed.

Lemma under_pushTerm e r q st : under e (pushTerm r q st) = pushTerm r q (under e st).
Proof. destruct st as [m [a ts] [|x stk]]; reflexivity. Qed.

Lemma under_setMode e m st : under e (setMode m st) = setMode m (under e st).
Proof. destruct st as [m0 [a ts] [|x stk]]; reflexivity. Qed.

Lemma under_pfail e err st : under e (pfail err st) = pfail err (under e st).
Proof. destruct st as [m0 [a ts] [|x stk]]; reflexivity. Qed.

Lemma under_openGroup e g st : under e (openGroup g st) = openGroup g (under e st).
Proof. destruct st as [m0 [a ts] [|[g1 l1] stk]]; reflexivity. Qed.

Lemma under_closeGroup e st : under e (closeGroup st) = closeGroup (under e st).
Proof.
  destruct st as [m0 [a ts] [|[g1 [a1 t1]] [|[g2 l2] stk]]]; try reflexivity.
Qed.

Lemma under_nextAlternative e st :
  stack st <> [] -> under e (nextAlternative st) = nextAlternative (under e st).
Proof. destruct st as [m0 [a ts] [|x stk]]; [contradiction|reflexivity]. Qed.

Lemma under_quantify e f st :
  stack st <> [] -> under e (quantify f st) = quantify f (under e st).
Proof.
  destruct st as [m0 [a ts] [|x stk]]; [contradiction|]. intros _.
  unfold quantify. rewrite under_nonempty. cbn [top terms stack alts].
  destruct ts as [|[r [| |]] ts]; reflexivity.
Qed.

Lemma under_top e st : stack st <> [] -> top (under e st) = top st.
Proof. destruct st as [m0 tp [|x stk]]; [contradiction|reflexivity]. Qed.

Lemma under_mode e st : mode (under e st) = mode st.
Proof. destruct st as [m0 tp [|x stk]]; reflexivity. Qed.

Lemma under_stack_nonempty e st : stack st <> [] -> stack (under e st) <> [].
Proof.
  destruct st as [m0 tp [|x stk]]; [contradiction|]. intros _.
  rewrite under_nonempty. cbn [stack]. apply underStack_nonempty.
Qed.

Lemma stepNormal_under e st ch :
  (stack st = [] ->
   existsb (Ascii.eqb ch) ["|"%char; "*"%char; "+"%char; "?"%char] = false) ->
  stepNormal (under e st) ch = under e (stepNormal st ch).
Proof.
  intros Hsafe. unfold stepNormal.
  destruct (Ascii.eqb ch "\"); [now rewrite under_setMode|].
  destruct (Ascii.eqb ch "("); [now rewrite under_setMode|].
  destruct (Ascii.eqb ch ")"); [now rewrite under_closeGroup|].
  destruct (stack st) as [|x stk] eqn:Es.
  - specialize (Hsafe eq_refl). cbn [existsb] in Hsafe.
    apply orb_false_iff in Hsafe as [H1 Hsafe]. rewrite H1.
    apply orb_false_iff in Hsafe as [H2 Hsafe]. rewrite H2.
    apply orb_false_iff in Hsafe as [H3 Hsafe]. rewrite H3.
    apply orb_false_iff in Hsafe as [H4 _]. rewrite H4.
    destruct (Ascii.eqb ch "["); [now rewrite under_setMode|].
    destruct (Ascii.eqb ch "^"); [now rewrite under_pushTerm|].
    destruct (Ascii.eqb ch "$"); [now rewrite under_pushTerm|].
    destruct (Ascii.eqb ch "."); [now rewrite under_pushTerm|].
    destruct (Ascii.eqb ch "{"); [now rewrite under_pfail|].
    now rewrite under_pushTerm.
  - assert (Hne : stack st <> []) by (rewrite Es; discriminate).
    destruct (Ascii.eqb ch "|"); [now rewrite under_nextAlternative|].
    destruct (Ascii.eqb ch "["); [now rewrite under_setMode|].
    destruct (Ascii.eqb ch "^"); [now rewrite under_pushTerm|].
    destruct (Ascii.eqb ch "$"); [now rewrite under_pushTerm|].
    destruct (Ascii.eqb ch "."); [now rewrite under_pushTerm|].
    destruct (Ascii.eqb ch "*"); [now rewrite under_quantify|].
    destruct (Ascii.eqb ch "+"); [now rewrite under_quantify|].
    destruct (Ascii.eqb ch "?").
    { rewrite (under_top e st Hne).
      destruct (terms (top st)) as [|[r [| |]] ts];
        (now rewrite under_quantify) || now rewrite under_pfail. }
    destruct (Ascii.eqb ch "{"); [now rewrite under_pfail|].
    now rewrite under_pushTerm.
Qed.

Lemma stepClass_under e neg ms st ch :
  stepClass neg ms (under e st) ch = under e (stepClass neg ms st ch).
Proof.
  unfold stepClass.
  destruct (Ascii.eqb ch "]"); [now rewrite under_pushTerm|].
  destruct (Ascii.eqb ch "\"); [now rewrite under_setMode|].
  destruct (Ascii.eqb ch "-"); [now rewrite under_pfail|].
  now rewrite under_setMode.
Qed.

Lemma pstep_under e st ch :
  outerSafe st ch = true -> pstep (under e st) ch = under e (pstep st ch).
Proof.
  intros Hsafe. unfold pstep. rewrite under_mode.
  destruct (mode st) eqn:Em.
  - apply stepNormal_under. intros Hs. unfold outerSafe in Hsafe. rewrite Hs, Em in Hsafe.
    now apply negb_true_iff in Hsafe.
  - destruct (isAlnum ch); [now rewrite under_pfail|now rewrite under_pushTerm].
  - destruct (Ascii.eqb ch "?"); [now rewrite under_setMode|].
    rewrite <- under_openGroup. apply stepNormal_under.
    intros Hs. destruct st as [m0 tp [|x stk]]; discriminate Hs.
  - destruct (Ascii.eqb ch ":"); [now rewrite under_openGroup|].
    destruct (Ascii.eqb ch "="); [now rewrite under_openGroup|].
    destruct (Ascii.eqb ch "!"); [now rewrite under_openGroup|].
    destruct (Ascii.eqb ch "<"); now rewrite under_pfail.
  - destruct (Ascii.eqb ch "^"); [now rewrite under_setMode|].
    apply stepClass_under.
  - apply stepClass_under.
  - destruct (isAlnum ch); [now rewrite under_pfail|now rewrite under_setMode].
  - reflexivity.
Qed.

Lemma fold_under e src : forall st,
  safeRun st src = true ->
  fold_left pstep src (under e st) = under e (fold_left pstep src st).
Proof.
  induction src as [|ch src IH]; intros st H; [reflexivity|].
  cbn [safeRun] in H. apply andb_true_iff in H as [H1 H2].
  cbn [fold_left]. rewrite pstep_under by assumption. now apply IH.
Qed.

(** ** The rules under a prefix *)

Lemma ruleBody_spec src G :
  ruleBody src = Some G ->
  exists rest,
    src = "^"%char :: rest /\ safeRun pinit rest = true /\
    fold_left pstep rest pinit = pnormal [] [(G, QAtom)] [] /\ bolFree G = true.
Proof.
  unfold ruleBody. destruct src as [|ch rest]; [discriminate|].
  destruct (Ascii.eqb ch "^") eqn:Ec; [|discriminate].
  apply Ascii.eqb_eq in Ec. subst ch. cbn [andb].
  destruct (safeRun pinit rest) eqn:Es; [|discriminate].
  destruct (fold_left pstep rest pinit) as [m [a ts] stk] eqn:Ef.
  destruct m; try discriminate. destruct a; try discriminate.
  destruct ts as [|[G' q] ts]; try discriminate.
  destruct q; try discriminate. destruct ts; try discriminate.
  destruct stk; try discriminate.
  destruct (bolFree G') eqn:Eb; [|discriminate].
  intros H. injection H as <-. exists rest. now repeat split.
Qed.

Lemma compile_under rest G e :
  safeRun pinit rest = true ->
  fold_left pstep rest pinit = pnormal [] [(G, QAtom)] [] ->
  pfinish (fold_left pstep rest (pnormal [] e [])) = inr (seqOf (rev (map fst e) ++ [G])).
Proof.
  intros Hs Hf. change (pnormal [] e []) with (under e pinit).
  rewrite fold_under, Hf by assumption. reflexivity.
Qed.

Lemma compile_rule rest G :
  safeRun pinit rest = true ->
  fold_left pstep rest pinit = pnormal [] [(G, QAtom)] [] ->
  compile ("^"%char :: rest) = inr (RSeq RBol G).
Proof.
  intros Hs Hf. unfold compile. cbn [fold_left].
  change (pstep pinit "^") with (pnormal [] [(RBol, QAssertion)] []).
  now rewrite (compile_under rest G _ Hs Hf).
Qed.

Lemma compile_prefixed p rest G :
  safeRun pinit rest = true ->
  fold_left pstep rest pinit = pnormal [] [(G, QAtom)] [] ->
  compile ("^"%char :: escapeRegex p ++ rest)
  = inr (RSeq RBol (seqOf (map RChar p ++ [G]))).
Proof.
  intros Hs Hf. unfold compile. cbn [fold_left].
  change (pstep pinit "^") with (pnormal [] [(RBol, QAssertion)] []).
  rewrite fold_left_app, fold_escape, (compile_under rest G _ Hs Hf).
  rewrite map_app, fst_atoms, rev_app_distr, rev_involutive. cbn [map rev app].
  rewrite seqOf_cons; [reflexivity|]. now destruct (map RChar p).
Qed.

Lemma getSubstitution_plain matched before after template :
  ~ In "$"%char template -> getSubstitution matched before after template = template.
Proof.
  induction template as [|ch t IH]; intros H; [reflexivity|].
  cbn [getSubstitution]. destruct (Ascii.eqb ch "$") eqn:E.
  - apply Ascii.eqb_eq in E. subst. exfalso. apply H. now left.
  - rewrite IH; [reflexivity|]. intros Hin. apply H. now right.
Qed.

Lemma escapeRegex_no_dollar p : ~ In "$"%char p -> ~ In "$"%char (escapeRegex p).
Proof.
  induction p as [|ch p IH]; intros H; [exact H|].
  assert (Hch : ch <> "$"%char) by (intros ->; apply H; now left).
  assert (Hp : ~ In "$"%char (escapeRegex p)) by (apply IH; intros Hin; apply H; now right).
  cbn [escapeRegex]. destruct (isRegexSpecial ch).
  - intros [Hc|[Hc|Hin]]; [discriminate Hc|now apply Hch|now apply Hp].
  - intros [Hc|Hin]; [now apply Hch|now apply Hp].
Qed.

Lemma test_anchored src ic X s :
  test {| source := src; ignoreCase := ic; program := RSeq RBol X |} s
  = match exec ic X 0 s (fun j _ => Some j) with Some _ => true | None => false end.
Proof.
  unfold test. cbn [ignoreCase program].
  destruct s as [|ch s]; cbn [searchFrom exec Nat.eqb].
  - now destruct (exec ic X 0 [] _).
  - destruct (exec ic X 0 (ch :: s) _); [reflexivity|].
    now rewrite searchFrom_anchored by discriminate.
Qed.

Lemma exec_lit_then ic p G : forall i s k,
  exec ic (seqOf (map RChar p ++ [G])) i s k
  = if matchesLit ic p s
    then exec ic G (i + List.length p) (skipn (List.length p) s) k else None.
Proof.
  induction p as [|a p IH]; intros i s k.
  - cbn. now rewrite Nat.add_0_r.
  - cbn [map app]. rewrite seqOf_cons by (now destruct (map RChar p)).
    cbn [exec]. destruct s as [|ch s]; [reflexivity|].
    change (matchesLit ic (a :: p) (ch :: s)) with (charMatches ic a ch && matchesLit ic p s).
    destruct (charMatches ic a ch); [|reflexivity].
    rewrite IH. cbn [andb]. destruct (matchesLit ic p s); [|reflexivity].
    cbn [List.length skipn]. now rewrite Nat.add_succ_r.
Qed.

Lemma exec_anywhere ic G n s :
  bolFree G = true ->
  match exec ic G n s (fun j _ => Some j) with Some _ => true | None => false end
  = match exec ic G 0 s (fun j _ => Some j) with Some _ => true | None => false end.
Proof.
  intros Hb. rewrite <- (Nat.add_0_r n) at 1.
  rewrite (exec_shift ic n G Hb 0 s (fun j _ => Some j) (fun j _ => Some j)) by reflexivity.
  now destruct (exec ic G 0 s _).
Qed.

Lemma literal_rule src G :
  ruleBody src = Some G -> literal src = {| source := src; ignoreCase := false; program := RSeq RBol G |}.
Proof.
  intros H. apply ruleBody_spec in H as [rest [-> [Hs [Hf _]]]].
  unfold literal. now rewrite (compile_rule rest G Hs Hf).
Qed.

(** A rule rebuilt with the prefix [p] asks for [p], then for what the
    rule asks. *)
Lemma withPrefix_rule p src G :
  ruleBody src = Some G -> p <> [] -> ~ In "$"%char p ->
  exists re',
    withPrefix (Some p) (literal src) = Ok re' /\
    forall b, test re' b = startsWith b p && test (literal src) (skipn (List.length p) b).
Proof.
  intros H Hne Hd. rewrite (literal_rule _ _ H).
  apply ruleBody_spec in H as [rest [-> [Hs [Hf Hb]]]].
  unfold withPrefix. destruct p as [|c p]; [contradiction|].
  cbn [truthy negb source ignoreCase replaceLeadingCaret]. cbn [Ascii.eqb Bool.eqb].
  rewrite getSubstitution_plain.
  2:{ intros [Hc|Hin]; [discriminate|]. revert Hin. now apply escapeRegex_no_dollar. }
  unfold newRegExp.
  change (("^" ++ escapeRegex (c :: p)) ++ rest) with ("^"%char :: escapeRegex (c :: p) ++ rest).
  rewrite (compile_prefixed (c :: p) rest G Hs Hf).
  eexists. split; [reflexivity|]. intros b.
  rewrite !test_anchored, exec_lit_then, startsWith_matchesLit.
  destruct (matchesLit false (c :: p) b); [|reflexivity].
  cbn [andb Nat.add]. now apply exec_anywhere.
Qed.

Lemma firstRule_empty_prefix b rules : firstRule (Some []) b rules = firstRule None b rules.
Proof.
  induction rules as [|[r g] rules IH]; [reflexivity|].
  cbn [firstRule withPrefix truthy negb bind]. now rewrite IH.
Qed.

Lemma firstRule_prefixed p b srcs :
  p <> [] -> ~ In "$"%char p ->
  forallb (fun sg => match ruleBody (fst sg) with Some _ => true | None => false end) srcs = true ->
  firstRule (Some p) b (map (fun sg => (literal (fst sg), snd sg)) srcs)
  = if startsWith b p
    then firstRule None (skipn (List.length p) b) (map (fun sg => (literal (fst sg), snd sg)) srcs)
    else Ok misc.
Proof.
  intros Hne Hd. induction srcs as [|[src g] srcs IH]; intros Hall.
  - cbn. now destruct (startsWith b p).
  - cbn [forallb fst] in Hall. apply andb_true_iff in Hall as [Hsrc Hall].
    destruct (ruleBody src) as [G|] eqn:EG; [|discriminate].
    destruct (withPrefix_rule p src G EG Hne Hd) as [re' [Hre Htest]].
    cbn [map firstRule fst snd]. rewrite Hre. cbn [bind withPrefix truthy negb].
    rewrite Htest, (IH Hall).
    destruct (startsWith b p); [|reflexivity]. cbn [andb]. reflexivity.
Qed.

Lemma RULES_sources : RULES = map (fun sg => (literal (fst sg), snd sg)) RULE_SOURCES.
Proof. unfold RULE_SOURCES, RULES; cbn [map fst snd source literal]; reflexivity. Qed.

Lemma RULES_anchored :
  forallb (fun sg => match ruleBody (fst sg) with Some _ => true | None => false end)
    RULE_SOURCES = true.
Proof. vm_compute. reflexivity. Qed.

(** X17, the prefix option.  With a prefix that has no dollar sign and
    no custom utilities, a base class that starts with the prefix is
    classified as the rest of it is classified without a prefix, and a
    base class that does not start with the prefix is [misc]. *)
Theorem classification_under_prefix (p base : jsstring) (vs : option (list jsstring)) :
  ~ In "$"%char p ->
  classifyWithConfig base
    (Some {| prefix := Some p; variants := vs; customUtilities := None |})
  = if startsWith base p
    then classifyWithConfig (skipn (List.length p) base) None
    else Ok misc.
Proof.
  intros Hd. unfold classifyWithConfig. cbn [tw_customUtilities tw_prefix customUtilities prefix].
  destruct p as [|c p].
  - rewrite firstRule_empty_prefix. cbn [List.length skipn].
    replace (startsWith base []) with true by (now destruct base). reflexivity.
  - rewrite RULES_sources.
    rewrite firstRule_prefixed. reflexivity. discriminate. assumption. apply RULES_anchored.
Qed.

Lemma classification_under_prefix_witness :
  classifyWithConfig "tw-flex"
    (Some {| prefix := Some ("tw-" : jsstring); variants := None; customUtilities := None |})
  = if startsWith "tw-flex" "tw-"
    then classifyWithConfig (skipn (List.length ("tw-" : jsstring)) "tw-flex") None
    else Ok misc.
Proof.
  apply (classification_under_prefix "tw-" "tw-flex" None).
  intros [H|[H|[H|[]]]]; discriminate H.
Defined.

(** ** Searching for a match *)

Lemma searchFrom_sound ic r : forall s i a e,
  searchFrom ic r i s = Some (a, e) ->
  exists pre post,
    s = pre ++ post /\ a = i + List.length pre /\
    exec ic r a post (fun j _ => Some j) = Some e.
Proof.
  induction s as [|ch s IH]; intros i a e H; cbn [searchFrom] in H.
  - destruct (exec ic r i [] _) eqn:E; [|discriminate]. injection H as <- <-.
    exists [], []. rewrite Nat.add_0_r. now repeat split.
  - destruct (exec ic r i (ch :: s) _) eqn:E.
    + injection H as <- <-. exists [], (ch :: s). rewrite Nat.add_0_r. now repeat split.
    + apply IH in H as [pre [post [-> [-> H]]]].
      exists (ch :: pre), post. cbn [List.length app]. rewrite Nat.add_succ_r.
      now repeat split.
Qed.

Lemma searchFrom_complete ic r : forall pre post i,
  exec ic r (i + List.length pre) post (fun j _ => Some j) <> None ->
  searchFrom ic r i (pre ++ post) <> None.
Proof.
  induction pre as [|ch pre IH]; intros post i H.
  - rewrite Nat.add_0_r in H. cbn [app].
    destruct post; cbn [searchFrom]; destruct (exec ic r i _ _); (discriminate || contradiction).
  - cbn [app searchFrom]. destruct (exec ic r i (ch :: pre ++ post) _); [discriminate|].
    apply IH. cbn [List.length] in H. now rewrite Nat.add_succ_r in H.
Qed.

Lemma matchesLit_exact lit : forall s,
  matchesLit false lit s = true -> exists b, s = lit ++ b.
Proof.
  induction lit as [|a lit IH]; intros s H; [now exists s|].
  destruct s as [|ch s]; [discriminate|]. cbn [matchesLit] in H.
  apply andb_true_iff in H as [Hc H]. apply Ascii.eqb_eq in Hc. subst ch.
  destruct (IH s H) as [b ->]. now exists b.
Qed.

Lemma compile_escapeRegex s : compile (escapeRegex s) = inr (litR s).
Proof.
  unfold compile. change pinit with (pnormal [] [] []).
  rewrite fold_escape, app_nil_r. unfold pfinish, pnormal. cbn [mode stack top].
  now rewrite closeLevel_atoms.
Qed.

(** X18, [escapeRegex] gives a pattern of the text itself.  For every
    text [s], [new RegExp(escapeRegex(s))] is built without an error,
    matches exactly the strings that hold [s], and what it matches is [s]. *)
Theorem escapeRegex_is_literal (s : jsstring) :
  exists re,
    newRegExp (escapeRegex s) false = Ok re /\
    (forall t, test re t = true <-> exists a b, t = a ++ s ++ b) /\
    (forall t m, String_match t re = Some m -> m = s).
Proof.
  unfold newRegExp. rewrite compile_escapeRegex. eexists. split; [reflexivity|].
  unfold test, String_match. cbn [ignoreCase program]. split.
  - intros t. split.
    + destruct (searchFrom false (litR s) 0 t) as [[a e]|] eqn:E; [intros _|discriminate].
      apply searchFrom_sound in E as [pre [post [-> [-> H]]]].
      rewrite exec_litR in H. destruct (matchesLit false s post) eqn:Em; [|discriminate].
      apply matchesLit_exact in Em as [b ->]. now exists pre, b.
    + intros [a [b ->]].
      destruct (searchFrom false (litR s) 0 (a ++ s ++ b)) eqn:E; [reflexivity|exfalso].
      revert E. apply searchFrom_complete.
      now rewrite exec_litR, matchesLit_app.
  - intros t m. destruct (searchFrom false (litR s) 0 t) as [[a e]|] eqn:E; [|discriminate].
    intros H. injection H as <-.
    apply searchFrom_sound in E as [pre [post [-> [-> H]]]].
    rewrite exec_litR in H. destruct (matchesLit false s post) eqn:Em; [|discriminate].
    apply matchesLit_exact in Em as [b ->]. injection H as <-.
    cbn [Nat.add]. rewrite Nat.add_comm, Nat.add_sub.
    rewrite skipn_app, skipn_all, Nat.sub_diag. cbn [skipn app].
    now rewrite firstn_app, firstn_all, Nat.sub_diag, firstn_O, app_nil_r.
Qed.

(** ** The rules without a prefix *)

Lemma firstRule_bodies b srcs :
  forallb (fun sg => match ruleBody (fst sg) with Some _ => true | None => false end) srcs = true ->
  firstRule None b (map (fun sg => (literal (fst sg), snd sg)) srcs)
  = Ok (firstBody b (map (fun sg => (ruleBody (fst sg), snd sg)) srcs)).
Proof.
  induction srcs as [|[src g] srcs IH]; intros Hall; [reflexivity|].
  cbn [forallb fst] in Hall. apply andb_true_iff in Hall as [Hsrc Hall].
  destruct (ruleBody src) as [G|] eqn:EG; [|discriminate].
  cbn [map firstRule fst snd withPrefix truthy negb bind firstBody].
  rewrite EG, (literal_rule _ _ EG), test_anchored, (IH Hall).
  now destruct (exec false G 0 b _).
Qed.

Lemma classify_bodies base : classifyWithConfig base None = Ok (firstBody base RULE_BODIES).
Proof.
  unfold classifyWithConfig. cbn [tw_customUtilities tw_prefix].
  rewrite RULES_sources. apply firstRule_bodies, RULES_anchored.
Qed.

(** X19, the plain alternatives of the rules.  A base class that starts
    with one of the texts of [LITERAL_PREFIXES] is classified into the
    group listed with it, whatever follows; [shadow-] is classified into
    [colors], never into [effects]. *)
Theorem literal_prefix_decides :
  Forall (fun lg => forall rest, classifyWithConfig (fst lg ++ rest) None = Ok (snd lg))
    LITERAL_PREFIXES.
Proof.
  unfold LITERAL_PREFIXES. cbn [map fst snd].
  repeat (apply Forall_cons;
          [intros rest; rewrite classify_bodies; vm_compute; reflexivity|]).
  apply Forall_nil.
Qed.

(** ** The families with a condition on what follows *)

Lemma exec_alt_literals_accept ic L i s :
  L <> [] ->
  match exec ic (altOf (map litR L)) i s (fun j _ => Some j) with
  | Some _ => true
  | None => false
  end = existsb (fun v => matchesLit ic v s) L.
Proof.
  induction L as [|v L IH]; intros Hne; [contradiction|].
  destruct L as [|w L].
  - cbn [map altOf existsb]. rewrite exec_litR, orb_false_r.
    now destruct (matchesLit ic v s).
  - change (altOf (map litR (v :: w :: L)))
      with (RAlt (litR v) (altOf (map litR (w :: L)))).
    cbn [exec]. rewrite exec_litR. cbn [existsb] in *.
    destruct (matchesLit ic v s); [reflexivity|]. cbn [orb].
    apply IH. discriminate.
Qed.

Lemma existsb_startsWith x L :
  existsb (fun v => matchesLit false v x) L = existsb (startsWith x) L.
Proof.
  induction L as [|v L IH]; [reflexivity|]. cbn [existsb].
  now rewrite IH, startsWith_matchesLit.
Qed.

(** X20, the [text-] utilities.  A base class [text-...] is
    [typography] when [xs], [sm], [base], [lg], [xl] or an opening bracket
    follows the dash (so [text-xl...], [text-lg...] with anything after),
    and [colors] in every other case, [text-] alone included. *)
Theorem text_utilities (rest : jsstring) :
  classifyWithConfig ("text-" ++ rest) None
  = Ok (if existsb (startsWith rest) (strs ["xs"; "sm"; "base"; "lg"; "xl"; "["])
        then typography else colors).
Proof.
  rewrite classify_bodies.
  let b := eval vm_compute in RULE_BODIES in change RULE_BODIES with b.
  rewrite <- existsb_startsWith.
  rewrite <- (exec_alt_literals_accept false _ 5 rest) by discriminate.
  assert (Hsub : exec false (altOf (map litR (strs ["xs"; "sm"; "base"; "lg"; "xl"; "["]))) 5 rest
                   (fun j _ => Some j) = None ->
                 exec false (altOf (map litR (strs ["xs"; "sm"; "base"; "lg"; "xl"]))) 5 rest
                   (fun j _ => Some j) = None).
  { intros H.
    destruct (exec false (altOf (map litR (strs ["xs"; "sm"; "base"; "lg"; "xl"]))) 5 rest
                (fun j _ => Some j)) eqn:E; [exfalso|reflexivity].
    apply exec_alt_literals in E as [v [Hv [Hm _]]]; [|discriminate].
    assert (Hex : exec false (altOf (map litR (strs ["xs"; "sm"; "base"; "lg"; "xl"; "["]))) 5 rest
                    (fun j _ => Some j) <> None).
    { apply exec_alt_literals_complete with (v := v); [|assumption|discriminate].
      cbn in Hv |- *. tauto. }
    contradiction. }
  revert Hsub.
  change (altOf (map litR (strs ["xs"; "sm"; "base"; "lg"; "xl"; "["])))
    with (RAlt (RSeq (RChar "x") (RChar "s"))
            (RAlt (RSeq (RChar "s") (RChar "m"))
               (RAlt (RSeq (RChar "b") (RSeq (RChar "a") (RSeq (RChar "s") (RChar "e"))))
                  (RAlt (RSeq (RChar "l") (RChar "g"))
                     (RAlt (RSeq (RChar "x") (RChar "l")) (RChar "[")))))).
  change (altOf (map litR (strs ["xs"; "sm"; "base"; "lg"; "xl"])))
    with (RAlt (RSeq (RChar "x") (RChar "s"))
            (RAlt (RSeq (RChar "s") (RChar "m"))
               (RAlt (RSeq (RChar "b") (RSeq (RChar "a") (RSeq (RChar "s") (RChar "e"))))
                  (RAlt (RSeq (RChar "l") (RChar "g"))
                     (RSeq (RChar "x") (RChar "l")))))).
  remember (RAlt (RSeq (RChar "x") (RChar "s"))
            (RAlt (RSeq (RChar "s") (RChar "m"))
               (RAlt (RSeq (RChar "b") (RSeq (RChar "a") (RSeq (RChar "s") (RChar "e"))))
                  (RAlt (RSeq (RChar "l") (RChar "g"))
                     (RAlt (RSeq (RChar "x") (RChar "l")) (RChar "[")))))) as A6 eqn:E6.
  remember (RAlt (RSeq (RChar "x") (RChar "s"))
            (RAlt (RSeq (RChar "s") (RChar "m"))
               (RAlt (RSeq (RChar "b") (RSeq (RChar "a") (RSeq (RChar "s") (RChar "e"))))
                  (RAlt (RSeq (RChar "l") (RChar "g"))
                     (RSeq (RChar "x") (RChar "l")))))) as A5 eqn:E5.
  clear E6 E5. intros Hsub.
  cbn.
  destruct (exec false A6 5 rest _) eqn:E; [reflexivity|].
  now rewrite (Hsub eq_refl).
Qed.

Lemma exec_any_plus ic i ch rest :
  isLineTerminator ch = false ->
  exec ic (RSeq RAny (RStar RAny)) i (ch :: rest) (fun j _ => Some j) <> None.
Proof.
  intros H. cbn [exec]. rewrite H.
  destruct (List.length rest); [discriminate|].
  match goal with
  | |- match ?e with _ => _ end <> None => destruct e; discriminate
  end.
Qed.

(** X21, padding and margin.  [p] or [m], an optional side among
    [t r b l x y], a dash and at least one more character that is no line
    terminator is classified into [spacing]. *)
Theorem spacing_utilities (c : ascii) (side rest : jsstring) (ch : ascii) :
  In c ["p"%char; "m"%char] ->
  In side (strs [""; "t"; "r"; "b"; "l"; "x"; "y"]) ->
  isLineTerminator ch = false ->
  classifyWithConfig (c :: side ++ "-"%char :: ch :: rest) None = Ok spacing.
Proof.
  intros Hc Hside Hch. rewrite classify_bodies.
  let b := eval vm_compute in RULE_BODIES in change RULE_BODIES with b.
  pose proof (exec_any_plus false) as Hplus.
  remember (RSeq RAny (RStar RAny)) as D eqn:ED. clear ED.
  cbn in Hc, Hside.
  destruct Hc as [<-|[<-|[]]];
    destruct Hside as [<-|[<-|[<-|[<-|[<-|[<-|[<-|[]]]]]]]];
    cbn;
    match goal with
    | |- context [exec false D ?i (ch :: rest) ?k] =>
        destruct (exec false D i (ch :: rest) k) eqn:E;
          [reflexivity|exfalso; exact (Hplus i ch rest Hch E)]
    end.
Qed.

Lemma spacing_utilities_witness :
  classifyWithConfig ("p"%char :: "x" ++ "-"%char :: "4"%char :: []) None = Ok spacing.
Proof.
  apply (spacing_utilities "p"%char "x" [] "4"%char).
  - left. reflexivity.
  - do 5 right. left. reflexivity.
  - reflexivity.
Defined.


(** ** The result, read back *)

Lemma bucket_tokens_wellFormed input tw k :
  bracketsClosed input = true ->
  Forall wellFormedToken (bucketOf tw (splitTokens input) k).
Proof.
  intros Hc. apply Forall_forall. intros t Ht. apply bucketOf_In in Ht as [Ht _].
  pose proof (splitTokens_wellFormed input Hc) as Hwf. rewrite Forall_forall in Hwf.
  now apply Hwf.
Qed.

Lemma blocks_wellFormed input tw order :
  bracketsClosed input = true ->
  Forall wellFormedToken (flat_map (bucketOf tw (splitTokens input)) order).
Proof.
  intros Hc. apply Forall_forall. intros t Ht. apply in_flat_map in Ht as [k [_ Ht]].
  pose proof (bucket_tokens_wellFormed input tw k Hc) as Hwf. rewrite Forall_forall in Hwf.
  now apply Hwf.
Qed.

(** X22, the output read back.  When every opening bracket of the
    input is closed, the tokens of the flat output are the sorted buckets
    of the groups in the order of [groupOrder], and under
    [splitPerGroup: true] the chunks are, in that order, the buckets that
    are not empty. *)
Theorem output_lists_groups_in_order (input : jsstring) (opts : FormatOptions) (r : Formatted) :
  bracketsClosed input = true ->
  formatClasses input opts = Ok r ->
  match r with
  | Flat out =>
      tokenize out
      = flat_map (bucketOf (tailwind opts) (tokenize input)) (effectiveOrder opts)
  | Chunks chunks =>
      map tokenize chunks
      = filter (fun g => negb (List.length g =? 0))
          (map (bucketOf (tailwind opts) (tokenize input)) (effectiveOrder opts))
  end.
Proof.
  intros Hc H. unfold formatClasses in H. fold (effectiveOrder opts) in H.
  apply bind_Ok in H as [buckets [Hb H]]. unfold tokenize.
  assert (Hflat : forall out,
            Ok (Flat (trim (join " " (flatBuckets (effectiveOrder opts) buckets)))) = Ok (Flat out) ->
            splitTokens out
            = flat_map (bucketOf (tailwind opts) (splitTokens input)) (effectiveOrder opts)).
  { intros out E. injection E as <-. rewrite <- (flatBuckets_exact _ _ _ Hb).
    apply (flat_output_readback _ _ _ Hb Hc). }
  destruct (splitPerGroup opts) as [[|]|].
  - rewrite (chunkBuckets_exact _ _ _ Hb) in H. cbn [bind] in H. injection H as <-.
    rewrite map_map. apply map_id_on. intros g Hg.
    apply filter_In in Hg as [Hg _]. apply in_map_iff in Hg as [k [<- _]].
    apply retokenize. now apply bucket_tokens_wellFormed.
  - destruct r as [out|cs]; [now apply Hflat|discriminate].
  - destruct r as [out|cs]; [now apply Hflat|discriminate].
Qed.

Lemma output_lists_groups_in_order_witness :
  map tokenize (strs ["flex"; "p-4"; "bg-[a b]"])
  = filter (fun g => negb (List.length g =? 0))
      (map (bucketOf None (tokenize "bg-[a b] p-4 flex")) DEFAULT_ORDER).
Proof.
  apply (output_lists_groups_in_order "bg-[a b] p-4 flex" (withSplit (Some true) noOptions)
           (Chunks (strs ["flex"; "p-4"; "bg-[a b]"]))).
  - vm_compute. reflexivity.
  - vm_compute. reflexivity.
Defined.

Lemma chunks_readback input tw order :
  bracketsClosed input = true ->
  splitTokens (join " " (map (join " ")
     (filter (fun g => negb (List.length g =? 0))
        (map (bucketOf tw (splitTokens input)) order))))
  = flat_map (bucketOf tw (splitTokens input)) order.
Proof.
  intros Hc. rewrite join_chunks, <- flat_map_concat_map. apply retokenize.
  now apply blocks_wellFormed.
Qed.

Lemma chunks_again (input : jsstring) (opts : FormatOptions) (chunks : list jsstring) :
  NoDup (effectiveOrder opts) ->
  bracketsClosed input = true ->
  formatClasses input opts = Ok (Chunks chunks) ->
  formatClasses (join " " chunks) opts = Ok (Chunks chunks).
Proof.
  intros Hnd Hc H. unfold formatClasses in H. fold (effectiveOrder opts) in H.
  apply bind_Ok in H as [b1 [Hb1 H]].
  destruct (splitPerGroup opts) as [[|]|] eqn:Es; try discriminate.
  rewrite (chunkBuckets_exact _ _ _ Hb1) in H. cbn [bind] in H.
  assert (Hcs : chunks = map (join " ")
                  (filter (fun g => negb (List.length g =? 0))
                     (map (bucketOf (tailwind opts) (splitTokens input)) (effectiveOrder opts))))
    by (now injection H).
  clear H. subst chunks.
  pose proof (chunks_readback input (tailwind opts) (effectiveOrder opts) Hc) as Hback.
  destruct (sortedBuckets_total (join " " (map (join " ")
              (filter (fun g => negb (List.length g =? 0))
                 (map (bucketOf (tailwind opts) (splitTokens input)) (effectiveOrder opts))))) opts)
    as [b2 Hb2].
  { intros t Ht. rewrite Hback in Ht.
    apply in_flat_map in Ht as [k [Hk Ht]]. apply bucketOf_In in Ht as [_ Hg].
    exists k. split; [now apply inGroup_tokenGroup|now left]. }
  unfold formatClasses. fold (effectiveOrder opts). rewrite Hb2, Es. cbn [bind].
  rewrite (chunkBuckets_exact _ _ _ Hb2), Hback. cbn [bind].
  do 4 f_equal. apply map_ext_in. intros k Hk. now apply bucketOf_again.
Qed.





(** * Properties of the handlers *)

(** ** Formatting under the default options *)

Lemma default_classified (b : option bool) (T : list jsstring) :
  forall t, In t T ->
    exists g, tokenGroup (tailwind (withSplit b noOptions)) t = Ok g /\
              (In g (effectiveOrder (withSplit b noOptions)) \/ g = misc).
Proof.
  intros t _. destruct (tokenGroup_returns None t eq_refl) as [g Hg].
  exists g. split; [exact Hg|]. left. destruct g; cbn; tauto.
Qed.

Lemma formatGroups_exact input :
  formatGroups input
  = Ok (map (join " ")
          (filter (fun g => negb (List.length g =? 0))
             (map (bucketOf None (splitTokens input)) DEFAULT_ORDER))).
Proof.
  unfold formatGroups.
  destruct (sortedBuckets_total input (withSplit (Some true) noOptions)
              (default_classified _ _)) as [buckets Hb].
  unfold formatClasses. rewrite Hb. cbn [bind splitPerGroup withSplit].
  change (match groupOrder _ with Some o => o | None => DEFAULT_ORDER end)
    with (effectiveOrder (withSplit (Some true) noOptions)).
  rewrite (chunkBuckets_exact _ _ _ Hb). reflexivity.
Qed.

Lemma formatFlat_exact raw :
  formatFlat raw
  = Ok (trim (join " " (flat_map (bucketOf None (splitTokens raw)) DEFAULT_ORDER))).
Proof.
  unfold formatFlat.
  destruct (sortedBuckets_total raw noOptions (default_classified None _)) as [buckets Hb].
  unfold formatClasses. rewrite Hb. cbn [bind splitPerGroup noOptions].
  change (match groupOrder _ with Some o => o | None => DEFAULT_ORDER end)
    with (effectiveOrder noOptions).
  rewrite (flatBuckets_exact _ _ _ Hb). reflexivity.
Qed.

Lemma default_blocks_perm T : Permutation (flat_map (bucketOf None T) DEFAULT_ORDER) T.
Proof.
  transitivity (flat_map (fun k => filter (inGroup None k) T) DEFAULT_ORDER).
  - apply flat_map_perm. intros k _. apply sort_perm.
  - apply filter_partition; [apply DEFAULT_ORDER_NoDup|].
    intros t _. destruct (tokenGroup_returns None t eq_refl) as [g Hg].
    exists g. split; [exact Hg|]. destruct g; cbn; tauto.
Qed.

Lemma concat_chunks {A} (gs : list (list A)) :
  List.concat (filter (fun g => negb (List.length g =? 0)) gs) = List.concat gs.
Proof.
  induction gs as [|g gs IH]; [reflexivity|].
  cbn [filter List.concat]. destruct g; cbn [List.length Nat.eqb negb List.concat app];
    [exact IH|now rewrite IH].
Qed.

Lemma formatGroups_tokens input groups :
  bracketsClosed input = true ->
  formatGroups input = Ok groups ->
  flat_map tokenize groups = flat_map (bucketOf None (splitTokens input)) DEFAULT_ORDER.
Proof.
  intros Hc H. rewrite formatGroups_exact in H. apply outcome_Ok_inj in H. subst groups.
  rewrite flat_map_concat_map, map_map.
  rewrite (map_id_on (fun g => tokenize (join " " g))).
  - now rewrite concat_chunks, <- flat_map_concat_map.
  - intros g Hg. apply filter_In in Hg as [Hg _]. apply in_map_iff in Hg as [k [<- _]].
    apply retokenize. now apply bucket_tokens_wellFormed.
Qed.

Lemma formatGroups_again input groups :
  bracketsClosed input = true ->
  formatGroups input = Ok groups ->
  formatGroups (join " " groups) = Ok groups.
Proof.
  unfold formatGroups. intros Hc H.
  apply bind_Ok in H as [r [E H]]. destruct r as [out|gs]; [discriminate H|].
  apply outcome_Ok_inj in H. subst gs.
  rewrite (chunks_again input (withSplit (Some true) noOptions) groups DEFAULT_ORDER_NoDup Hc E).
  reflexivity.
Qed.

Lemma formatFlat_joined input groups :
  bracketsClosed input = true ->
  formatGroups input = Ok groups ->
  formatFlat input = Ok (join " " groups).
Proof.
  intros Hc H. rewrite formatFlat_exact. rewrite formatGroups_exact in H. apply outcome_Ok_inj in H. subst groups.
  rewrite join_chunks, <- flat_map_concat_map.
  now rewrite trim_join by (now apply blocks_wellFormed).
Qed.

Lemma joined_groups_closed input groups :
  bracketsClosed input = true ->
  formatGroups input = Ok groups ->
  bracketsClosed (join " " groups) = true.
Proof.
  intros Hc H. rewrite formatGroups_exact in H. apply outcome_Ok_inj in H. subst groups.
  rewrite join_chunks, <- flat_map_concat_map.
  pose proof (blocks_wellFormed input None DEFAULT_ORDER Hc) as Hwf.
  unfold bracketsClosed.
  destruct (flat_map (bucketOf None (splitTokens input)) DEFAULT_ORDER) as [|t ts] eqn:E;
    [reflexivity|].
  rewrite scan_join; [reflexivity|assumption|discriminate|reflexivity|reflexivity].
Qed.

Lemma formatFlat_again raw pretty :
  bracketsClosed raw = true ->
  formatFlat raw = Ok pretty ->
  formatFlat pretty = Ok pretty.
Proof.
  intros Hc H.
  pose proof (formatGroups_exact raw) as Hg.
  rewrite (formatFlat_joined _ _ Hc Hg) in H. apply outcome_Ok_inj in H. subst pretty.
  apply formatFlat_joined.
  - exact (joined_groups_closed _ _ Hc Hg).
  - exact (formatGroups_again _ _ Hc Hg).
Qed.

(** ** The static arguments of a call *)

Lemma argAt_app pre a post : argAt (pre ++ a :: post) (Z.of_nat (List.length pre)) = Some a.
Proof.
  unfold argAt. destruct (Z.ltb_spec (Z.of_nat (List.length pre)) 0); [lia|].
  rewrite Nat2Z.id, nth_error_app2, Nat.sub_diag by lia. reflexivity.
Qed.

Lemma indices_values args : forall pre,
  map (fun i => joined (staticAt (pre ++ args) i))
    (filter (fun i => (0 <=? i)%Z) (staticIndexOrMinusOne (Z.of_nat (List.length pre)) args))
  = staticValues args.
Proof.
  induction args as [|a args IH]; intros pre; [reflexivity|].
  cbn [staticIndexOrMinusOne staticValues flat_map].
  assert (Hnext : (Z.of_nat (List.length pre) + 1)%Z = Z.of_nat (List.length (pre ++ [a])))
    by (rewrite length_app; cbn; lia).
  assert (Hpre : pre ++ a :: args = (pre ++ [a]) ++ args) by (now rewrite <- app_assoc).
  unfold isStatic. destruct (getStaticStringArg a) as [v|] eqn:Ea.
  - cbn [filter]. destruct (Z.leb_spec 0 (Z.of_nat (List.length pre))); [|lia].
    cbn [map app]. f_equal.
    + unfold staticAt. now rewrite argAt_app, Ea.
    + rewrite Hnext, Hpre. apply IH.
  - cbn [filter Z.leb Z.compare app]. rewrite Hnext, Hpre. apply IH.
Qed.

Lemma combined_values args :
  map (fun i => joined (staticAt args i)) (stringLiteralIndices args) = staticValues args.
Proof. exact (indices_values args []). Qed.

Lemma indices_count args : List.length (stringLiteralIndices args) = List.length (staticValues args).
Proof. now rewrite <- combined_values, length_map. Qed.

Lemma indices_hd args : forall i,
  (0 <= i)%Z -> staticValues args <> [] ->
  hd 0%Z (filter (fun i => (0 <=? i)%Z) (staticIndexOrMinusOne i args))
  = (i + Z.of_nat (List.length (dynamicPrefix args)))%Z.
Proof.
  induction args as [|a args IH]; intros i Hi Hne; [contradiction|].
  cbn [staticIndexOrMinusOne dynamicPrefix]. cbn [staticValues flat_map] in Hne.
  unfold isStatic in *. destruct (getStaticStringArg a) as [v|].
  - cbn [filter]. destruct (Z.leb_spec 0 i); [|lia]. cbn [hd List.length]. lia.
  - cbn [filter Z.leb Z.compare]. rewrite IH; [cbn [List.length]; lia|lia|exact Hne].
Qed.

Lemma firstIndex_prefix args :
  staticValues args <> [] ->
  hd 0%Z (stringLiteralIndices args) = Z.of_nat (List.length (dynamicPrefix args)).
Proof. intros H. unfold stringLiteralIndices. rewrite indices_hd; [reflexivity|lia|exact H]. Qed.

Lemma dynamicPrefix_split args :
  staticValues args <> [] ->
  exists a v post,
    args = dynamicPrefix args ++ a :: post /\ getStaticStringArg a = Some v /\
    hd_error (staticValues args) = Some v.
Proof.
  induction args as [|a args IH]; intros Hne; [contradiction|].
  cbn [dynamicPrefix staticValues flat_map] in *. unfold isStatic.
  destruct (getStaticStringArg a) as [v|] eqn:Ea.
  - exists a, v, args. now repeat split.
  - destruct (IH Hne) as [a' [v [post [E [Ha Hh]]]]].
    exists a', v, post. repeat split; [cbn [app]; now rewrite <- E|assumption|assumption].
Qed.

Lemma dynamicPrefix_dynamic args : dynamicArgs (dynamicPrefix args) = dynamicPrefix args.
Proof.
  induction args as [|a args IH]; [reflexivity|].
  cbn [dynamicPrefix]. destruct (isStatic a) eqn:E; [reflexivity|].
  unfold dynamicArgs in *. cbn [filter]. now rewrite E, IH.
Qed.

Lemma dynamicPrefix_values args : staticValues (dynamicPrefix args) = [].
Proof.
  induction args as [|a args IH]; [reflexivity|].
  cbn [dynamicPrefix]. unfold isStatic.
  destruct (getStaticStringArg a) eqn:E; [reflexivity|].
  cbn [staticValues flat_map]. now rewrite E.
Qed.

Lemma dynamicArgs_values args : staticValues (dynamicArgs args) = [].
Proof.
  induction args as [|a args IH]; [reflexivity|].
  unfold dynamicArgs in *. cbn [filter]. unfold isStatic.
  destruct (getStaticStringArg a) eqn:E; cbn [negb]; [exact IH|].
  cbn [staticValues flat_map]. now rewrite E.
Qed.

Lemma dynamicArgs_again args : dynamicArgs (dynamicArgs args) = dynamicArgs args.
Proof.
  induction args as [|a args IH]; [reflexivity|].
  unfold dynamicArgs in *. cbn [filter].
  destruct (negb (isStatic a)) eqn:E; [|exact IH].
  cbn [filter]. now rewrite E, IH.
Qed.

Lemma literals_values groups : staticValues (map StringLiteral groups) = groups.
Proof. induction groups as [|g groups IH]; [reflexivity|]. cbn. now f_equal. Qed.

Lemma literals_dynamic groups : dynamicArgs (map StringLiteral groups) = [].
Proof. induction groups as [|g groups IH]; [reflexivity|exact IH]. Qed.

Lemma staticValues_app a b : staticValues (a ++ b) = staticValues a ++ staticValues b.
Proof. apply flat_map_app. Qed.

Lemma dynamicArgs_app a b : dynamicArgs (a ++ b) = dynamicArgs a ++ dynamicArgs b.
Proof. apply filter_app. Qed.

Lemma dynamicPrefix_app_static pre a rest :
  dynamicArgs pre = pre -> isStatic a = true -> dynamicPrefix (pre ++ a :: rest) = pre.
Proof.
  induction pre as [|b pre IH]; intros Hd Ha.
  - cbn. now rewrite Ha.
  - unfold dynamicArgs in Hd. cbn [filter] in Hd. cbn [app dynamicPrefix].
    destruct (isStatic b) eqn:Eb; cbn [negb] in Hd.
    + exfalso.
      assert (Hl : List.length (filter (fun a => negb (isStatic a)) pre) <= List.length pre)
        by apply filter_length_le.
      rewrite Hd in Hl. cbn in Hl. lia.
    + f_equal. apply IH; [|assumption]. now injection Hd.
Qed.

(** The rewritten arguments: what stood before the first static
    argument, the groups, and what is not static of the rest. *)
Lemma regroup_shape args groups :
  staticValues args <> [] ->
  regroup args (Z.of_nat (List.length (dynamicPrefix args))) groups
  = dynamicPrefix args ++ map StringLiteral groups
    ++ dynamicArgs (skipn (S (List.length (dynamicPrefix args))) args).
Proof.
  intros Hne. unfold regroup. rewrite Nat2Z.id, Nat.add_1_r. f_equal.
  destruct (dynamicPrefix_split args Hne) as [a [v [post [E _]]]].
  rewrite E at 2. now rewrite firstn_app, firstn_all, Nat.sub_diag, firstn_O, app_nil_r.
Qed.

Lemma staticAt_first args :
  staticValues args <> [] ->
  staticAt args (Z.of_nat (List.length (dynamicPrefix args))) = hd_error (staticValues args).
Proof.
  intros Hne. destruct (dynamicPrefix_split args Hne) as [a [v [post [E [Ha Hh]]]]].
  unfold staticAt. rewrite E at 1. now rewrite argAt_app, Ha, Hh.
Qed.

(** The [--use-cn] branch of the visitor, on the static texts. *)
Lemma onCallExpression_useCn callee args :
  isCnCall callee = true ->
  onCallExpression true callee args
  = if 0 <? List.length (staticValues args) then
      groups <- formatGroups (join " " (staticValues args)) ;;
      if 0 <? List.length groups then
        if negb ((List.length (staticValues args) =? 1) && (List.length groups =? 1)
                 && strictEq (hd [] groups) (hd_error (staticValues args)))
           || (1 <? List.length groups) || negb (List.length (staticValues args) =? 1)
        then Ok {| after := dynamicPrefix args ++ map StringLiteral groups
                            ++ dynamicArgs (skipn (S (List.length (dynamicPrefix args))) args);
                   mutated := true |}
        else Ok (untouched args)
      else Ok (untouched args)
    else Ok (untouched args).
Proof.
  intros Hcn. unfold onCallExpression. rewrite Hcn. cbn [negb].
  rewrite indices_count, combined_values.
  destruct (staticValues args) as [|v vs] eqn:Ev; [reflexivity|].
  cbn [List.length Nat.ltb Nat.leb].
  assert (Hne : staticValues args <> []) by (rewrite Ev; discriminate).
  rewrite (firstIndex_prefix _ Hne), (staticAt_first _ Hne), Ev.
  destruct (formatGroups (join " " (v :: vs))) as [groups| | |]; try reflexivity.
  cbn [bind]. now rewrite (regroup_shape _ _ Hne).
Qed.

(** ** The [CallExpression] visitor *)

Lemma dynamicArgs_split args :
  staticValues args <> [] ->
  dynamicArgs args
  = dynamicPrefix args ++ dynamicArgs (skipn (S (List.length (dynamicPrefix args))) args).
Proof.
  induction args as [|a args IH]; intros Hne; [contradiction|].
  cbn [staticValues flat_map] in Hne. unfold dynamicArgs in *.
  cbn [filter dynamicPrefix]. unfold isStatic in *.
  destruct (getStaticStringArg a); cbn [negb]; [reflexivity|].
  cbn [app List.length skipn]. f_equal. now apply IH.
Qed.

(** X24, the [CallExpression] visitor never throws and keeps the
    dynamic arguments.  With or without [--use-cn], for every callee and
    every argument list the visitor returns, and the arguments that are no
    static strings are the same, in the same order, afterwards. *)
Theorem call_handler_keeps_dynamic_arguments (USE_CN : bool) (callee : Callee)
    (args : list Node) :
  exists h,
    onCallExpression USE_CN callee args = Ok h /\
    dynamicArgs (after h) = dynamicArgs args.
Proof.
  destruct (isCnCall callee) eqn:Hcn.
  2:{ unfold onCallExpression. rewrite Hcn. cbn [negb]. now eexists. }
  destruct USE_CN.
  - rewrite (onCallExpression_useCn _ _ Hcn).
    destruct (0 <? List.length (staticValues args)) eqn:Hs; [|now eexists].
    rewrite formatGroups_exact. cbn [bind].
    set (groups := map (join " ") _).
    destruct (0 <? List.length groups); [|now eexists].
    match goal with
    | |- context [if ?c then _ else _] => destruct c
    end; [|now eexists].
    eexists. split; [reflexivity|]. cbn [after].
    assert (Hne : staticValues args <> []).
    { intros E. rewrite E in Hs. discriminate Hs. }
    rewrite !dynamicArgs_app, dynamicPrefix_dynamic, literals_dynamic, dynamicArgs_again.
    cbn [app]. symmetry. now apply dynamicArgs_split.
  - unfold onCallExpression. rewrite Hcn. cbn [negb].
    destruct args as [|a [|b args]]; try (now eexists).
    destruct (getStaticStringArg a) as [raw|] eqn:Ea; [|now eexists].
    rewrite formatFlat_exact. cbn [bind].
    match goal with
    | |- context [if ?c then _ else _] => destruct c
    end; [|now eexists].
    eexists. split; [reflexivity|]. cbn [after].
    unfold dynamicArgs. cbn [filter]. unfold isStatic. now rewrite Ea.
Qed.

Lemma useCn_mutated callee args h :
  onCallExpression true callee args = Ok h -> mutated h = true ->
  isCnCall callee = true /\
  exists groups,
    formatGroups (join " " (staticValues args)) = Ok groups /\
    groups <> [] /\ staticValues args <> [] /\
    after h = dynamicPrefix args ++ map StringLiteral groups
              ++ dynamicArgs (skipn (S (List.length (dynamicPrefix args))) args).
Proof.
  intros H Hm. destruct (isCnCall callee) eqn:Hcn.
  2:{ unfold onCallExpression in H. rewrite Hcn in H. cbn [negb] in H.
      apply outcome_Ok_inj in H. subst h. discriminate Hm. }
  split; [reflexivity|]. rewrite (onCallExpression_useCn _ _ Hcn) in H.
  destruct (0 <? List.length (staticValues args)) eqn:Hs.
  2:{ apply outcome_Ok_inj in H. subst h. discriminate Hm. }
  apply bind_Ok in H as [groups [Hg H]]. exists groups.
  destruct (0 <? List.length groups) eqn:Hl.
  2:{ apply outcome_Ok_inj in H. subst h. discriminate Hm. }
  match type of H with
  | (if ?c then _ else _) = _ => destruct c
  end.
  2:{ apply outcome_Ok_inj in H. subst h. discriminate Hm. }
  apply outcome_Ok_inj in H. subst h. cbn [after]. repeat split.
  - exact Hg.
  - intros E. rewrite E in Hl. discriminate Hl.
  - intros E. rewrite E in Hs. discriminate Hs.
Qed.

Lemma regrouped_values args groups :
  staticValues (dynamicPrefix args ++ map StringLiteral groups
                ++ dynamicArgs (skipn (S (List.length (dynamicPrefix args))) args))
  = groups.
Proof.
  now rewrite !staticValues_app, dynamicPrefix_values, literals_values, dynamicArgs_values,
    app_nil_r.
Qed.

(** X25, regrouping keeps the classes.  When the [CallExpression]
    visitor under [--use-cn] rewrites the arguments of a helper call whose
    static strings close their brackets, the tokens of the static
    arguments afterwards are a permutation of the tokens before. *)
Theorem regrouped_arguments_keep_the_classes (callee : Callee) (args : list Node)
    (h : Handled (list Node)) :
  onCallExpression true callee args = Ok h ->
  mutated h = true ->
  bracketsClosed (join " " (staticValues args)) = true ->
  Permutation (flat_map tokenize (staticValues (after h)))
              (tokenize (join " " (staticValues args))).
Proof.
  intros H Hm Hc.
  destruct (useCn_mutated _ _ _ H Hm) as [_ [groups [Hg [_ [_ ->]]]]].
  rewrite regrouped_values, (formatGroups_tokens _ _ Hc Hg).
  apply default_blocks_perm.
Qed.

Lemma regrouped_arguments_keep_the_classes_witness :
  Permutation
    (flat_map tokenize
       (staticValues [StringLiteral "flex"; StringLiteral "p-4 m-1"; OtherNode 0]))
    (tokenize (join " " (staticValues [StringLiteral "p-4 flex"; OtherNode 0; StringLiteral "m-1"]))).
Proof.
  apply (regrouped_arguments_keep_the_classes (CalleeIdentifier "cn")
           [StringLiteral "p-4 flex"; OtherNode 0; StringLiteral "m-1"]
           {| after := [StringLiteral "flex"; StringLiteral "p-4 m-1"; OtherNode 0];
              mutated := true |}).
  - vm_compute. reflexivity.
  - reflexivity.
  - vm_compute. reflexivity.
Defined.

Lemma regrouped_again args groups :
  groups <> [] ->
  dynamicPrefix (dynamicPrefix args ++ map StringLiteral groups
                 ++ dynamicArgs (skipn (S (List.length (dynamicPrefix args))) args))
  = dynamicPrefix args /\
  dynamicArgs (skipn (S (List.length (dynamicPrefix args)))
                 (dynamicPrefix args ++ map StringLiteral groups
                  ++ dynamicArgs (skipn (S (List.length (dynamicPrefix args))) args)))
  = dynamicArgs (skipn (S (List.length (dynamicPrefix args))) args).
Proof.
  intros Hne. destruct groups as [|g groups]; [contradiction|]. cbn [map app]. split.
  - apply dynamicPrefix_app_static; [apply dynamicPrefix_dynamic|reflexivity].
  - replace (S (List.length (dynamicPrefix args)))
      with (List.length (dynamicPrefix args ++ [StringLiteral g])) at 1
      by (rewrite length_app; cbn; lia).
    replace (dynamicPrefix args ++ StringLiteral g :: map StringLiteral groups ++
             dynamicArgs (skipn (S (List.length (dynamicPrefix args))) args))
      with ((dynamicPrefix args ++ [StringLiteral g]) ++ map StringLiteral groups ++
            dynamicArgs (skipn (S (List.length (dynamicPrefix args))) args))
      by (now rewrite <- app_assoc).
    rewrite skipn_app, skipn_all, Nat.sub_diag. cbn [skipn app].
    now rewrite dynamicArgs_app, literals_dynamic, dynamicArgs_again.
Qed.

(** X26, a second run under [--use-cn] leaves a call as it is.  The
    [CallExpression] visitor run on the arguments it has left returns the
    same arguments, when the static strings close their brackets. *)
Theorem regrouped_call_is_settled (callee : Callee) (args : list Node)
    (h : Handled (list Node)) :
  onCallExpression true callee args = Ok h ->
  bracketsClosed (join " " (staticValues args)) = true ->
  exists h', onCallExpression true callee (after h) = Ok h' /\ after h' = after h.
Proof.
  intros H Hc. destruct (mutated h) eqn:Hm.
  - destruct (useCn_mutated _ _ _ H Hm) as [Hcn [groups [Hg [Hne [_ Hafter]]]]].
    rewrite Hafter, (onCallExpression_useCn _ _ Hcn), regrouped_values.
    rewrite (formatGroups_again _ _ Hc Hg). cbn [bind].
    destruct (regrouped_again args groups Hne) as [-> ->].
    destruct (0 <? List.length groups); [|eexists; split; reflexivity].
    match goal with
    | |- context [if ?c then _ else _] => destruct c
    end; eexists; split; reflexivity.
  - assert (Hsame : after h = args).
    { destruct (isCnCall callee) eqn:Hcn.
      2:{ unfold onCallExpression in H. rewrite Hcn in H. cbn [negb] in H.
          apply outcome_Ok_inj in H. subst h; reflexivity. }
      rewrite (onCallExpression_useCn _ _ Hcn) in H.
      destruct (0 <? List.length (staticValues args));
        [|apply outcome_Ok_inj in H; subst h; reflexivity].
      apply bind_Ok in H as [groups [_ H]].
      destruct (0 <? List.length groups); [|apply outcome_Ok_inj in H; subst h; reflexivity].
      match type of H with
      | (if ?c then _ else _) = _ => destruct c
      end; apply outcome_Ok_inj in H; subst h; [discriminate Hm|reflexivity]. }
    exists h. rewrite Hsame. split; [exact H|reflexivity].
Qed.

Lemma regrouped_call_is_settled_witness :
  exists h',
    onCallExpression true (CalleeIdentifier "cn")
      [StringLiteral "flex"; StringLiteral "p-4 m-1"; OtherNode 0] = Ok h' /\
    after h' = [StringLiteral "flex"; StringLiteral "p-4 m-1"; OtherNode 0].
Proof.
  apply (regrouped_call_is_settled (CalleeIdentifier "cn")
           [StringLiteral "p-4 flex"; OtherNode 0; StringLiteral "m-1"]
           {| after := [StringLiteral "flex"; StringLiteral "p-4 m-1"; OtherNode 0];
              mutated := true |}).
  - vm_compute. reflexivity.
  - vm_compute. reflexivity.
Defined.

(** X27, a second run without [--use-cn] leaves a call untouched.
    The [CallExpression] visitor run on the arguments it has left changes
    nothing and does not set [mutated], when the single static argument
    closes its brackets. *)
Theorem sorted_call_is_settled (callee : Callee) (args : list Node)
    (h : Handled (list Node)) :
  onCallExpression false callee args = Ok h ->
  (forall a raw, args = [a] -> getStaticStringArg a = Some raw -> bracketsClosed raw = true) ->
  onCallExpression false callee (after h) = Ok (untouched (after h)).
Proof.
  intros H Hc. unfold onCallExpression in *.
  destruct (isCnCall callee); cbn [negb] in *;
    [|apply outcome_Ok_inj in H; subst h; reflexivity].
  destruct args as [|a [|b args]]; try (apply outcome_Ok_inj in H; subst h; reflexivity).
  destruct (getStaticStringArg a) as [raw|] eqn:Ea.
  2:{ apply outcome_Ok_inj in H. subst h. cbn [after untouched]. rewrite Ea. reflexivity. }
  apply bind_Ok in H as [pretty [Hp H]].
  pose proof (formatFlat_again _ _ (Hc a raw eq_refl Ea) Hp) as Hagain.
  destruct (jsstring_eqb pretty raw) eqn:Eq; cbn [negb] in H;
    apply outcome_Ok_inj in H; subst h; cbn [after untouched].
  - rewrite Ea, Hp. cbn [bind]. rewrite Eq. reflexivity.
  - cbn [getStaticStringArg]. rewrite Hagain. cbn [bind].
    rewrite jsstring_eqb_refl. reflexivity.
Qed.

Lemma sorted_call_is_settled_witness :
  onCallExpression false (CalleeIdentifier "clsx") [StringLiteral "flex p-4"]
  = Ok (untouched [StringLiteral "flex p-4"]).
Proof.
  apply (sorted_call_is_settled (CalleeIdentifier "clsx") [StringLiteral "p-4 flex"]
           {| after := [StringLiteral "flex p-4"]; mutated := true |}).
  - vm_compute. reflexivity.
  - intros a raw Ha Hr. injection Ha as <-. injection Hr as <-. reflexivity.
Defined.

(** ** The [JSXAttribute] visitor *)

Lemma includes_In l h : In h l -> includes l h = true.
Proof.
  intros H. unfold includes. apply existsb_exists. exists h.
  split; [assumption|apply jsstring_eqb_refl].
Qed.

Lemma getLiteralString_set value raw v :
  getLiteralString value = Some raw -> getLiteralString (setLiteralString value v) = Some v.
Proof.
  destruct value as [s|[[s|q e|n]|c a]|]; cbn; intros H; (reflexivity || discriminate H).
Qed.

Lemma setLiteralString_no_call value raw v callee args :
  getLiteralString value = Some raw ->
  setLiteralString value v <> JSXExpressionContainer (ExprCall callee args).
Proof.
  destruct value as [s|[[s|q e|n]|c a]|]; cbn; intros H; (discriminate || discriminate H).
Qed.

Lemma no_groups_no_text raw :
  bracketsClosed raw = true -> formatGroups raw = Ok [] -> formatFlat raw = Ok [].
Proof. intros Hc Hg. now rewrite (formatFlat_joined _ _ Hc Hg). Qed.

Lemma truthy_neq raw : truthy raw = true -> jsstring_eqb [] raw = false.
Proof. destruct raw; [discriminate|reflexivity]. Qed.

Lemma onJSXAttribute_sort env name value raw :
  isClassAttr name = true -> getLiteralString value = Some raw -> truthy raw = true ->
  onJSXAttribute false env name value = sortAttribute value raw false.
Proof.
  intros Hn Hv Ht. unfold onJSXAttribute. rewrite Hn, Hv, Ht. cbn [negb]. reflexivity.
Qed.

Lemma onJSXAttribute_no_groups env name value raw :
  isClassAttr name = true -> getLiteralString value = Some raw -> truthy raw = true ->
  formatGroups raw = Ok [] ->
  onJSXAttribute true env name value = sortAttribute value raw false.
Proof.
  intros Hn Hv Ht Hg. unfold onJSXAttribute. rewrite Hn, Hv, Ht, Hg.
  cbv beta zeta. cbn [negb bind List.length Nat.ltb Nat.leb].
  destruct (find (hasBinding env) HELPERS); reflexivity.
Qed.

Lemma onJSXAttribute_wrap env name value raw g groups :
  isClassAttr name = true -> getLiteralString value = Some raw -> truthy raw = true ->
  formatGroups raw = Ok (g :: groups) ->
  onJSXAttribute true env name value
  = Ok {| valueAfter :=
            JSXExpressionContainer
              (ExprCall (CalleeIdentifier
                           (match find (hasBinding env) HELPERS with
                            | Some h => h
                            | None => "classNames"
                            end))
                        (map StringLiteral (g :: groups)));
          attrMutated := true;
          importInserted :=
            match find (hasBinding env) HELPERS with
            | Some _ => false
            | None => negb (alreadyHasClassNames env)
            end |}.
Proof.
  intros Hn Hv Ht Hg. unfold onJSXAttribute. rewrite Hn, Hv, Ht, Hg.
  cbv beta zeta. cbn [negb bind List.length Nat.ltb Nat.leb].
  destruct (find (hasBinding env) HELPERS); reflexivity.
Qed.

Lemma onJSXAttribute_skip USE_CN env name value :
  isClassAttr name = false \/ getLiteralString value = None
  \/ getLiteralString value = Some [] ->
  onJSXAttribute USE_CN env name value = Ok (attributeUntouched value).
Proof.
  unfold onJSXAttribute. intros [Hn|[Hv|Hv]].
  - rewrite Hn. reflexivity.
  - rewrite Hv. destruct (isClassAttr name); reflexivity.
  - rewrite Hv. destruct (isClassAttr name); reflexivity.
Qed.

Lemma sortAttribute_settled USE_CN env name value raw r :
  isClassAttr name = true -> getLiteralString value = Some raw -> truthy raw = true ->
  bracketsClosed raw = true ->
  sortAttribute value raw false = Ok r ->
  (USE_CN = true -> formatFlat raw = Ok []) ->
  onJSXAttribute USE_CN env name (valueAfter r) = Ok (attributeUntouched (valueAfter r)).
Proof.
  intros Hn Hv Ht Hc. unfold sortAttribute at 1. intros H Hempty.
  apply bind_Ok in H as [pretty [Hp H]].
  assert (Hpretty : USE_CN = true -> pretty = []).
  { intros E. specialize (Hempty E). rewrite Hp in Hempty.
    apply outcome_Ok_inj in Hempty. exact Hempty. }
  clear Hempty.
  destruct (jsstring_eqb pretty raw) eqn:Eq; cbn [negb] in H;
    apply outcome_Ok_inj in H; subst r; cbn [valueAfter].
  - apply jsstring_eqb_eq in Eq. subst pretty. destruct USE_CN.
    + rewrite (Hpretty eq_refl) in Ht. discriminate Ht.
    + rewrite (onJSXAttribute_sort _ _ _ _ Hn Hv Ht). unfold sortAttribute.
      rewrite Hp. cbn [bind]. rewrite jsstring_eqb_refl. reflexivity.
  - pose proof (getLiteralString_set _ _ pretty Hv) as Hv'.
    destruct (truthy pretty) eqn:Etp.
    + destruct USE_CN.
      * rewrite (Hpretty eq_refl) in Etp. discriminate Etp.
      * rewrite (onJSXAttribute_sort _ _ _ _ Hn Hv' Etp). unfold sortAttribute.
        rewrite (formatFlat_again _ _ Hc Hp). cbn [bind].
        rewrite jsstring_eqb_refl. reflexivity.
    + destruct pretty; [|discriminate Etp].
      apply onJSXAttribute_skip. right. right. exact Hv'.
Qed.

(** X28, a second run leaves a class attribute untouched.  With or
    without [--use-cn], the [JSXAttribute] visitor run on the value it has
    left changes nothing, sets no flag and inserts no import, when the
    literal closes its brackets. *)
Theorem attribute_is_settled (USE_CN : bool) (env : Surroundings)
    (name : option jsstring) (value : JSXValue) (r : AttributeHandled) :
  onJSXAttribute USE_CN env name value = Ok r ->
  (forall raw, getLiteralString value = Some raw -> bracketsClosed raw = true) ->
  onJSXAttribute USE_CN env name (valueAfter r) = Ok (attributeUntouched (valueAfter r)).
Proof.
  intros H Hc.
  destruct (isClassAttr name) eqn:Hn.
  2:{ rewrite onJSXAttribute_skip in H by (left; exact Hn).
      apply outcome_Ok_inj in H. subst r. apply onJSXAttribute_skip. left. exact Hn. }
  destruct (getLiteralString value) as [raw|] eqn:Hv.
  2:{ rewrite onJSXAttribute_skip in H by (right; left; exact Hv).
      apply outcome_Ok_inj in H. subst r. apply onJSXAttribute_skip. right. left. exact Hv. }
  destruct (truthy raw) eqn:Ht.
  2:{ destruct raw; [|discriminate Ht].
      rewrite onJSXAttribute_skip in H by (right; right; exact Hv).
      apply outcome_Ok_inj in H. subst r. apply onJSXAttribute_skip. right. right. exact Hv. }
  specialize (Hc raw eq_refl). destruct USE_CN.
  - pose proof (formatGroups_exact raw) as Hg.
    destruct (map (join " ") _) as [|g groups] in Hg.
    + rewrite (onJSXAttribute_no_groups _ _ _ _ Hn Hv Ht Hg) in H.
      apply (sortAttribute_settled true env name value raw r Hn Hv Ht Hc H).
      intros _. exact (no_groups_no_text _ Hc Hg).
    + rewrite (onJSXAttribute_wrap _ _ _ _ _ _ Hn Hv Ht Hg) in H.
      apply outcome_Ok_inj in H. subst r.
      apply onJSXAttribute_skip. right. left. reflexivity.
  - rewrite (onJSXAttribute_sort _ _ _ _ Hn Hv Ht) in H.
    apply (sortAttribute_settled false env name value raw r Hn Hv Ht Hc H).
    intros E. discriminate E.
Qed.

Lemma attribute_is_settled_witness :
  onJSXAttribute false {| hasBinding := fun _ => false; alreadyHasClassNames := false |}
    (Some ("className" : jsstring)) (JSXString "flex p-4")
  = Ok (attributeUntouched (JSXString "flex p-4")).
Proof.
  apply (attribute_is_settled false
           {| hasBinding := fun _ => false; alreadyHasClassNames := false |}
           (Some ("className" : jsstring)) (JSXString "p-4 flex")
           {| valueAfter := JSXString "flex p-4"; attrMutated := true;
              importInserted := false |}).
  - vm_compute. reflexivity.
  - intros raw Hr. injection Hr as <-. reflexivity.
Defined.

Lemma literals_prefix g groups : dynamicPrefix (map StringLiteral (g :: groups)) = [].
Proof. reflexivity. Qed.

(** X29, the call a class attribute is wrapped in.  When the
    [JSXAttribute] visitor under [--use-cn] replaces a literal by a helper
    call, the [CallExpression] visitor recognises the call and leaves its
    arguments as they are, and the tokens of the arguments are a
    permutation of the tokens of the literal. *)
Theorem wrapped_attribute_is_settled (env : Surroundings) (name : option jsstring)
    (value : JSXValue) (r : AttributeHandled) (callee : Callee) (args : list Node)
    (raw : jsstring) :
  onJSXAttribute true env name value = Ok r ->
  attrMutated r = true ->
  valueAfter r = JSXExpressionContainer (ExprCall callee args) ->
  getLiteralString value = Some raw ->
  bracketsClosed raw = true ->
  isCnCall callee = true /\
  (exists h, onCallExpression true callee args = Ok h /\ after h = args) /\
  Permutation (flat_map tokenize (staticValues args)) (tokenize raw).
Proof.
  intros H Hm Hval Hv Hc.
  destruct (isClassAttr name) eqn:Hn.
  2:{ rewrite onJSXAttribute_skip in H by (left; exact Hn).
      apply outcome_Ok_inj in H. subst r. discriminate Hm. }
  destruct (truthy raw) eqn:Ht.
  2:{ destruct raw; [|discriminate Ht].
      rewrite onJSXAttribute_skip in H by (right; right; exact Hv).
      apply outcome_Ok_inj in H. subst r. discriminate Hm. }
  pose proof (formatGroups_exact raw) as Hg.
  destruct (map (join " ") _) as [|g groups] in Hg.
  - exfalso. rewrite (onJSXAttribute_no_groups _ _ _ _ Hn Hv Ht Hg) in H.
    revert H. unfold sortAttribute. intros H.
    apply bind_Ok in H as [pretty [_ H]].
    destruct (jsstring_eqb pretty raw); cbn [negb] in H;
      apply outcome_Ok_inj in H; subst r; cbn [valueAfter attrMutated] in *.
    + discriminate Hm.
    + exact (setLiteralString_no_call _ _ _ _ _ Hv Hval).
  - rewrite (onJSXAttribute_wrap _ _ _ _ _ _ Hn Hv Ht Hg) in H.
    apply outcome_Ok_inj in H. subst r.
    cbn [valueAfter] in Hval. injection Hval as Ecallee Eargs. subst callee args.
    change (StringLiteral g :: map StringLiteral groups) with (map StringLiteral (g :: groups)).
    assert (Hcn : isCnCall (CalleeIdentifier
                    (match find (hasBinding env) HELPERS with
                     | Some h => h
                     | None => "classNames"
                     end)) = true).
    { cbn [isCnCall]. apply includes_In.
      destruct (find (hasBinding env) HELPERS) as [h|] eqn:Ef.
      - apply find_some in Ef as [Hin _]. exact Hin.
      - cbn. tauto. }
    split; [exact Hcn|]. split.
    + rewrite (onCallExpression_useCn _ _ Hcn), literals_values.
      cbn [List.length Nat.ltb Nat.leb].
      rewrite (formatGroups_again _ _ Hc Hg). cbn [bind List.length Nat.ltb Nat.leb].
      match goal with
      | |- context [if ?c then _ else _] => destruct c
      end; eexists; (split; [reflexivity|]); [|reflexivity].
      cbn [after]. rewrite literals_prefix. cbn [List.length skipn app map].
      rewrite literals_dynamic, app_nil_r. reflexivity.
    + rewrite literals_values, (formatGroups_tokens _ _ Hc Hg).
      apply default_blocks_perm.
Qed.

Lemma wrapped_attribute_is_settled_witness :
  isCnCall (CalleeIdentifier "classNames") = true /\
  (exists h,
     onCallExpression true (CalleeIdentifier "classNames")
       [StringLiteral "flex"; StringLiteral "p-4"] = Ok h /\
     after h = [StringLiteral "flex"; StringLiteral "p-4"]) /\
  Permutation (flat_map tokenize (staticValues [StringLiteral "flex"; StringLiteral "p-4"]))
              (tokenize "p-4 flex").
Proof.
  apply (wrapped_attribute_is_settled
           {| hasBinding := fun _ => false; alreadyHasClassNames := false |}
           (Some ("className" : jsstring)) (JSXString "p-4 flex")
           {| valueAfter :=
                JSXExpressionContainer
                  (ExprCall (CalleeIdentifier "classNames")
                     [StringLiteral "flex"; StringLiteral "p-4"]);
              attrMutated := true; importInserted := true |}
           (CalleeIdentifier "classNames") [StringLiteral "flex"; StringLiteral "p-4"]
           "p-4 flex").
  - vm_compute. reflexivity.
  - reflexivity.
  - reflexivity.
  - reflexivity.
  - vm_compute. reflexivity.
Defined.

